(** * Eagle Tunnel: split DNS resolver, hosts overlay and configuration parsing

    A shallow embedding of
      - [server/protocols/et/cmd/dns.go]  (the ET-DNS sub-protocol: [Handle],
        [look4Hosts], [Send], [smartSend], [resolvDNSByLocation],
        [resolvDNSByProxy], [resolvDNSByLocal], ...), and
      - [src/eagletunnel/controler.go]    ([readLines], [getKeyValues],
        [exportKeyValues], [readHosts], [Init], [importUsers], [SetListen],
        [SetRelayer]), and
      - [main.go]                         ([main], [Init], [check], [core]),
    together with the properties the specification states about them and
    further properties of the code.

    Go strings are modelled as Rocq [string]s (sequences of bytes, UTF-8
    where they are text).  [strings.Split] and [strings.Replace] work on
    bytes; [strings.TrimSpace] removes the white space of Unicode;
    [strings.ToLower] lowers the ASCII letters itself and leaves a string
    with other bytes to the tables of package [unicode], which are taken as
    given.  A Go [error] is an [option error] ([None] is [nil]).  A
    [*comm.NetArg] that a function mutates is passed in and handed back. *)

From Stdlib Require Import Ascii String.
From stdpp Require Import gmap strings list fin_maps.

#[local] Set Warnings "-clear-no-such-hyp".

Open Scope string_scope.
Open Scope list_scope.

(** ** Go's [strings] package, as far as the sources use it *)

Module GoStrings.

(** [strings.Split(s, sep)] for a separator of one byte: the pieces between
    the occurrences of [sep]; [n] occurrences give [n+1] pieces, so the
    result is never empty. *)
Fixpoint Split (sep : ascii) (s : string) : list string :=
  match s with
  | EmptyString => [EmptyString]
  | String c s' =>
      if Ascii.eqb c sep then EmptyString :: Split sep s'
      else match Split sep s' with
           | p :: ps => String c p :: ps
           | [] => [String c EmptyString]
           end
  end.

(** the bytes of a string *)
Fixpoint bytes (s : string) : list ascii :=
  match s with
  | EmptyString => []
  | String c s' => c :: bytes s'
  end.

(** *** White space

    [strings.TrimSpace] removes the leading and the trailing white space
    "as defined by Unicode": the code points [unicode.IsSpace] accepts.
    In one byte these are tab, line feed, vertical tab, form feed, carriage
    return and space. *)
Definition isSpace (c : ascii) : bool :=
  let n := nat_of_ascii c in
  (Nat.leb 9 n && Nat.leb n 13) || Nat.eqb n 32.

Definition isByte (n : nat) (c : ascii) : bool := Nat.eqb (nat_of_ascii c) n.

(** In two bytes of UTF-8: U+0085 (C2 85) and U+00A0 (C2 A0). *)
Definition space2 (c1 c2 : ascii) : bool :=
  isByte 194 c1 && (isByte 133 c2 || isByte 160 c2).

(** In three bytes: U+1680 (E1 9A 80), U+2000 to U+200A (E2 80 80 to
    E2 80 8A), U+2028, U+2029 and U+202F (E2 80 A8, A9, AF), U+205F
    (E2 81 9F) and U+3000 (E3 80 80). *)
Definition space3 (c1 c2 c3 : ascii) : bool :=
  (isByte 225 c1 && (isByte 154 c2 && isByte 128 c3)) ||
  (isByte 226 c1 &&
     ((isByte 128 c2 &&
         ((Nat.leb 128 (nat_of_ascii c3) && Nat.leb (nat_of_ascii c3) 138)
          || isByte 168 c3 || isByte 169 c3 || isByte 175 c3)) ||
      (isByte 129 c2 && isByte 159 c3))) ||
  (isByte 227 c1 && (isByte 128 c2 && isByte 128 c3)).

(** The string is the encoding of one white-space code point. *)
Definition isSpaceCode (s : string) : bool :=
  match s with
  | String c1 EmptyString => isSpace c1
  | String c1 (String c2 EmptyString) => space2 c1 c2
  | String c1 (String c2 (String c3 EmptyString)) => space3 c1 c2 c3
  | _ => false
  end.

(** The string starts with the encoding of a white-space code point. *)
Definition startsSpace (s : string) : bool :=
  match s with
  | EmptyString => false
  | String c1 r1 =>
      isSpace c1 ||
      match r1 with
      | EmptyString => false
      | String c2 r2 =>
          space2 c1 c2 ||
          match r2 with
          | EmptyString => false
          | String c3 _ => space3 c1 c2 c3
          end
      end
  end.

(** The leading white space removed: a byte sequence that is no valid
    encoding decodes to U+FFFD, which is no white space, so only the
    encodings above are removed. *)
Fixpoint TrimLeft (s : string) : string :=
  match s with
  | EmptyString => EmptyString
  | String c1 r1 =>
      if isSpace c1 then TrimLeft r1
      else
        match r1 with
        | EmptyString => s
        | String c2 r2 =>
            if space2 c1 c2 then TrimLeft r2
            else
              match r2 with
              | EmptyString => s
              | String c3 r3 => if space3 c1 c2 c3 then TrimLeft r3 else s
              end
        end
  end.

(** The trailing white space removed: what is left of the rest, with the
    byte before it, is dropped when it is one white-space code point. *)
Fixpoint TrimRight (s : string) : string :=
  match s with
  | EmptyString => EmptyString
  | String c r =>
      let t := String c (TrimRight r) in
      if isSpaceCode t then EmptyString else t
  end.

(** [strings.TrimSpace] *)
Definition TrimSpace (s : string) : string := TrimRight (TrimLeft s).

(** A function of bytes, applied to every byte. *)
Fixpoint mapBytes (f : ascii → ascii) (s : string) : string :=
  match s with
  | EmptyString => EmptyString
  | String c s' => String (f c) (mapBytes f s')
  end.

(** *** Letters *)

Definition isUpper (c : ascii) : bool :=
  let n := nat_of_ascii c in Nat.leb 65 n && Nat.leb n 90.

(** Some byte of the string is an upper-case letter [A] to [Z]. *)
Definition hasUpper (s : string) : bool := existsb isUpper (bytes s).

(** Every byte of the string is below [utf8.RuneSelf] (0x80). *)
Definition isASCII (s : string) : bool :=
  forallb (fun c => Nat.ltb (nat_of_ascii c) 128) (bytes s).

Definition lowerByte (c : ascii) : ascii :=
  let n := nat_of_ascii c in
  if Nat.leb 65 n && Nat.leb n 90 then ascii_of_nat (n + 32) else c.

(** [c += 'a' - 'A'] for every upper-case byte *)
Fixpoint lowerBytes (s : string) : string :=
  match s with
  | EmptyString => EmptyString
  | String c s' => String (lowerByte c) (lowerBytes s')
  end.

Section Lower.

(** [strings.Map(unicode.ToLower, s)]: what [strings.ToLower] returns for a
    string with a byte from 0x80 on.  It decodes the string, maps every
    code point with the case tables of package [unicode] (those of the Go
    release the program is built with) and encodes the result. *)
Variable MapToLower : string → string.

(** [strings.ToLower]: a string of ASCII is returned as it is when it has
    no upper-case letter, and with its upper-case bytes lowered
    otherwise. *)
Definition ToLower (s : string) : string :=
  if isASCII s then
    if hasUpper s then lowerBytes s else s
  else MapToLower s.

End Lower.

(** [strings.Replace(s, old, new, -1)] for [old] and [new] of one byte *)
Fixpoint Replace (old new : ascii) (s : string) : string :=
  match s with
  | EmptyString => EmptyString
  | String c s' =>
      String (if Ascii.eqb c old then new else c) (Replace old new s')
  end.

(** [value += sep + item] for every item *)
Definition joinFrom (sep : ascii) (value : string) (items : list string)
  : string :=
  fold_left (fun value item => value +:+ String sep "" +:+ item) items value.

(** A word of a line of a hosts file: not empty, without a space in it,
    and without white space (of Unicode) at either end. *)
Definition isWord (s : string) : bool :=
  negb (String.eqb s "") &&
  forallb (fun c => negb (Ascii.eqb c " ")) (bytes s) &&
  String.eqb (TrimSpace s) s.

(** What holds of [strings.Map(unicode.ToLower, s)] whatever the release:
    a code point is mapped to one code point, never to an upper-case
    letter of ASCII; what is no letter is mapped to itself, so no comment
    sign and no tab appears, and white space is neither made nor removed
    at either end; what is not valid UTF-8 becomes U+FFFD; and the result
    is mapped to itself.  [MapToLower] is asked for strings with a byte
    from 0x80 on only. *)
Definition lowerLaws (MapToLower : string → string) : Prop :=
  ∀ s, isASCII s = false →
    (s ≠ "" → MapToLower s ≠ "") ∧
    hasUpper (MapToLower s) = false ∧
    (∀ c, c ∈ bytes (MapToLower s) →
          c = "#"%char ∨ c = "009"%char → c ∈ bytes s) ∧
    (TrimSpace s = s → TrimSpace (MapToLower s) = MapToLower s) ∧
    (isASCII (MapToLower s) = false →
     MapToLower (MapToLower s) = MapToLower s).

End GoStrings.

Import GoStrings.

(** ** Package [comm]: the data the DNS sub-protocol works on *)

(** Go errors.  The three [errors.New] values of [dns.go], the failure a
    destroyed cache node hands to its waiters, and the errors that come from
    outside (resolver, relay, tunnel), told apart by their message. *)
Inductive error : Type :=
| ErrADHostsFound                 (* "ad hosts found" *)
| ErrInvalidProxyStatus           (* "invalid proxy-status" *)
| ErrInvalidReply                 (* "invalid reply" *)
| ErrReqTooShort                  (* "ETDNS.Handle -> req is too short" *)
| ErrNodeFailed
| ErrExternal (msg : string).

Inductive ProxyStatusT : Type :=
| ProxySMART
| ProxyENABLE
| ProxyOtherStatus (code : nat).

Inductive DomainTypeT : Type :=
| UncertainDomain
| DirectDomain
| ProxyDomain
| OtherDomainType (code : nat).

(** [comm.NetArg] (with its embedded [NetConnArg]): the fields [dns.go]
    reads or writes, and the port. *)
Record NetArg : Type := mkNetArg {
  Domain : string;
  IP : string;
  Port : string;
  Location : string;
  DomainType : DomainTypeT
}.

Definition setIP (e : NetArg) (ip : string) : NetArg :=
  mkNetArg (Domain e) ip (Port e) (Location e) (DomainType e).

Definition setLocation (e : NetArg) (loc : string) : NetArg :=
  mkNetArg (Domain e) (IP e) (Port e) loc (DomainType e).

(** [comm.NetArg{NetConnArg: comm.NetConnArg{Domain: d}}]: every other
    field has Go's zero value (for the domain type, the uncertain one). *)
Definition newNetArg (d : string) : NetArg :=
  mkNetArg d "" "" "" UncertainDomain.

(** ** The text cache *)

(** Modelled from the spec: the cache package [github.com/eaglexiang/go/cache/text]
    is not part of the sources.  Section 4.5 of the specification: a node is
    pending until its creator publishes a value ([Update]) or fails it
    ([Destroy]), and a failed node is removed from the cache that owns it. *)
Inductive CacheNode : Type :=
| Pending
| Ready (text : string).

Abbreviation TextCache := (gmap string CacheNode).

Module Cache.

(** [TextCache.Get]: the node of [key] and [loaded = true], or a new
    pending node, stored under [key], and [loaded = false]. *)
Definition Get (c : TextCache) (key : string) : TextCache * bool :=
  match c !! key with
  | Some _ => (c, true)
  | None => (<[key := Pending]> c, false)
  end.

(** [CacheNode.Update] of the node stored under [key] *)
Definition Update (c : TextCache) (key text : string) : TextCache :=
  <[key := Ready text]> c.

(** [CacheNode.Destroy] of the node stored under [key] *)
Definition Destroy (c : TextCache) (key : string) : TextCache :=
  delete key c.

(** No resolution is in flight: every node holds a value. *)
Definition settled (c : TextCache) : Prop :=
  ∀ k, c !! k ≠ Some Pending.

End Cache.

(** ** The state of a [DNS] value and of the world around it *)

(** What the code asks of the world, in the order it asks. *)
Inductive event : Type :=
| CallDNSResolver (domain : string)     (* d.DNSResolver(domain) *)
| CallSendQueryReq (req : string)       (* comm.SendQueryReq(req) *)
| CallLocation (ip : string)            (* comm.SubSenders[comm.LOCATION].Send *)
| CallWriteLeftStr (s : string).        (* t.WriteLeftStr(s) *)

(** The two cache pointers of [DNS] ([None] is the nil pointer) and the
    history of the calls made so far. *)
Record State : Type := mkState {
  dnsRemoteCache : option TextCache;
  dnsLocalCache : option TextCache;
  history : list event
}.

Definition initState : State := mkState None None [].

Definition setRemote (s : State) (c : TextCache) : State :=
  mkState (Some c) (dnsLocalCache s) (history s).

Definition setLocal (s : State) (c : TextCache) : State :=
  mkState (dnsRemoteCache s) (Some c) (history s).

Definition record (s : State) (ev : event) : State :=
  mkState (dnsRemoteCache s) (dnsLocalCache s) (history s ++ [ev]).

(** Which of the two caches a node belongs to. *)
Inductive Side : Type := Remote | Local.

Definition cacheOf (sd : Side) (s : State) : option TextCache :=
  match sd with
  | Remote => dnsRemoteCache s
  | Local => dnsLocalCache s
  end.

Definition setCache (sd : Side) (s : State) (c : TextCache) : State :=
  match sd with
  | Remote => setRemote s c
  | Local => setLocal s c
  end.

(** A [*cache.CacheNode]: the node lives in the cache, the pointer names it. *)
Record NodeRef : Type := mkNodeRef {
  nodeSide : Side;
  nodeKey : string
}.

(** A computation on the state.  [None]: the call does not return (it waits
    on a pending node that nobody completes). *)
Definition M (A : Type) : Type := State → option (A * State).

Definition ret {A} (a : A) : M A := fun s => Some (a, s).

Definition bind {A B} (m : M A) (k : A → M B) : M B :=
  fun s => match m s with
           | Some (a, s') => k a s'
           | None => None
           end.

Definition blocked {A} : M A := fun _ => None.

Declare Scope dns_scope.
Delimit Scope dns_scope with dns.
Notation "'let*' x ':=' m 'in' k" := (bind m (fun x => k))
  (at level 10, x pattern, m at level 100, k at level 200) : dns_scope.
Open Scope dns_scope.

Definition settledState (s : State) : Prop :=
  (∀ c, dnsRemoteCache s = Some c → Cache.settled c) ∧
  (∀ c, dnsLocalCache s = Some c → Cache.settled c).

(** ** [server/protocols/et/cmd/dns.go] *)

Section DNS.

(** [comm.HostsCache] *)
Variable HostsCache : gmap string string.
(** [comm.DefaultArg.ProxyStatus] *)
Variable ProxyStatus : ProxyStatusT.
(** [d.Name()], that is [comm.FormatEtType(d.DNSType)] *)
Variable Name : string.
(** [d.DNSResolver]: the answer may depend on what happened before. *)
Variable DNSResolver : list event → string → string * option error.
(** [comm.SendQueryReq] *)
Variable SendQueryReq : list event → string → string * option error.
(** [net.ParseIP(s) != nil] *)
Variable ParseIP : string → bool.
(** the country the location sub-protocol finds for an IP *)
Variable location_of : list event → string → string.
(** [checkProxyByLocation] *)
Variable checkProxyByLocation : string → bool.
(** [tunnel.Tunnel.WriteLeftStr] *)
Variable WriteLeftStr : list event → string → option error.

Definition look4Hosts (domain : string) : string * bool * option error :=
  match HostsCache !! domain with
  | None => ("", false, None)
  | Some ip =>
      if String.eqb ip "::" then (ip, true, Some ErrADHostsFound)
      else (ip, true, None)
  end.

(** *** The cache nodes, through their pointers *)

(** The cache a nil pointer is replaced with on first use is empty. *)
Definition cacheOrNew (sd : Side) (s : State) : TextCache :=
  match cacheOf sd s with
  | Some c => c
  | None => ∅
  end.

Definition getCacheNode (sd : Side) (domain : string) : M (NodeRef * bool) :=
  fun s =>
    let '(c, loaded) := Cache.Get (cacheOrNew sd s) domain in
    Some ((mkNodeRef sd domain, loaded), setCache sd s c).

Definition getCacheNodeOfRemote (domain : string) : M (NodeRef * bool) :=
  getCacheNode Remote domain.

Definition getCacheNodeOfLocal (domain : string) : M (NodeRef * bool) :=
  getCacheNode Local domain.

(** [node.Wait()]: the value of a ready node; on a pending node the call
    waits for its creator; a node that was removed has failed. *)
Definition Wait (n : NodeRef) : M (string * option error) :=
  fun s =>
    match cacheOrNew (nodeSide n) s !! nodeKey n with
    | Some (Ready text) => ret (text, None) s
    | Some Pending => blocked s
    | None => ret ("", Some ErrNodeFailed) s
    end.

Definition Update (n : NodeRef) (text : string) : M unit :=
  fun s =>
    Some (tt, setCache (nodeSide n) s
                (Cache.Update (cacheOrNew (nodeSide n) s) (nodeKey n) text)).

Definition Destroy (n : NodeRef) : M unit :=
  fun s =>
    Some (tt, setCache (nodeSide n) s
                (Cache.Destroy (cacheOrNew (nodeSide n) s) (nodeKey n))).

(** *** The calls that leave the process *)

Definition callDNSResolver (domain : string) : M (string * option error) :=
  fun s => Some (DNSResolver (history s) domain,
                 record s (CallDNSResolver domain)).

(** [sendQuery] (package [cmd]): [req = s.Name() + " " + req] *)
Definition sendQuery (req : string) : M (string * option error) :=
  fun s =>
    let req := Name +:+ " " +:+ req in
    Some (SendQueryReq (history s) req, record s (CallSendQueryReq req)).

(** Modelled from the spec: the LOCATION sender of [comm.SubSenders] is not
    part of the sources.  Section 4.7: [location_of(ip)] gives a country
    code; the call stores it in [e.Location].  [resolvDNSByLocation] drops
    the error the call returns. *)
Definition LocationSend (e : NetArg) : M NetArg :=
  fun s => Some (setLocation e (location_of (history s) (IP e)),
                 record s (CallLocation (IP e))).

Definition writeLeftStr (str : string) : M (option error) :=
  fun s => Some (WriteLeftStr (history s) str, record s (CallWriteLeftStr str)).

(** *** Resolution through the relay *)

Definition _resolvDNSByProxy (e : NetArg) : M (NetArg * option error) :=
  let* (ip, _) := sendQuery (Domain e) in
  let e := setIP e ip in
  if ParseIP ip then ret (e, None) else ret (e, Some ErrInvalidReply).

Definition resolvDNSByProxy (e : NetArg) : M (NetArg * option error) :=
  let* (node, loaded) := getCacheNodeOfRemote (Domain e) in
  if (loaded : bool) then
    let* (ip, err) := Wait node in
    ret (setIP e ip, err)
  else
    let* (e, err) := _resolvDNSByProxy e in
    match err with
    | Some _ => let* _ := Destroy node in ret (e, err)
    | None => let* _ := Update node (IP e) in ret (e, err)
    end.

(** *** Local resolution *)

Definition _resolvDNSByLocal (e : NetArg) : M (NetArg * option error) :=
  let* (ip, err) := callDNSResolver (Domain e) in
  ret (setIP e ip, err).

Definition resolvDNSByLocal (e : NetArg) : M (NetArg * option error) :=
  let* (node, loaded) := getCacheNodeOfLocal (Domain e) in
  if (loaded : bool) then
    let* (ip, err) := Wait node in
    ret (setIP e ip, err)
  else
    let* (e, err) := _resolvDNSByLocal e in
    match err with
    | Some _ => let* _ := Destroy node in ret (e, err)
    | None => let* _ := Update node (IP e) in ret (e, err)
    end.

(** *** The senders *)

Definition resolvDNSByLocation (e : NetArg) : M (NetArg * option error) :=
  let* (e, _) := resolvDNSByLocal e in
  let* e := LocationSend e in
  if negb (checkProxyByLocation (Location e)) then ret (e, None)
  else
    let ne := newNetArg (Domain e) in
    let* (ne, err) := resolvDNSByProxy ne in
    ret (setIP e (IP ne), err).

Definition proxySend (e : NetArg) : M (NetArg * option error) :=
  resolvDNSByProxy e.

Definition smartSend (e : NetArg) : M (NetArg * option error) :=
  match DomainType e with
  | DirectDomain => resolvDNSByLocal e
  | ProxyDomain => resolvDNSByProxy e
  | _ => resolvDNSByLocation e
  end.

Definition Send (e : NetArg) : M (NetArg * option error) :=
  let '(ip, ok, err) := look4Hosts (Domain e) in
  match err with
  | Some _ => ret (e, err)
  | None =>
      if (ok : bool) then ret (setIP e ip, err)
      else
        match ProxyStatus with
        | ProxySMART => smartSend e
        | ProxyENABLE => proxySend e
        | _ => ret (e, Some ErrInvalidProxyStatus)
        end
  end.

Definition Handle (req : string) : M (option error) :=
  let reqs := Split " " req in
  if Nat.ltb (length reqs) 2 then ret (Some ErrReqTooShort)
  else
    let e := newNetArg (nth 1 reqs "") in
    let* (e, err) := resolvDNSByLocal e in
    match err with
    | Some _ => ret err
    | None => writeLeftStr (IP e)
    end.

End DNS.

(** ** What one resolution leaves behind

    Used to state the properties: the cache after the creator of a node got
    [text] and [err] (a failed node is gone, a published one holds the
    text), and the error [_resolvDNSByProxy] gives for a reply. *)

Definition cacheAfter (c : TextCache) (key text : string)
    (err : option error) : TextCache :=
  match err with
  | Some _ => c
  | None => <[key := Ready text]> c
  end.

Definition replyErr (ParseIP : string → bool) (reply : string) : option error :=
  if ParseIP reply then None else Some ErrInvalidReply.

(** ** The two paths, by what they ask and what they keep

    What one resolution does from a state with no resolution in flight
    (section 4.6 of the specification: "consult the cache; the creator calls
    the OS resolver, or issues a DNS sub-command to the relay; publish or
    fail accordingly").  [ip] and [err] are the IP and the error the caller
    gets, [s'] is the state afterwards.

    Local path: the other cache is kept, and either the local cache holds
    the IP of the domain, which is the answer, and nothing is asked; or it
    holds no node for the domain, the resolver is asked once, its answer is
    the IP and the error, and the IP is cached when there is no error. *)
Definition localPath (DNSResolver : list event → string → string * option error)
    (s : State) (domain ip : string) (err : option error) (s' : State)
  : Prop :=
  dnsRemoteCache s' = dnsRemoteCache s ∧
  ((cacheOrNew Local s !! domain = Some (Ready ip) ∧
    err = None ∧
    cacheOrNew Local s' = cacheOrNew Local s ∧
    history s' = history s) ∨
   (cacheOrNew Local s !! domain = None ∧
    DNSResolver (history s) domain = (ip, err) ∧
    cacheOrNew Local s' = cacheAfter (cacheOrNew Local s) domain ip err ∧
    history s' = history s ++ [CallDNSResolver domain])).

(** Remote path: the same with the remote cache and one query to the
    relay; the IP is the text of the reply, and the error is the
    invalid-reply error exactly when [net.ParseIP] rejects that text. *)
Definition remotePath (Name : string)
    (SendQueryReq : list event → string → string * option error)
    (ParseIP : string → bool)
    (s : State) (domain ip : string) (err : option error) (s' : State)
  : Prop :=
  dnsLocalCache s' = dnsLocalCache s ∧
  ((cacheOrNew Remote s !! domain = Some (Ready ip) ∧
    err = None ∧
    cacheOrNew Remote s' = cacheOrNew Remote s ∧
    history s' = history s) ∨
   (cacheOrNew Remote s !! domain = None ∧
    ip = (SendQueryReq (history s) (Name +:+ " " +:+ domain)).1 ∧
    err = replyErr ParseIP ip ∧
    cacheOrNew Remote s' = cacheAfter (cacheOrNew Remote s) domain ip err ∧
    history s' = history s ++ [CallSendQueryReq (Name +:+ " " +:+ domain)])).


(** ** Callers that run at the same time

    Modelled from the spec: the cache package
    [github.com/eaglexiang/go/cache/text] is not part of the sources.
    Section 4.5: [get_or_create] inserts a PENDING node atomically; [wait]
    blocks until the state of the node is terminal; [publish] makes the
    node READY; [fail] makes it FAILED, wakes the waiters with an error and
    evicts the entry; "exactly one caller (the creator) may publish/fail;
    all others only wait".  A caller holds the node it got, not its key, so
    a node is known by its number.  Between two steps of one caller any
    other caller may move; the steps are the calls at which
    [resolvDNSByLocal] and [resolvDNSByProxy] touch the cache or leave the
    process. *)

Module Callers.

(** A node of the cache: PENDING, READY with its value, or FAILED. *)
Inductive NodeState : Type :=
| NPending
| NReady (text : string)
| NFailed.

(** The two caches of [DNS], by name of the node a domain has; the nodes;
    and the calls that left the process so far. *)
Record World : Type := mkWorld {
  remoteNodes : gmap string nat;
  localNodes : gmap string nat;
  heap : list NodeState;
  calls : list event
}.

Definition emptyWorld : World := mkWorld ∅ ∅ [] [].

Definition nodesOf (sd : Side) (w : World) : gmap string nat :=
  match sd with
  | Remote => remoteNodes w
  | Local => localNodes w
  end.

Definition setNodes (sd : Side) (w : World) (m : gmap string nat) : World :=
  match sd with
  | Remote => mkWorld m (localNodes w) (heap w) (calls w)
  | Local => mkWorld (remoteNodes w) m (heap w) (calls w)
  end.

Definition setHeap (w : World) (h : list NodeState) : World :=
  mkWorld (remoteNodes w) (localNodes w) h (calls w).

Definition setCalls (w : World) (evs : list event) : World :=
  mkWorld (remoteNodes w) (localNodes w) (heap w) evs.

(** Where a caller of [resolvDNSByLocal] or [resolvDNSByProxy] stands:
    at the call of [getCacheNodeOf...]; with a new node [n], at the call of
    [_resolvDNSBy...]; with the result of that call, at [node.Update] or
    [node.Destroy]; with a node that was there, at [node.Wait]; or back at
    its own caller with the NetArg and the error. *)
Inductive Caller : Type :=
| Called (e : NetArg)
| Creating (e : NetArg) (n : nat)
| Answered (e : NetArg) (err : option error) (n : nat)
| Waiting (e : NetArg) (n : nat)
| Returned (e : NetArg) (err : option error).

(** A resolution is in flight from the creation of its node to the call
    of [Update] or [Destroy]. *)
#[global] Instance NodeState_eq_dec : EqDecision NodeState.
Proof. solve_decision. Defined.

(** The resolutions that failed so far *)
Definition failures (w : World) : nat :=
  length (filter (fun st => st = NFailed) (heap w)).

Definition inFlight (c : Caller) : bool :=
  match c with
  | Creating _ _ | Answered _ _ _ => true
  | _ => false
  end.

Section Path.

(** The path all callers take, and the world around them. *)
Variable sd : Side.
Variable Name : string.
Variable DNSResolver : list event → string → string * option error.
Variable SendQueryReq : list event → string → string * option error.
Variable ParseIP : string → bool.

(** [_resolvDNSByLocal] or [_resolvDNSByProxy], as the path has it *)
Definition resolveAlone (e : NetArg) : M (NetArg * option error) :=
  match sd with
  | Local => _resolvDNSByLocal DNSResolver e
  | Remote => _resolvDNSByProxy Name SendQueryReq ParseIP e
  end.

(** One step of one caller; [None] when it cannot move (it waits on a
    pending node, or it has returned).  [get_or_create] is atomic; a failed
    node is evicted from the cache; a waiter on a failed node gets the
    failure of the node, as [Wait] gives it in the functions above. *)
Definition stepCaller (w : World) (c : Caller) : option (World * Caller) :=
  match c with
  | Called e =>
      match nodesOf sd w !! Domain e with
      | Some n => Some (w, Waiting e n)
      | None =>
          let n := length (heap w) in
          Some (setNodes sd (setHeap w (heap w ++ [NPending]))
                         (<[Domain e := n]> (nodesOf sd w)),
                Creating e n)
      end
  | Creating e n =>
      match resolveAlone e (mkState None None (calls w)) with
      | Some ((e, err), s) => Some (setCalls w (history s), Answered e err n)
      | None => None
      end
  | Answered e err n =>
      match err with
      | Some _ =>
          Some (setNodes sd (setHeap w (<[n := NFailed]> (heap w)))
                         (delete (Domain e) (nodesOf sd w)),
                Returned e err)
      | None =>
          Some (setHeap w (<[n := NReady (IP e)]> (heap w)), Returned e err)
      end
  | Waiting e n =>
      match heap w !! n with
      | Some (NReady text) => Some (w, Returned (setIP e text) None)
      | Some NFailed => Some (w, Returned (setIP e "") (Some ErrNodeFailed))
      | _ => None
      end
  | Returned _ _ => None
  end.

(** Caller [i] moves, if it can. *)
Definition step (i : nat) (cf : World * list Caller) : World * list Caller :=
  match cf.2 !! i with
  | Some c =>
      match stepCaller cf.1 c with
      | Some (w, c') => (w, <[i := c']> cf.2)
      | None => cf
      end
  | None => cf
  end.

(** An interleaving of the callers is the list of who moves next. *)
Definition run (schedule : list nat) (cf : World * list Caller)
  : World * list Caller :=
  fold_left (fun cf i => step i cf) schedule cf.

(** All callers have been called, nothing else has happened. *)
Definition start (es : list NetArg) : World * list Caller :=
  (emptyWorld, map Called es).

(** The call that leaves the process on this path *)
Definition theCall (domain : string) : event :=
  match sd with
  | Local => CallDNSResolver domain
  | Remote => CallSendQueryReq (Name +:+ " " +:+ domain)
  end.

Definition callerArg (c : Caller) : NetArg :=
  match c with
  | Called e | Creating e _ | Answered e _ _ | Waiting e _ | Returned e _ => e
  end.

(** C5 in the specification's words: "all N callers observe the same IP or
    the same error", and at most one resolution is in flight, under every
    interleaving. *)
Definition sameResult (cs : list Caller) : Prop :=
  ∀ e1 err1 e2 err2,
    Returned e1 err1 ∈ cs → Returned e2 err2 ∈ cs →
    err1 = err2 ∧ (err1 = None → IP e1 = IP e2).

Definition singleFlight (es : list NetArg) : Prop :=
  ∀ schedule,
    (length (filter (fun c => inFlight c = true)
                    (run schedule (start es)).2) ≤ 1)%nat ∧
    sameResult (run schedule (start es)).2.

(** The nodes a domain had: all failed but the one the cache holds for it,
    which is the last one and has not failed. *)
Definition nodesOk (D : string) (w : World) : Prop :=
  match nodesOf sd w !! D with
  | None => ∀ k st, heap w !! k = Some st → st = NFailed
  | Some n =>
      S n = length (heap w) ∧
      (heap w !! n = Some NPending ∨ ∃ text, heap w !! n = Some (NReady text)) ∧
      ∀ k st, (k < n)%nat → heap w !! k = Some st → st = NFailed
  end.

(** What every interleaving keeps: the callers are about [D]; the nodes
    of [D] are as [nodesOk] says; a caller in flight holds the pending node
    the cache has for [D], and there is one such caller at most; a caller
    that returned without error returned the value of that node; an error
    was returned only after a failure; and every call was made for a node
    of its own. *)
Definition Inv (D : string) (cf : World * list Caller) : Prop :=
  let w := cf.1 in let cs := cf.2 in
  (∀ c, c ∈ cs → Domain (callerArg c) = D) ∧
  nodesOk D w ∧
  (∀ i c, cs !! i = Some c → inFlight c = true →
     ∃ e n, (c = Creating e n ∨ ∃ err, c = Answered e err n) ∧
            nodesOf sd w !! D = Some n ∧ heap w !! n = Some NPending) ∧
  (∀ i j ci cj, cs !! i = Some ci → cs !! j = Some cj →
     inFlight ci = true → inFlight cj = true → i = j) ∧
  (∀ e, Returned e None ∈ cs →
     ∃ n, nodesOf sd w !! D = Some n ∧ heap w !! n = Some (NReady (IP e))) ∧
  (∀ e x, Returned e (Some x) ∈ cs → NFailed ∈ heap w) ∧
  (length (calls w) ≤ length (heap w))%nat ∧
  (∀ i e n, cs !! i = Some (Creating e n) → (length (calls w) < length (heap w))%nat) ∧
  (∀ ev, ev ∈ calls w → ev = theCall D).

End Path.
End Callers.

(** ** [src/eagletunnel/controler.go] *)

Module Controler.

Definition TAB : ascii := "009"%char.
Definition LF : ascii := "010"%char.
Definition CR : ascii := "013"%char.

(** A file as [readLines] meets it: [os.Open] may fail; otherwise the
    scanner hands over the text of one line after the other
    ([scanner.Text()], without the end of line) and may end with an error
    ([scanner.Err()]). *)
Record File : Type := mkFile {
  openErr : option error;
  scanned : list string;
  scanErr : option error
}.

Section Reading.

(** [strings.Map(unicode.ToLower, s)], see [GoStrings.ToLower] *)
Variable MapToLower : string → string.

(** The body of the loop of [readLines] for one scanned line: the line it
    appends, if any. *)
Definition readLine (line : string) : option string :=
  let items := Split "#" line in
  let line := TrimSpace (nth 0 items "") in
  if String.eqb line "" then None
  else
    let line := Replace TAB " " line in
    let line := ToLower MapToLower line in
    Some line.

Fixpoint readLines_loop (texts : list string) (lines : list string)
  : list string :=
  match texts with
  | [] => lines
  | text :: rest =>
      match readLine text with
      | Some line => readLines_loop rest (lines ++ [line])
      | None => readLines_loop rest lines
      end
  end.

Definition readLines (f : File) : list string * option error :=
  match openErr f with
  | Some err => ([], Some err)
  | None => (readLines_loop (scanned f) [], scanErr f)
  end.

End Reading.

(** [value := keyValue[1]; for item in keyValue[2:] { value += "=" + item }] *)
Definition joinValue (keyValue : list string) : string :=
  fold_left (fun value item => value +:+ "=" +:+ item)
            (drop 2 keyValue) (nth 1 keyValue "").

Fixpoint getKeyValues_loop (lines : list string)
    (keyValues : gmap string string) (keys : list string)
  : gmap string string * list string :=
  match lines with
  | [] => (keyValues, keys)
  | line :: rest =>
      let keyValue := Split "=" line in
      if Nat.leb 2 (length keyValue) then
        let value := joinValue keyValue in
        let key := TrimSpace (nth 0 keyValue "") in
        let keys := (keys ++ [key]) in
        let value := TrimSpace value in
        getKeyValues_loop rest (<[key := value]> keyValues) keys
      else getKeyValues_loop rest keyValues keys
  end.

Definition getKeyValues (lines : list string)
  : gmap string string * list string :=
  getKeyValues_loop lines ∅ [].

(** Reading the Go map at [key]: a key the map lacks reads as the empty
    string. *)
Definition mapGet (m : gmap string string) (key : string) : string :=
  match m !! key with
  | Some v => v
  | None => ""
  end.

Definition CRLF : string := String CR (String LF EmptyString).

Definition exportKeyValues (keyValues : gmap string string)
    (keys : list string) : string :=
  fold_left (fun result key =>
               result +:+ key +:+ " = " +:+ mapGet keyValues key +:+ CRLF)
            keys "".

(** The file system as [readHosts] sees it. *)
Record DirEntry : Type := mkDirEntry {
  entryName : string;
  entryIsDir : bool
}.

Section Files.

Variable MapToLower : string → string.
(** [ioutil.ReadDir]: [None] when it fails *)
Variable ReadDir : string → option (list DirEntry).
(** the file behind a path *)
Variable fileAt : string → File.

Definition getHostsList (hostsDir : string) : list string :=
  match ReadDir hostsDir with
  | None => []
  | Some files =>
      fold_left (fun hosts file =>
                   if negb (entryIsDir file)
                   then (hosts ++ [entryName file])
                   else hosts)
                files []
  end.

(** The second loop of [readHosts], one line. *)
Definition addHost (hostsCache : gmap string string) (host : string)
  : gmap string string :=
  let items := Split " " host in
  if Nat.leb 2 (length items) then
    let domain := TrimSpace (nth 0 items "") in
    let ip := TrimSpace (nth 1 items "") in
    if negb (String.eqb domain "") && negb (String.eqb ip "")
    then <[domain := ip]> hostsCache
    else hostsCache
  else hostsCache.

(** [readHosts]; [hostsCache] is the package variable it fills. *)
Definition readHosts (configDir : string)
    (hostsCache : gmap string string) : gmap string string :=
  let hostsDir := configDir +:+ "/hosts" in
  let hostsFiles := getHostsList hostsDir in
  let hosts :=
    fold_left (fun hosts file =>
                 let '(newHosts, err) :=
                   readLines MapToLower
                             (fileAt (hostsDir +:+ "/" +:+ file)) in
                 match err with
                 | None => (hosts ++ newHosts)
                 | Some _ => hosts
                 end)
              hostsFiles [] in
  fold_left addHost hosts hostsCache.

(** The lines the first loop of [readHosts] collects. *)
Definition hostLines (configDir : string) : list string :=
  fold_left (fun hosts file =>
               let '(newHosts, err) :=
                 readLines MapToLower
                   (fileAt ((configDir +:+ "/hosts") +:+ "/" +:+ file)) in
               match err with
               | None => hosts ++ newHosts
               | Some _ => hosts
               end)
            (getHostsList (configDir +:+ "/hosts")) [].

(** A hosts file that can be read lists the line [domain ip], the two
    words with one space or one tab between them. *)
Definition listed (configDir domain ip : string) : Prop :=
  ∃ entries entry sepc,
    ReadDir (configDir +:+ "/hosts") = Some entries ∧
    entry ∈ entries ∧
    entryIsDir entry = false ∧
    (sepc = " "%char ∨ sepc = TAB) ∧
    let f := fileAt ((configDir +:+ "/hosts") +:+ "/" +:+ entryName entry) in
    openErr f = None ∧ scanErr f = None ∧
    (domain +:+ String sepc ip) ∈ scanned f.

End Files.

(** What the loop of [getKeyValues] does with one line: the key and the
    value it stores, if any. *)
Definition parseLine (line : string) : option (string * string) :=
  let keyValue := Split "=" line in
  if Nat.leb 2 (length keyValue)
  then Some (TrimSpace (nth 0 keyValue ""), TrimSpace (joinValue keyValue))
  else None.

(** The map after the loop of [getKeyValues] took one more line, and the
    key that line added. *)
Definition store (m : gmap string string) (line : string)
  : gmap string string :=
  match parseLine line with
  | Some (key, value) => <[key := value]> m
  | None => m
  end.

Definition keyOf (line : string) : option string := fst <$> parseLine line.

(** What [getKeyValues] stores from lines without a line feed: a key is
    trimmed and has neither [=] nor a line feed in it; a value is trimmed
    and has no line feed in it. *)
Definition goodKey (key : string) : Prop :=
  TrimSpace key = key ∧ ("="%char ∉ bytes key) ∧ LF ∉ bytes key.

Definition goodValue (value : string) : Prop :=
  TrimSpace value = value ∧ LF ∉ bytes value.

Definition goodEntry (key value : string) : Prop :=
  goodKey key ∧ goodValue value.

(** The line [exportKeyValues] writes for a key, without its end. *)
Definition exportLine (keyValues : gmap string string) (key : string)
  : string :=
  key +:+ " = " +:+ mapGet keyValues key.

(** The lines of a text: each ends at a line feed, a carriage return
    before the line feed is not part of the line, and the text after the
    last line feed is a line when it is not empty. *)
Fixpoint dropCR (s : string) : string :=
  match s with
  | EmptyString => EmptyString
  | String c EmptyString => if Ascii.eqb c CR then EmptyString else s
  | String c s' => String c (dropCR s')
  end.

Fixpoint dropLastEmpty (ps : list string) : list string :=
  match ps with
  | [] => []
  | [p] => if String.eqb p "" then [] else [p]
  | p :: ps' => p :: dropLastEmpty ps'
  end.

Definition linesOf (text : string) : list string :=
  map dropCR (dropLastEmpty (Split LF text)).

End Controler.

(** ** The hosts overlay, looked up

    The specification's words (section 4.4): "domains are matched
    case-insensitively".  For every domain listed in a hosts file, looking
    up any variant of it that differs in the case of its letters only gives
    the same stored IP. *)
Definition caseInsensitive (MapToLower : string → string)
    (ReadDir : string → option (list Controler.DirEntry))
    (fileAt : string → Controler.File) (configDir : string) : Prop :=
  ∀ domain ip,
    Controler.listed ReadDir fileAt configDir domain ip →
    ∃ stored,
      ∀ variant,
        ToLower MapToLower variant = ToLower MapToLower domain →
        ∃ err,
          look4Hosts (Controler.readHosts MapToLower ReadDir fileAt
                                          configDir ∅) variant
            = (stored, true, err).

(** ** A small world to run the definitions in *)

Module Demo.

(** One ad-blocked domain and one pinned domain. *)
Definition hosts : gmap string string :=
  <["ads.example" := "::"]> (<["intra.example" := "10.0.0.7"]> ∅).

Definition noHost : error := ErrExternal "no such host".

Definition resolver (_ : list event) (domain : string)
  : string * option error :=
  if String.eqb domain "example.org" then ("93.0.0.1", None)
  else if String.eqb domain "example.cn" then ("36.0.0.1", None)
  else ("", Some noHost).

Definition relay (_ : list event) (req : string) : string * option error :=
  if String.eqb req "DNS example.org" then ("151.101.1.1", None)
  else if String.eqb req "DNS down.example" then ("151.101.1.2", None)
  else ("not found", None).

Definition parseIP (s : string) : bool :=
  bool_decide (s ∈ ["93.0.0.1"; "36.0.0.1"; "151.101.1.1"; "151.101.1.2";
                    "10.0.0.7"; "::"]).

Definition location (_ : list event) (ip : string) : string :=
  if String.eqb ip "93.0.0.1" then "US"
  else if String.eqb ip "36.0.0.1" then "CN"
  else "".

(** The countries whose addresses go through the relay. *)
Definition needsProxy (loc : string) : bool := String.eqb loc "US".

Definition write (_ : list event) (_ : string) : option error := None.

Definition send (status : ProxyStatusT) :=
  Send hosts status "DNS" resolver relay parseIP location needsProxy.

Definition handle := Handle resolver write.

Definition uncertain (d : string) : NetArg := newNetArg d.

(** The text of a hosts file and the file system around it. *)
Definition adsFile : Controler.File :=
  Controler.mkFile None
    ["# blocked"; "Ads.Example ::";
     "Example.COM" +:+ String Controler.TAB "1.2.3.4"]
    None.

Definition readDir (dir : string) : option (list Controler.DirEntry) :=
  if String.eqb dir "/etc/et/hosts"
  then Some [Controler.mkDirEntry "ads" false; Controler.mkDirEntry "old" true]
  else None.

Definition fileAt (path : string) : Controler.File :=
  if String.eqb path "/etc/et/hosts/ads" then adsFile
  else Controler.mkFile (Some (ErrExternal "no such file")) [] None.

(** A lowering that knows the letters of ASCII only.  The files of this
    world have no byte from 0x80 on, so it is never asked. *)
Definition mapToLower (s : string) : string := lowerBytes s.

Definition overlay : gmap string string :=
  Controler.readHosts mapToLower readDir fileAt "/etc/et" ∅.


Definition configLines : list string :=
  ["listen = 0.0.0.0:8080"; "relayer=1.2.3.4:8080"; "user = me:a=b";
   "proxy-status = smart"; "no key here"; "listen= 127.0.0.1:8080"].

End Demo.

(** ** [src/eagletunnel/controler.go]: the settings *)

Module Config.

Import Controler.

(** *** [strconv.ParseUint(s, 16, 8)] *)

(** The errors of [strconv]: [*NumError] with [ErrSyntax] or [ErrRange],
    for the text [num]. *)
Inductive NumError : Type :=
| ErrSyntax (num : string)
| ErrRange (num : string).

(** The value of a digit: [0]-[9], and [a]-[z] in either case, found with
    [lower(c) = c | ('x' - 'X')]. *)
Definition digitVal (c : ascii) : option nat :=
  let n := nat_of_ascii c in
  if Nat.leb 48 n && Nat.leb n 57 then Some (n - 48)
  else
    let l := Nat.lor n 32 in
    if Nat.leb 97 l && Nat.leb l 122 then Some (l - 97 + 10) else None.

(** The loop of [ParseUint] over the bytes of [s0], for a base from 2 to 36
    and the largest value [maxVal] of the bit size.  (With 8 bits the
    value never reaches the cutoff of the 64-bit multiplication.) *)
Fixpoint parseUintLoop (base maxVal : nat) (s0 : string) (cs : list ascii)
    (n : nat) : nat * option NumError :=
  match cs with
  | [] => (n, None)
  | c :: rest =>
      match digitVal c with
      | None => (0, Some (ErrSyntax s0))
      | Some d =>
          if Nat.leb base d then (0, Some (ErrSyntax s0))
          else
            let n1 := n * base + d in
            if Nat.ltb maxVal n1 then (maxVal, Some (ErrRange s0))
            else parseUintLoop base maxVal s0 rest n1
      end
  end.

Definition ParseUint_16_8 (s : string) : nat * option NumError :=
  if String.eqb s "" then (0, Some (ErrSyntax s))
  else parseUintLoop 16 255 s (bytes s) 0.

(** *** The package variables *)

(** An error [Init] may return: one of a file or of [ParseEagleUser], or
    one of [strconv]. *)
Inductive initError : Type :=
| ErrOf (e : error)
| ErrNum (e : NumError).

Definition errOf (err : option error) : option initError := ErrOf <$> err.

(** What ends a call: it returns, or the program panics. *)
Inductive Outcome (A : Type) : Type :=
| Returns (a : A)
| Panics.
Arguments Returns {A} a.
Arguments Panics {A}.

Section Settings.

(** [EagleUser] and [ParseEagleUser] are declared in another file of the
    package: the type, its field [ID], and the parser with its two
    results (a pointer, [None] when nil, and an error). *)
Variable EagleUser : Type.
Variable userID : EagleUser → string.
Variable ParseEagleUser : string → option EagleUser * option error.
(** [strings.Map(unicode.ToLower, s)], see [GoStrings.ToLower] *)
Variable MapToLower : string → string.
(** [filepath.Dir] *)
Variable Dir : string → string.
(** [ioutil.ReadDir] and the file behind a path *)
Variable ReadDir : string → option (list DirEntry).
Variable fileAt : string → File.

(** The variables of the package that [Init] and the functions it calls
    read or write.  [ConfigKeyValues] is a map that may be nil. *)
Record Globals : Type := mkGlobals {
  ConfigPath : string;
  ConfigDir : string;
  ConfigKeyValues : option (gmap string string);
  EnableUserCheck : bool;
  EnableSOCKS5 : bool;
  EnableHTTP : bool;
  EnableET : bool;
  ProxyStatus : ProxyStatusT;
  Users : gmap string EagleUser;
  LocalUser : option EagleUser;
  EncryptKey : nat;
  LocalAddr : string;
  LocalPort : string;
  RemoteAddr : string;
  RemotePort : string;
  WhitelistDomains : list string;
  hostsCache : gmap string string
}.

(** Assignments to one variable (two for an address and its port). *)
Definition setConfigPath (g : Globals) (v : string) : Globals :=
  match g with
  | mkGlobals path dir keyValues userCheck socks http et status users
      localUser key localAddr localPort remoteAddr remotePort whitelist
      hosts =>
      mkGlobals v dir keyValues userCheck socks http et status users
      localUser key localAddr localPort remoteAddr remotePort whitelist
      hosts
  end.

Definition setConfigDir (g : Globals) (v : string) : Globals :=
  match g with
  | mkGlobals path dir keyValues userCheck socks http et status users
      localUser key localAddr localPort remoteAddr remotePort whitelist
      hosts =>
      mkGlobals path v keyValues userCheck socks http et status users
      localUser key localAddr localPort remoteAddr remotePort whitelist
      hosts
  end.

Definition setEnableUserCheck (g : Globals) (v : bool) : Globals :=
  match g with
  | mkGlobals path dir keyValues userCheck socks http et status users
      localUser key localAddr localPort remoteAddr remotePort whitelist
      hosts =>
      mkGlobals path dir keyValues v socks http et status users localUser
      key localAddr localPort remoteAddr remotePort whitelist hosts
  end.

Definition setEnableSOCKS5 (g : Globals) (v : bool) : Globals :=
  match g with
  | mkGlobals path dir keyValues userCheck socks http et status users
      localUser key localAddr localPort remoteAddr remotePort whitelist
      hosts =>
      mkGlobals path dir keyValues userCheck v http et status users
      localUser key localAddr localPort remoteAddr remotePort whitelist
      hosts
  end.

Definition setEnableHTTP (g : Globals) (v : bool) : Globals :=
  match g with
  | mkGlobals path dir keyValues userCheck socks http et status users
      localUser key localAddr localPort remoteAddr remotePort whitelist
      hosts =>
      mkGlobals path dir keyValues userCheck socks v et status users
      localUser key localAddr localPort remoteAddr remotePort whitelist
      hosts
  end.

Definition setEnableET (g : Globals) (v : bool) : Globals :=
  match g with
  | mkGlobals path dir keyValues userCheck socks http et status users
      localUser key localAddr localPort remoteAddr remotePort whitelist
      hosts =>
      mkGlobals path dir keyValues userCheck socks http v status users
      localUser key localAddr localPort remoteAddr remotePort whitelist
      hosts
  end.

Definition setProxyStatus (g : Globals) (v : ProxyStatusT) : Globals :=
  match g with
  | mkGlobals path dir keyValues userCheck socks http et status users
      localUser key localAddr localPort remoteAddr remotePort whitelist
      hosts =>
      mkGlobals path dir keyValues userCheck socks http et v users localUser
      key localAddr localPort remoteAddr remotePort whitelist hosts
  end.

Definition setUsers (g : Globals) (v : gmap string EagleUser) : Globals :=
  match g with
  | mkGlobals path dir keyValues userCheck socks http et status users
      localUser key localAddr localPort remoteAddr remotePort whitelist
      hosts =>
      mkGlobals path dir keyValues userCheck socks http et status v
      localUser key localAddr localPort remoteAddr remotePort whitelist
      hosts
  end.

Definition setLocalUser (g : Globals) (v : option EagleUser) : Globals :=
  match g with
  | mkGlobals path dir keyValues userCheck socks http et status users
      localUser key localAddr localPort remoteAddr remotePort whitelist
      hosts =>
      mkGlobals path dir keyValues userCheck socks http et status users v
      key localAddr localPort remoteAddr remotePort whitelist hosts
  end.

Definition setEncryptKey (g : Globals) (v : nat) : Globals :=
  match g with
  | mkGlobals path dir keyValues userCheck socks http et status users
      localUser key localAddr localPort remoteAddr remotePort whitelist
      hosts =>
      mkGlobals path dir keyValues userCheck socks http et status users
      localUser v localAddr localPort remoteAddr remotePort whitelist hosts
  end.

Definition setLocal (g : Globals) (addr : string) (port : string) : Globals :=
  match g with
  | mkGlobals path dir keyValues userCheck socks http et status users
      localUser key localAddr localPort remoteAddr remotePort whitelist
      hosts =>
      mkGlobals path dir keyValues userCheck socks http et status users
      localUser key addr port remoteAddr remotePort whitelist hosts
  end.

Definition setRemote (g : Globals) (addr : string) (port : string) : Globals :=
  match g with
  | mkGlobals path dir keyValues userCheck socks http et status users
      localUser key localAddr localPort remoteAddr remotePort whitelist
      hosts =>
      mkGlobals path dir keyValues userCheck socks http et status users
      localUser key localAddr localPort addr port whitelist hosts
  end.

Definition setWhitelistDomains (g : Globals) (v : list string) : Globals :=
  match g with
  | mkGlobals path dir keyValues userCheck socks http et status users
      localUser key localAddr localPort remoteAddr remotePort whitelist
      hosts =>
      mkGlobals path dir keyValues userCheck socks http et status users
      localUser key localAddr localPort remoteAddr remotePort v hosts
  end.

Definition setHostsCache (g : Globals) (v : gmap string string) : Globals :=
  match g with
  | mkGlobals path dir keyValues userCheck socks http et status users
      localUser key localAddr localPort remoteAddr remotePort whitelist
      hosts =>
      mkGlobals path dir keyValues userCheck socks http et status users
      localUser key localAddr localPort remoteAddr remotePort whitelist v
  end.

(** *** [SetRelayer] and [SetListen] *)

Definition SetRelayer (remoteIpe : string) (g : Globals) : Globals :=
  let items := Split ":" remoteIpe in
  let addr := TrimSpace (nth 0 items "") in
  if Nat.leb 2 (length items)
  then setRemote g addr (TrimSpace (nth 1 items ""))
  else setRemote g addr "8080".

Definition SetListen (localIpe : string) (g : Globals) : Globals :=
  let localIpe :=
    if String.eqb localIpe "" then "0.0.0.0:8080" else localIpe in
  let items := Split ":" localIpe in
  let addr := nth 0 items "" in
  if Nat.leb 2 (length items)
  then setLocal g addr (nth 1 items "")
  else setLocal g addr "8080".

(** *** [importUsers] *)

Fixpoint importUsers_loop (userLines : list string) (g : Globals)
  : Outcome (Globals * option error) :=
  match userLines with
  | [] => Returns (g, None)
  | line :: rest =>
      match ParseEagleUser line with
      | (_, Some err) => Returns (g, Some err)
      | (Some user, None) =>
          importUsers_loop rest (setUsers g (<[userID user := user]> (Users g)))
      | (None, None) => Panics           (* [user.ID] of a nil pointer *)
      end
  end.

Definition importUsers (usersPath : string) (g : Globals)
  : Outcome (Globals * option error) :=
  let g := setUsers g ∅ in
  let '(userLines, err) := readLines MapToLower (fileAt usersPath) in
  match err with
  | Some _ => Returns (g, err)
  | None => importUsers_loop userLines g
  end.

(** *** [Init] *)

(** [Init] from the call of [SetListen] on, in the order of the source:
    the listen address; the three protocol switches; the relayer; the
    proxy status; the whitelist and the hosts.  [keyValues] is the local
    variable [ConfigKeyValues] of [Init]. *)
Definition Init_listen (keyValues : gmap string string) (g : Globals)
  : Globals :=
  let localIpe :=
    match keyValues !! "listen" with
    | Some _localIpe => _localIpe
    | None => ""
    end in
  SetListen localIpe g.

Definition Init_protocols (keyValues : gmap string string) (g : Globals)
  : Globals :=
  let g :=
    match keyValues !! "socks" with
    | Some socks => setEnableSOCKS5 g (String.eqb socks "on")
    | None => g
    end in
  let g :=
    match keyValues !! "http" with
    | Some http => setEnableHTTP g (String.eqb http "on")
    | None => g
    end in
  match keyValues !! "et" with
  | Some et => setEnableET g (String.eqb et "on")
  | None => g
  end.

Definition Init_relayer (keyValues : gmap string string) (g : Globals)
  : Globals :=
  if EnableSOCKS5 g || EnableHTTP g then
    match keyValues !! "relayer" with
    | Some remoteIpe => SetRelayer remoteIpe g
    | None => g
    end
  else g.

Definition Init_proxyStatus (keyValues : gmap string string) (g : Globals)
  : Globals :=
  let g := setProxyStatus g ProxyENABLE in
  match keyValues !! "proxy-status" with
  | Some status =>
      if String.eqb status "enable" then setProxyStatus g ProxyENABLE
      else if String.eqb status "smart" then setProxyStatus g ProxySMART
      else setProxyStatus g ProxyENABLE
  | None => g
  end.

Definition Init_files (g : Globals) : Globals :=
  let whiteDomainsPath := ConfigDir g +:+ "/whitelist_domain.txt" in
  let g :=
    setWhitelistDomains g
      (fst (readLines MapToLower (fileAt whiteDomainsPath))) in
  setHostsCache g
    (readHosts MapToLower ReadDir fileAt (ConfigDir g) (hostsCache g)).

(** What follows the data key; [err] is the error [Init] holds at that
    point and returns at its end. *)
Definition Init_rest (keyValues : gmap string string)
    (err : option initError) (g : Globals) : Globals * option initError :=
  let g := Init_listen keyValues g in
  let g := Init_protocols keyValues g in
  let g := Init_relayer keyValues g in
  let g := Init_proxyStatus keyValues g in
  let g := Init_files g in
  (g, err).

(** [Init].  The map of the key values is a variable of its own
    ([ConfigKeyValues, _ := getKeyValues(allConfLines)]); what [Init]
    prints and the goroutine it starts ([CheckSpeedOfUsers]) are left
    out. *)
Definition Init (filePath : string) (g : Globals)
  : Outcome (Globals * option initError) :=
  let g := setConfigPath g filePath in
  let '(allConfLines, err) :=
    readLines MapToLower (fileAt (ConfigPath g)) in
  let err := errOf err in
  let keyValues := fst (getKeyValues allConfLines) in
  let g :=
    match keyValues !! "config-dir" with
    | Some dir => setConfigDir g dir
    | None => setConfigDir g (Dir (ConfigPath g))
    end in
  let g := setEnableUserCheck g false in
  let g :=
    match keyValues !! "user-check" with
    | Some enableUsercheck =>
        setEnableUserCheck g (String.eqb enableUsercheck "on")
    | None => g
    end in
  match
    (if EnableUserCheck g
     then match importUsers (ConfigDir g +:+ "/users.list") g with
          | Returns (g, uerr) => Returns (g, errOf uerr)
          | Panics => Panics
          end
     else Returns (g, err))
  with
  | Panics => Panics
  | Returns (g, err) =>
      let '(g, err) :=
        match keyValues !! "user" with
        | Some user =>
            let '(localUser, uerr) := ParseEagleUser user in
            (setLocalUser g localUser, errOf uerr)
        | None => (g, err)
        end in
      let g := setEncryptKey g 34 in
      match keyValues !! "data-key" with
      | Some encryptKey =>
          match ParseUint_16_8 encryptKey with
          | (_, Some nerr) => Returns (g, Some (ErrNum nerr))
          | (_encryptKey, None) =>
              Returns (Init_rest keyValues None (setEncryptKey g _encryptKey))
          end
      | None => Returns (Init_rest keyValues err g)
      end
  end.

(** The variables [Init] writes after the data key, and [ConfigKeyValues],
    are in [g'] what they are in [g]. *)
Definition restUntouched (g g' : Globals) : Prop :=
  ConfigKeyValues g' = ConfigKeyValues g ∧
  EnableSOCKS5 g' = EnableSOCKS5 g ∧
  EnableHTTP g' = EnableHTTP g ∧
  EnableET g' = EnableET g ∧
  ProxyStatus g' = ProxyStatus g ∧
  LocalAddr g' = LocalAddr g ∧
  LocalPort g' = LocalPort g ∧
  RemoteAddr g' = RemoteAddr g ∧
  RemotePort g' = RemotePort g ∧
  WhitelistDomains g' = WhitelistDomains g ∧
  hostsCache g' = hostsCache g.

End Settings.

End Config.

(** ** [main.go] *)

Module Main.

(** What [main] does that is seen from outside, in the order it does it. *)
Inductive act : Type :=
| Println (text : string)              (* fmt.Println(text) *)
| LogError (msg : string)              (* logger.Error(err) *)
| CallImportArgs (args : list string)  (* mycmd.ImportArgs(args) *)
| CallImportConfig                     (* etcore.ImportConfig() *)
| CallCheck (target : string).         (* mycmd.Check(target) *)

(** How a call ends: it returns, or the program panics; [h] is what has
    been done by then. *)
Inductive Run : Type :=
| Done (h : list act)
| Panic (h : list act).

Section Program.

(** The two imports are declared in other packages.  An error is known by
    its message ([err.Error()]); [None] is the nil error. *)
Variable ImportArgs : list act → list string → option string.
Variable ImportConfig : list act → option string.
(** What [core] does once [Init] returned nil: it prints the settings,
    creates and starts the service, waits for the interrupt and closes the
    service. *)
Variable serve : list act → Run.

Definition Init (args : list string) (h : list act)
  : option string * list act :=
  let h1 := h ++ [CallImportArgs args] in
  match ImportArgs h args with
  | Some err => (Some err, h1)
  | None => (ImportConfig h1, h1 ++ [CallImportConfig])
  end.

(** [args[2:]] panics when [args] has fewer than two elements. *)
Definition check (args : list string) (h : list act) : Run :=
  if Nat.ltb (length args) 2 then Panic h
  else
    let '(err, h) := Init (drop 2 args) h in
    match err with
    | Some msg => Done (h ++ [LogError msg])
    | None => Done (h ++ [CallCheck (nth 1 args "")])
    end.

Definition core (args : list string) (h : list act) : Run :=
  let '(err, h) := Init args h in
  match err with
  | Some msg =>
      if negb (String.eqb msg "no need to continue")
      then Done (h ++ [LogError msg])
      else Done h
  | None => serve h
  end.

(** [main]; [args] is [os.Args[1:]]. *)
Definition main (args : list string) (h : list act) : Run :=
  if Nat.eqb (length args) 0
  then Done (h ++ [Println "error: no arg for Eagle Tunnel"])
  else if String.eqb (nth 0 args "") "check" then check args h
  else core args h.

End Program.

End Main.

(** ** More of the small world: settings, files and states *)

Module Sample.

Import Controler Config.

(** A user is an ID and a password, written [id:password]. *)
Definition User : Type := string * string.

Definition userID (u : User) : string := u.1.

Definition parseUser (text : string) : option User * option error :=
  match Split ":" text with
  | [id; password] => (Some (id, password), None)
  | _ => (None, Some (ErrExternal "invalid user text"))
  end.

(** Every configuration file of this world lies in [/etc/et]. *)
Definition dir (_ : string) : string := "/etc/et".

Definition confFile : File :=
  mkFile None
    ["# client"; "Listen = 127.0.0.1:8081"; "relayer = 1.2.3.4";
     "socks = on"; "proxy-status = smart"; "data-key = 3f"]
    None.

Definition badKeyFile : File :=
  mkFile None ["listen = 127.0.0.1:8081"; "data-key = zz"] None.

Definition fileAt (path : string) : File :=
  if String.eqb path "/etc/et/client.conf" then confFile
  else if String.eqb path "/etc/et/bad.conf" then badKeyFile
  else Demo.fileAt path.

(** The package variables before [Init]: Go's zero values, and the ET
    protocol switched on. *)
Definition globals : Globals User :=
  mkGlobals User "" "" None false false false true ProxyENABLE ∅ None 0
            "" "" "" "" [] ∅.

Definition init :=
  Init User userID parseUser Demo.mapToLower dir Demo.readDir fileAt.

(** The package variables after [Init] on [client.conf], on [bad.conf] and
    on a file that does not exist. *)
Definition started : Globals User :=
  mkGlobals User "/etc/et/client.conf" "/etc/et" None false true false true
            ProxySMART ∅ None 63 "127.0.0.1" "8081" "1.2.3.4" "8080" []
            Demo.overlay.

Definition stopped : Globals User :=
  mkGlobals User "/etc/et/bad.conf" "/etc/et" None false false false true
            ProxyENABLE ∅ None 34 "" "" "" "" [] ∅.

Definition unread : Globals User :=
  mkGlobals User "/nowhere/et.conf" "/etc/et" None false false false true
            ProxyENABLE ∅ None 34 "0.0.0.0" "8080" "" "" [] Demo.overlay.


(** A relay that answers with an address and an error at once. *)
Definition flakyRelay (_ : list event) (_ : string) : string * option error :=
  ("151.101.1.1", Some (ErrExternal "connection reset")).

Definition direct (d : string) : NetArg := mkNetArg d "" "" "" DirectDomain.

Definition proxied (d : string) : NetArg := mkNetArg d "" "" "" ProxyDomain.

(** The states after [example.org] was resolved by the relay, after it was
    resolved in smart mode as an uncertain domain, and after [example.cn]
    was resolved in smart mode as a direct domain. *)
Definition afterProxy : State :=
  mkState (Some {["example.org" := Ready "151.101.1.1"]}) None
          [CallSendQueryReq "DNS example.org"].

Definition afterSmart : State :=
  mkState (Some {["example.org" := Ready "151.101.1.1"]})
          (Some {["example.org" := Ready "93.0.0.1"]})
          [CallDNSResolver "example.org"; CallLocation "93.0.0.1";
           CallSendQueryReq "DNS example.org"].

Definition afterDirect : State :=
  mkState None (Some {["example.cn" := Ready "36.0.0.1"]})
          [CallDNSResolver "example.cn"].

End Sample.

(** ** An invariant of the remote cache

    Every value the remote cache holds is one [net.ParseIP] accepts. *)
Definition remoteParsed (ParseIP : string → bool) (s : State) : Prop :=
  ∀ c k text,
    dnsRemoteCache s = Some c → c !! k = Some (Ready text) →
    ParseIP text = true.

(** * Properties *)

(** ** The state and the cache nodes *)

Lemma cacheOf_setCache sd s c : cacheOf sd (setCache sd s c) = Some c.
Proof. by destruct sd. Qed.

Lemma cacheOrNew_setCache sd s c : cacheOrNew sd (setCache sd s c) = c.
Proof. unfold cacheOrNew. by rewrite cacheOf_setCache. Qed.

Lemma cacheOrNew_record sd s ev : cacheOrNew sd (record s ev) = cacheOrNew sd s.
Proof. by destruct sd. Qed.

Lemma history_setCache sd s c : history (setCache sd s c) = history s.
Proof. by destruct sd. Qed.

Lemma setCache_setCache sd s c c' :
  setCache sd (setCache sd s c) c' = setCache sd s c'.
Proof. by destruct sd. Qed.

Lemma setCache_record sd s c ev :
  setCache sd (record s ev) c = record (setCache sd s c) ev.
Proof. by destruct sd. Qed.

Lemma cacheOrNew_other s c :
  cacheOrNew Remote (setCache Local s c) = cacheOrNew Remote s ∧
  cacheOrNew Local (setCache Remote s c) = cacheOrNew Local s.
Proof. done. Qed.

Lemma settled_insert_Ready (c : TextCache) k text :
  Cache.settled c → Cache.settled (<[k := Ready text]> c).
Proof.
  intros Hc k'. destruct (decide (k = k')) as [->|Hne].
  - by rewrite lookup_insert_eq.
  - rewrite lookup_insert_ne; [apply Hc | done].
Qed.

Lemma settled_empty : Cache.settled (∅ : TextCache).
Proof. intros k. by rewrite lookup_empty. Qed.

Lemma settled_cacheOrNew sd s : settledState s → Cache.settled (cacheOrNew sd s).
Proof.
  intros [Hr Hl]. unfold cacheOrNew.
  destruct sd; simpl.
  - destruct (dnsRemoteCache s) eqn:E; [by apply Hr | apply settled_empty].
  - destruct (dnsLocalCache s) eqn:E; [by apply Hl | apply settled_empty].
Qed.

Lemma settledState_setCache sd s c :
  settledState s → Cache.settled c → settledState (setCache sd s c).
Proof.
  intros [Hr Hl] Hc. destruct sd; split; simpl; intros c' E;
    try (injection E as <-; done); auto.
Qed.

Lemma settledState_record s ev : settledState s → settledState (record s ev).
Proof. intros [Hr Hl]. split; simpl; auto. Qed.

Lemma settledState_init : settledState initState.
Proof. split; simpl; intros c E; discriminate. Qed.

Ltac norm_state :=
  repeat first
    [ rewrite cacheOrNew_record
    | progress change (cacheOrNew Local (setLocal ?a ?c)) with c
    | progress change (cacheOrNew Remote (setRemote ?a ?c)) with c ].

(** ** One resolution through a cache

    What [resolvDNSByLocal] and [resolvDNSByProxy] do, by the node the cache
    holds for the domain. *)

Section Resolution.

Variable Name : string.
Variable DNSResolver : list event → string → string * option error.
Variable SendQueryReq : list event → string → string * option error.
Variable ParseIP : string → bool.

Lemma resolvDNSByLocal_hit e s text :
  cacheOrNew Local s !! Domain e = Some (Ready text) →
  resolvDNSByLocal DNSResolver e s =
    Some ((setIP e text, None), setCache Local s (cacheOrNew Local s)).
Proof.
  intros H. unfold resolvDNSByLocal, bind, getCacheNodeOfLocal, getCacheNode,
    Cache.Get. rewrite H. unfold Wait. simpl.
  change (cacheOrNew Local (setLocal s ?c)) with c. by rewrite H.
Qed.

Lemma resolvDNSByLocal_pending e s :
  cacheOrNew Local s !! Domain e = Some Pending →
  resolvDNSByLocal DNSResolver e s = None.
Proof.
  intros H. unfold resolvDNSByLocal, bind, getCacheNodeOfLocal, getCacheNode,
    Cache.Get. rewrite H. unfold Wait. simpl.
  change (cacheOrNew Local (setLocal s ?c)) with c. by rewrite H.
Qed.

Lemma resolvDNSByLocal_miss e s :
  cacheOrNew Local s !! Domain e = None →
  resolvDNSByLocal DNSResolver e s =
    let '(ip, err) := DNSResolver (history s) (Domain e) in
    Some ((setIP e ip, err),
          record (setCache Local s
                    (cacheAfter (cacheOrNew Local s) (Domain e) ip err))
                 (CallDNSResolver (Domain e))).
Proof.
  intros H. unfold resolvDNSByLocal, bind, getCacheNodeOfLocal, getCacheNode,
    Cache.Get. rewrite H. simpl.
  unfold _resolvDNSByLocal, bind, callDNSResolver. simpl.
  destruct (DNSResolver (history s) (Domain e)) as [ip [err|]]; simpl.
  - unfold Destroy, bind, ret, Cache.Destroy. simpl. norm_state.
    rewrite delete_insert_id by done.
    by destruct s.
  - unfold Update, bind, ret, Cache.Update. simpl. norm_state.
    rewrite insert_insert_eq. by destruct s.
Qed.

Lemma resolvDNSByProxy_hit e s text :
  cacheOrNew Remote s !! Domain e = Some (Ready text) →
  resolvDNSByProxy Name SendQueryReq ParseIP e s =
    Some ((setIP e text, None), setCache Remote s (cacheOrNew Remote s)).
Proof.
  intros H. unfold resolvDNSByProxy, bind, getCacheNodeOfRemote, getCacheNode,
    Cache.Get. rewrite H. unfold Wait. simpl.
  change (cacheOrNew Remote (setRemote s ?c)) with c. by rewrite H.
Qed.

Lemma resolvDNSByProxy_miss e s :
  cacheOrNew Remote s !! Domain e = None →
  resolvDNSByProxy Name SendQueryReq ParseIP e s =
    let req := Name +:+ " " +:+ Domain e in
    let reply := fst (SendQueryReq (history s) req) in
    Some ((setIP e reply, replyErr ParseIP reply),
          record (setCache Remote s
                    (cacheAfter (cacheOrNew Remote s) (Domain e) reply
                                (replyErr ParseIP reply)))
                 (CallSendQueryReq req)).
Proof.
  intros H. unfold resolvDNSByProxy, bind, getCacheNodeOfRemote, getCacheNode,
    Cache.Get. rewrite H. simpl.
  unfold _resolvDNSByProxy, bind, sendQuery, replyErr. simpl.
  destruct (SendQueryReq (history s) (Name +:+ " " +:+ Domain e))
    as [reply qerr]; simpl.
  destruct (ParseIP reply); simpl.
  - unfold Update, bind, ret, Cache.Update. simpl. norm_state.
    rewrite insert_insert_eq. by destruct s.
  - unfold Destroy, bind, ret, Cache.Destroy. simpl. norm_state.
    rewrite delete_insert_id by done.
    by destruct s.
Qed.

End Resolution.

(** With no resolution in flight both paths return, leave no resolution in
    flight, keep the other cache, and ask the world at most once. *)

Section Returns.

Variable Name : string.
Variable DNSResolver : list event → string → string * option error.
Variable SendQueryReq : list event → string → string * option error.
Variable ParseIP : string → bool.

Lemma settled_cacheAfter c key text err :
  Cache.settled c → Cache.settled (cacheAfter c key text err).
Proof.
  intros Hc. destruct err; simpl; [done | by apply settled_insert_Ready].
Qed.

Lemma resolvDNSByLocal_returns e s :
  settledState s →
  ∃ ip err s1,
    resolvDNSByLocal DNSResolver e s = Some ((setIP e ip, err), s1) ∧
    settledState s1 ∧
    dnsRemoteCache s1 = dnsRemoteCache s ∧
    (history s1 = history s ∨
     history s1 = history s ++ [CallDNSResolver (Domain e)]).
Proof.
  intros Hs. pose proof (settled_cacheOrNew Local s Hs) as Hc.
  destruct (cacheOrNew Local s !! Domain e) as [[|text]|] eqn:E.
  - by destruct (Hc (Domain e)).
  - exists text, None, (setCache Local s (cacheOrNew Local s)).
    rewrite (resolvDNSByLocal_hit _ _ _ _ E).
    split_and!; [done | by apply settledState_setCache | done | by left].
  - rewrite (resolvDNSByLocal_miss _ _ _ E).
    destruct (DNSResolver (history s) (Domain e)) as [ip err].
    eexists ip, err, _. split; [reflexivity|].
    split_and!; [| done | by right].
    apply settledState_record, (settledState_setCache Local); [done|].
    by apply settled_cacheAfter.
Qed.

Lemma resolvDNSByProxy_returns e s :
  settledState s →
  ∃ ip err s1,
    resolvDNSByProxy Name SendQueryReq ParseIP e s
      = Some ((setIP e ip, err), s1) ∧
    settledState s1 ∧
    dnsLocalCache s1 = dnsLocalCache s ∧
    (history s1 = history s ∨
     history s1 = history s ++ [CallSendQueryReq (Name +:+ " " +:+ Domain e)]).
Proof.
  intros Hs. pose proof (settled_cacheOrNew Remote s Hs) as Hc.
  destruct (cacheOrNew Remote s !! Domain e) as [[|text]|] eqn:E.
  - by destruct (Hc (Domain e)).
  - exists text, None, (setCache Remote s (cacheOrNew Remote s)).
    rewrite (resolvDNSByProxy_hit _ _ _ _ _ _ E).
    split_and!; [done | by apply settledState_setCache | done | by left].
  - rewrite (resolvDNSByProxy_miss _ _ _ _ _ E).
    eexists _, _, _. split; [reflexivity|].
    split_and!; [| done | by right].
    apply settledState_record, (settledState_setCache Remote); [done|].
    by apply settled_cacheAfter.
Qed.

(** With no resolution in flight each path does what [localPath] and
    [remotePath] say. *)
Lemma resolvDNSByLocal_path e s :
  settledState s →
  ∃ ip err s1,
    resolvDNSByLocal DNSResolver e s = Some ((setIP e ip, err), s1) ∧
    settledState s1 ∧
    localPath DNSResolver s (Domain e) ip err s1.
Proof.
  intros Hs. pose proof (settled_cacheOrNew Local s Hs) as Hc.
  destruct (cacheOrNew Local s !! Domain e) as [[|text]|] eqn:E.
  - by destruct (Hc (Domain e)).
  - exists text, None, (setCache Local s (cacheOrNew Local s)).
    rewrite (resolvDNSByLocal_hit _ _ _ _ E).
    split_and!; [done | by apply settledState_setCache |].
    split; [done | left]. by rewrite cacheOrNew_setCache.
  - rewrite (resolvDNSByLocal_miss _ _ _ E).
    destruct (DNSResolver (history s) (Domain e)) as [ip err] eqn:Er.
    eexists ip, err, _. split; [reflexivity|]. split.
    + apply settledState_record, (settledState_setCache Local); [done|].
      by apply settled_cacheAfter.
    + split; [done | right].
      by rewrite cacheOrNew_record, cacheOrNew_setCache.
Qed.

Lemma resolvDNSByProxy_path e s :
  settledState s →
  ∃ ip err s1,
    resolvDNSByProxy Name SendQueryReq ParseIP e s
      = Some ((setIP e ip, err), s1) ∧
    settledState s1 ∧
    remotePath Name SendQueryReq ParseIP s (Domain e) ip err s1.
Proof.
  intros Hs. pose proof (settled_cacheOrNew Remote s Hs) as Hc.
  destruct (cacheOrNew Remote s !! Domain e) as [[|text]|] eqn:E.
  - by destruct (Hc (Domain e)).
  - exists text, None, (setCache Remote s (cacheOrNew Remote s)).
    rewrite (resolvDNSByProxy_hit _ _ _ _ _ _ E).
    split_and!; [done | by apply settledState_setCache |].
    split; [done | left]. by rewrite cacheOrNew_setCache.
  - rewrite (resolvDNSByProxy_miss _ _ _ _ _ E). cbv zeta.
    eexists _, _, _. split; [reflexivity|]. split.
    + apply settledState_record, (settledState_setCache Remote); [done|].
      by apply settled_cacheAfter.
    + split; [done | right].
      by rewrite cacheOrNew_record, cacheOrNew_setCache.
Qed.

(** Either path adds to the history nothing, or its one call. *)
Lemma localPath_history s domain ip err s' :
  localPath DNSResolver s domain ip err s' →
  history s' = history s ∨
  history s' = history s ++ [CallDNSResolver domain].
Proof. intros [_ [(_ & _ & _ & H)|(_ & _ & _ & H)]]; [by left | by right]. Qed.

Lemma remotePath_history s domain ip err s' :
  remotePath Name SendQueryReq ParseIP s domain ip err s' →
  history s' = history s ∨
  history s' = history s ++ [CallSendQueryReq (Name +:+ " " +:+ domain)].
Proof.
  intros [_ [(_ & _ & _ & H)|(_ & _ & _ & _ & H)]]; [by left | by right].
Qed.

(** A domain resolved once is answered from the cache the next time: the
    resolver is not asked again and the IP is the same. *)
Lemma resolvDNSByLocal_again e e2 s ip s1 :
  resolvDNSByLocal DNSResolver e s = Some ((setIP e ip, None), s1) →
  Domain e2 = Domain e →
  ∃ s2,
    resolvDNSByLocal DNSResolver e2 s1 = Some ((setIP e2 ip, None), s2) ∧
    history s2 = history s1.
Proof.
  intros Hr He2.
  assert (Hc : cacheOrNew Local s1 !! Domain e2 = Some (Ready ip)).
  { rewrite He2. destruct (cacheOrNew Local s !! Domain e) as [[|text]|] eqn:E.
    - by rewrite (resolvDNSByLocal_pending _ _ _ E) in Hr.
    - rewrite (resolvDNSByLocal_hit _ _ _ _ E) in Hr.
      injection Hr as Hip <-. rewrite cacheOrNew_setCache.
      by subst text.
    - rewrite (resolvDNSByLocal_miss _ _ _ E) in Hr.
      destruct (DNSResolver (history s) (Domain e)) as [ip' [err|]];
        [discriminate|].
      injection Hr as Hip <-. rewrite cacheOrNew_record, cacheOrNew_setCache.
      subst ip'.
      simpl. by rewrite lookup_insert_eq. }
  rewrite (resolvDNSByLocal_hit _ _ _ _ Hc). eexists. split; [done|].
  by rewrite history_setCache.
Qed.

End Returns.

(** ** The claims about [dns.go] *)

Section Claims.

Variable HostsCache : gmap string string.
Variable ProxyStatus : ProxyStatusT.
Variable Name : string.
Variable DNSResolver : list event → string → string * option error.
Variable SendQueryReq : list event → string → string * option error.
Variable ParseIP : string → bool.
Variable location_of : list event → string → string.
Variable checkProxyByLocation : string → bool.
Variable WriteLeftStr : list event → string → option error.

Local Abbreviation send status :=
  (Send HostsCache status Name DNSResolver SendQueryReq ParseIP
        location_of checkProxyByLocation).
Local Abbreviation byLocal := (resolvDNSByLocal DNSResolver).
Local Abbreviation byProxy := (resolvDNSByProxy Name SendQueryReq ParseIP).
Local Abbreviation byLocation :=
  (resolvDNSByLocation Name DNSResolver SendQueryReq ParseIP
                       location_of checkProxyByLocation).

(** C1.  Smart mode, a domain the hosts overlay does not list (the first
    step of [Send]), a domain type that is neither DIRECT nor PROXY, no
    resolution in flight.  [Send] first resolves by the local path: [ip1]
    is the IP the local cache holds for the domain or, when it holds none,
    the answer of the local resolver, asked once ([localPath]).  Then it
    asks the location of [ip1].  When [checkProxyByLocation] flags that
    location it resolves the same domain by the remote path: [ip2] is the
    IP the remote cache holds for the domain or, when it holds none, the
    text of the relay's reply to one query ([remotePath]); [Send] hands
    back the NetArg with [ip2] and the remote path's error.  Otherwise it
    hands back the NetArg with [ip1] and no error, and the relay is not
    asked. *)
Theorem Send_smart_uncertain e s :
  HostsCache !! Domain e = None →
  DomainType e ≠ DirectDomain →
  DomainType e ≠ ProxyDomain →
  settledState s →
  ∃ ip1 err1 s1,
    byLocal e s = Some ((setIP e ip1, err1), s1) ∧
    localPath DNSResolver s (Domain e) ip1 err1 s1 ∧
    (history s1 = history s ∨
     history s1 = history s ++ [CallDNSResolver (Domain e)]) ∧
    let loc := location_of (history s1) ip1 in
    let s2 := record s1 (CallLocation ip1) in
    if checkProxyByLocation loc then
      ∃ ip2 err2 s3,
        byProxy (newNetArg (Domain e)) s2
          = Some ((setIP (newNetArg (Domain e)) ip2, err2), s3) ∧
        remotePath Name SendQueryReq ParseIP s2 (Domain e) ip2 err2 s3 ∧
        (history s3 = history s1 ++ [CallLocation ip1] ∨
         history s3 = history s1 ++ [CallLocation ip1]
                        ++ [CallSendQueryReq (Name +:+ " " +:+ Domain e)]) ∧
        send ProxySMART e s
          = Some ((setIP (setLocation (setIP e ip1) loc) ip2, err2), s3)
    else
      send ProxySMART e s = Some ((setLocation (setIP e ip1) loc, None), s2).
Proof.
  intros Hhosts Hd Hp Hs.
  destruct (resolvDNSByLocal_path DNSResolver e s Hs)
    as (ip1 & err1 & s1 & Hloc & Hs1 & Hpath1).
  pose proof (localPath_history _ _ _ _ _ _ Hpath1) as Hh1.
  exists ip1, err1, s1. split_and!; [done | done | done |]. simpl.
  assert (Hsend : send ProxySMART e s = byLocation e s).
  { unfold Send, look4Hosts. rewrite Hhosts. simpl. unfold smartSend.
    by destruct (DomainType e). }
  rewrite Hsend. unfold resolvDNSByLocation, bind. rewrite Hloc.
  unfold LocationSend. simpl.
  destruct (checkProxyByLocation (location_of (history s1) ip1)); simpl.
  - destruct (resolvDNSByProxy_path Name SendQueryReq ParseIP
                (newNetArg (Domain e)) (record s1 (CallLocation ip1))
                (settledState_record _ _ Hs1))
      as (ip2 & err2 & s3 & Hprx & _ & Hpath2).
    pose proof (remotePath_history _ _ _ _ _ _ _ _ Hpath2) as Hh3.
    exists ip2, err2, s3. split_and!; [done | done | | by rewrite Hprx].
    simpl in Hh3. destruct Hh3 as [->| ->]; [by left | right].
    by rewrite <- app_assoc.
  - done.
Qed.

(** C2.  A domain the hosts overlay lists with an IP other than [::]:
    [Send] puts that IP into the NetArg and returns no error, whatever the
    proxy status; the state is the one it started from, so neither the
    resolver nor the relay was asked and both caches are as before. *)
Theorem Send_hosts_precedence e s ip :
  HostsCache !! Domain e = Some ip →
  ip ≠ "::" →
  send ProxyStatus e s = Some ((setIP e ip, None), s).
Proof.
  intros Hhosts Hip. unfold Send, look4Hosts. rewrite Hhosts.
  destruct (String.eqb_spec ip "::"); [done|]. done.
Qed.

(** C3.  A domain the hosts overlay lists: [Send] returns, and its error
    is [ErrADHostsFound] exactly when the listed IP is the sentinel [::]. *)
Theorem Send_ErrADHostsFound_iff_sentinel e s ip :
  HostsCache !! Domain e = Some ip →
  ∃ e' err,
    send ProxyStatus e s = Some ((e', err), s) ∧
    (err = Some ErrADHostsFound ↔ ip = "::").
Proof.
  intros Hhosts. unfold Send, look4Hosts. rewrite Hhosts.
  destruct (String.eqb_spec ip "::") as [->|Hne]; simpl.
  - by exists e, (Some ErrADHostsFound).
  - exists (setIP e ip), None. split; [done|]. split; [done|]. by intros ->.
Qed.

(** C9.  When [Send] fails with [ErrADHostsFound] for an ad-blocked domain
    (one the hosts overlay maps to [::]), the NetArg it hands back is the
    one it was given, field by field, and the state did not change. *)
Theorem Send_ad_blocked_frame e s :
  HostsCache !! Domain e = Some "::" →
  ∃ e',
    send ProxyStatus e s = Some ((e', Some ErrADHostsFound), s) ∧
    e' = e ∧ IP e' = IP e.
Proof.
  intros Hhosts. unfold Send, look4Hosts. rewrite Hhosts. simpl.
  by exists e.
Qed.

(** C4.  A resolution by the remote path (the remote cache holds no node
    for the domain, so [getCacheNodeOfRemote] creates one, pending) whose
    reply [net.ParseIP] rejects: [resolvDNSByProxy] returns the
    invalid-reply error after exactly one query; the node it created is
    destroyed, not published, so the remote cache is what it was and still
    has no node for the domain; and the next resolution of that domain
    queries the relay again. *)
Theorem resolvDNSByProxy_invalid_reply e s :
  cacheOrNew Remote s !! Domain e = None →
  ParseIP (SendQueryReq (history s) (Name +:+ " " +:+ Domain e)).1 = false →
  ∃ node s0 s1,
    getCacheNodeOfRemote (Domain e) s = Some ((node, false), s0) ∧
    cacheOrNew Remote s0 !! Domain e = Some Pending ∧
    byProxy e s
      = Some ((setIP e (SendQueryReq (history s) (Name +:+ " " +:+ Domain e)).1,
               Some ErrInvalidReply), s1) ∧
    history s1 = history s ++ [CallSendQueryReq (Name +:+ " " +:+ Domain e)] ∧
    cacheOrNew Remote s1 = cacheOrNew Remote s ∧
    cacheOrNew Remote s1 !! Domain e = None ∧
    dnsLocalCache s1 = dnsLocalCache s ∧
    ∀ e2, Domain e2 = Domain e →
      ∃ r s2,
        byProxy e2 s1 = Some (r, s2) ∧
        history s2
          = history s1 ++ [CallSendQueryReq (Name +:+ " " +:+ Domain e)].
Proof.
  intros Hmiss Hbad.
  rewrite (resolvDNSByProxy_miss _ _ _ _ _ Hmiss). cbv zeta.
  unfold replyErr. rewrite Hbad. simpl cacheAfter.
  unfold getCacheNodeOfRemote, getCacheNode, Cache.Get. rewrite Hmiss.
  eexists _, _, _. split; [reflexivity|].
  split; [by rewrite cacheOrNew_setCache, lookup_insert_eq|].
  split; [reflexivity|].
  assert (Hc : cacheOrNew Remote
                 (record (setCache Remote s (cacheOrNew Remote s))
                         (CallSendQueryReq (Name +:+ " " +:+ Domain e)))
               = cacheOrNew Remote s) by done.
  split_and!; [done | done | by rewrite Hc | done |].
  intros e2 He2.
  rewrite resolvDNSByProxy_miss by (by rewrite He2, Hc).
  cbv zeta. rewrite He2. eexists _, _. split; reflexivity.
Qed.

(** C6.  [Handle] on a request line.  Fewer than two fields between
    spaces: the "too short" error, and the state is untouched (nothing
    resolved, nothing written).  Two fields or more, no resolution in
    flight: the second field is resolved by the local path ([localPath]:
    the IP is the one the local cache holds for that domain or, when it
    holds none, the answer of the local resolver, asked once), which leaves
    the remote cache alone and never asks the relay; when that fails its
    error is returned and nothing is written; when it succeeds the IP is
    written on the tunnel and the result of the write is returned. *)
Theorem Handle_local_only req s :
  (length (Split " " req) < 2 →
   Handle DNSResolver WriteLeftStr req s = Some (Some ErrReqTooShort, s)) ∧
  ((2 ≤ length (Split " " req))%nat →
   settledState s →
   ∃ ip err s1,
     byLocal (newNetArg (nth 1 (Split " " req) "")) s
       = Some ((setIP (newNetArg (nth 1 (Split " " req) "")) ip, err), s1) ∧
     localPath DNSResolver s (nth 1 (Split " " req) "") ip err s1 ∧
     dnsRemoteCache s1 = dnsRemoteCache s ∧
     (history s1 = history s ∨
      history s1 = history s ++ [CallDNSResolver (nth 1 (Split " " req) "")]) ∧
     Handle DNSResolver WriteLeftStr req s =
       match err with
       | Some _ => Some (err, s1)
       | None => Some (WriteLeftStr (history s1) ip,
                       record s1 (CallWriteLeftStr ip))
       end).
Proof.
  split.
  - intros Hlen. unfold Handle.
    destruct (Nat.ltb_spec (length (Split " " req)) 2); [done | lia].
  - intros Hlen Hs. unfold Handle.
    destruct (Nat.ltb_spec (length (Split " " req)) 2); [lia|].
    destruct (resolvDNSByLocal_path DNSResolver
                (newNetArg (nth 1 (Split " " req) "")) s Hs)
      as (ip & err & s1 & Hloc & _ & Hpath).
    pose proof (localPath_history _ _ _ _ _ _ Hpath) as Hhist.
    exists ip, err, s1.
    split_and!; [done | done | by destruct Hpath | done |].
    unfold bind. rewrite Hloc. by destruct err.
Qed.


(** With no resolution in flight [Send] returns, and leaves none in
    flight. *)
Lemma Send_returns e s :
  settledState s →
  ∃ r s', send ProxyStatus e s = Some (r, s') ∧ settledState s'.
Proof.
  intros Hs. unfold Send.
  destruct (look4Hosts HostsCache (Domain e)) as [[ip ok] [err|]];
    [by eexists _, _ | ].
  destruct ok; [by eexists _, _ | ].
  pose proof (resolvDNSByLocal_returns DNSResolver e s Hs)
    as (ip1 & err1 & s1 & Hloc & Hs1 & _).
  pose proof (resolvDNSByProxy_returns Name SendQueryReq ParseIP e s Hs)
    as (ip2 & err2 & s2 & Hprx & Hs2 & _).
  assert (Hbl : ∃ r s', byLocation e s = Some (r, s') ∧ settledState s').
  { unfold resolvDNSByLocation, bind. rewrite Hloc.
    unfold LocationSend. simpl.
    destruct (checkProxyByLocation _); simpl; [|by eexists _, _; split;
      [|apply settledState_record]].
    destruct (resolvDNSByProxy_returns Name SendQueryReq ParseIP
                (newNetArg (Domain e)) (record s1 (CallLocation ip1))
                (settledState_record _ _ Hs1))
      as (ip3 & err3 & s3 & Hprx3 & Hs3 & _).
    rewrite Hprx3. by eexists _, _. }
  destruct ProxyStatus; unfold proxySend, smartSend.
  - destruct (DomainType e); eauto.
  - eauto.
  - by eexists _, _.
Qed.

End Claims.

(** ** Callers that run at the same time *)

Section SingleFlight.
Import Callers.

Variable sd : Side.
Variable Name : string.
Variable DNSResolver : list event → string → string * option error.
Variable SendQueryReq : list event → string → string * option error.
Variable ParseIP : string → bool.

Local Abbreviation stepC := (stepCaller sd Name DNSResolver SendQueryReq ParseIP).
Local Abbreviation stepI := (step sd Name DNSResolver SendQueryReq ParseIP).
Local Abbreviation runS := (run sd Name DNSResolver SendQueryReq ParseIP).
Local Abbreviation inv := (Inv sd Name).

Lemma insert_lookup_inv (cs : list Caller) i c' j c :
  <[i := c']> cs !! j = Some c →
  (j = i ∧ c = c') ∨ (j ≠ i ∧ cs !! j = Some c).
Proof.
  intros H. apply list_lookup_insert_Some in H as [(-> & -> & _)|[Hne H]].
  - by left.
  - right. split; [congruence | done].
Qed.

Lemma insert_elem_inv (cs : list Caller) i c' c :
  c ∈ <[i := c']> cs → c = c' ∨ c ∈ cs.
Proof.
  intros [j Hj]%list_elem_of_lookup_1.
  apply insert_lookup_inv in Hj as [[_ ->]|[_ Hj]]; [by left | right].
  by apply (list_elem_of_lookup_2 _ j).
Qed.

Lemma nodesOf_setNodes w m : nodesOf sd (setNodes sd w m) = m.
Proof. by destruct sd. Qed.

Lemma heap_setNodes w m : heap (setNodes sd w m) = heap w.
Proof. by destruct sd. Qed.

Lemma calls_setNodes w m : calls (setNodes sd w m) = calls w.
Proof. by destruct sd. Qed.

Lemma resolveAlone_eq e h :
  ∃ ip err,
    resolveAlone sd Name DNSResolver SendQueryReq ParseIP e (mkState None None h)
      = Some ((setIP e ip, err),
              mkState None None (h ++ [theCall sd Name (Domain e)])).
Proof.
  unfold resolveAlone, theCall. destruct sd.
  - unfold _resolvDNSByProxy, bind, sendQuery. simpl.
    destruct (SendQueryReq h (Name +:+ " " +:+ Domain e)) as [ip qerr]. simpl.
    destruct (ParseIP ip); by eexists _, _.
  - unfold _resolvDNSByLocal, bind, callDNSResolver. simpl.
    destruct (DNSResolver h (Domain e)) as [ip err]. by eexists _, _.
Qed.

Lemma Inv_start D es :
  Forall (fun e => Domain e = D) es → inv D (start es).
Proof.
  intros Hes. unfold Inv, start. cbn [fst snd].
  assert (Hc : ∀ i c, map Called es !! i = Some c → ∃ e, c = Called e ∧ Domain e = D).
  { intros i c. rewrite list_lookup_fmap.
    destruct (es !! i) as [e|] eqn:E; [|done]. intros [= <-].
    exists e. split; [done|]. rewrite Forall_forall in Hes.
    apply Hes. by apply (list_elem_of_lookup_2 _ i). }
  assert (Hm : ∀ c, c ∈ map Called es → ∃ e, c = Called e ∧ Domain e = D).
  { intros c [i Hi]%list_elem_of_lookup_1. by apply (Hc i). }
  split_and!.
  - by intros c (e & -> & He)%Hm.
  - unfold nodesOk.
    assert (nodesOf sd emptyWorld !! D = None) as -> by (by destruct sd).
    intros k st. simpl. by rewrite lookup_nil.
  - by intros i c (e & -> & _)%Hc.
  - by intros i j ci cj (e & -> & _)%Hc.
  - by intros e (e' & [=] & _)%Hm.
  - by intros e x (e' & [=] & _)%Hm.
  - done.
  - by intros i e n (e' & [=] & _)%Hc.
  - simpl. set_solver.
Qed.

(** A caller that is not in flight takes a step that changes nothing in
    the world and leaves it not in flight. *)
Lemma Inv_quiet D w cs i c c' :
  inv D (w, cs) → cs !! i = Some c →
  inFlight c' = false → Domain (callerArg c') = D →
  (∀ e, c' = Returned e None →
        ∃ n, nodesOf sd w !! D = Some n ∧ heap w !! n = Some (NReady (IP e))) →
  (∀ e x, c' = Returned e (Some x) → NFailed ∈ heap w) →
  inv D (w, <[i := c']> cs).
Proof.
  intros (Hdom & Hmap & Hfl & Huniq & Hok & Herr & Hcalls & Hcre & Hev)
    Ei Hc' HD Hok' Herr'. cbn [fst snd] in *.
  unfold Inv. cbn [fst snd]. split_and!.
  - intros c0 [->|Hc]%insert_elem_inv; [done | by apply Hdom].
  - done.
  - intros j c0 [[_ ->]|[_ Hj]]%insert_lookup_inv H0; [congruence|].
    by apply (Hfl j).
  - intros j k cj ck [[_ ->]|[_ Hj]]%insert_lookup_inv
      [[_ ->]|[_ Hk]]%insert_lookup_inv Hcj Hck; try congruence.
    by apply (Huniq j k cj ck).
  - intros e [E|Hc]%insert_elem_inv; [by apply Hok' | by apply Hok].
  - intros e x [E|Hc]%insert_elem_inv;
      [by apply (Herr' e x) | by apply (Herr e x)].
  - done.
  - intros j e n [[_ E]|[_ Hj]]%insert_lookup_inv.
    + rewrite <- E in Hc'. done.
    + by apply (Hcre j e n).
  - done.
Qed.

Lemma Inv_step D i cf : inv D cf → inv D (stepI i cf).
Proof.
  destruct cf as [w cs]. unfold step. cbn [fst snd].
  destruct (cs !! i) as [c|] eqn:Ei; [|done].
  intros Hinv. pose proof Hinv as
    (Hdom & Hmap & Hfl & Huniq & Hok & Herr & Hcalls & Hcre & Hev).
  cbn [fst snd] in *.
  assert (Hi : (i < length cs)%nat) by by apply (lookup_lt_Some _ _ c).
  assert (HD : Domain (callerArg c) = D)
    by by apply Hdom, (list_elem_of_lookup_2 _ i).
  destruct c as [e|e n|e err n|e n|e err]; cbn [stepCaller]; cbn [callerArg] in HD.
  - (* Called *)
    rewrite HD. destruct (nodesOf sd w !! D) as [n|] eqn:Em.
    + by apply (Inv_quiet D w cs i (Called e)).
    + assert (Hnone : ∀ j c, cs !! j = Some c → inFlight c = true → False).
      { intros j c Hj Hc. destruct (Hfl j c Hj Hc) as (? & ? & _ & [=] & _). }
      unfold nodesOk in Hmap. rewrite Em in Hmap.
      assert (Hnodes : nodesOk sd D
                (setNodes sd (setHeap w (heap w ++ [NPending]))
                   (<[D := length (heap w)]> (nodesOf sd w)))).
      { unfold nodesOk.
        rewrite nodesOf_setNodes, heap_setNodes, lookup_insert_eq.
        cbn [heap setHeap]. split_and!.
        - rewrite length_app. simpl. lia.
        - left. by apply list_lookup_middle.
        - intros k st Hk. rewrite lookup_app_l by done. apply Hmap. }
      unfold Inv. cbn [fst snd].
      rewrite nodesOf_setNodes, heap_setNodes, calls_setNodes, lookup_insert_eq.
      cbn [heap setHeap calls]. split_and!.
      * intros c [->|Hc]%insert_elem_inv; [done | by apply Hdom].
      * done.
      * intros j c [[_ ->]|[_ Hj]]%insert_lookup_inv Hc.
        -- exists e, (length (heap w)). split_and!; [by left | done |].
           by apply list_lookup_middle.
        -- by destruct (Hnone j c).
      * intros j k cj ck [[-> ->]|[_ Hj]]%insert_lookup_inv
          [[-> ->]|[_ Hk]]%insert_lookup_inv Hcj Hck.
        -- done.
        -- by destruct (Hnone k ck).
        -- by destruct (Hnone j cj).
        -- by destruct (Hnone j cj).
      * intros e' [[=]|Hc]%insert_elem_inv.
        destruct (Hok e' Hc) as (n & [=] & _).
      * intros e' x [[=]|Hc]%insert_elem_inv.
        apply elem_of_app. left. by apply (Herr e' x).
      * rewrite length_app. simpl. lia.
      * intros j e' n' _. rewrite length_app. simpl. lia.
      * done.
  - (* Creating *)
    destruct (resolveAlone_eq e (calls w)) as (ip & err & ->).
    destruct (Hfl i _ Ei eq_refl) as (e0 & n0 & Hc0 & Hm0 & Hp0).
    assert (n0 = n) as -> by (destruct Hc0 as [[=]|[? [=]]]; done).
    unfold Inv. cbn [fst snd history setCalls heap calls].
    assert (Hn : ∀ evs, nodesOf sd (setCalls w evs) = nodesOf sd w)
      by (by destruct sd).
    rewrite Hn, HD. split_and!.
    + intros c [->|Hc]%insert_elem_inv; [done | by apply Hdom].
    + unfold nodesOk. by rewrite Hn.
    + intros j c [[_ ->]|[_ Hj]]%insert_lookup_inv Hc.
      * exists (setIP e ip), n. split_and!; [right; by eexists | done | done].
      * by apply (Hfl j).
    + intros j k cj ck [[-> ->]|[Hne Hj]]%insert_lookup_inv
        [[-> ->]|[Hne' Hk]]%insert_lookup_inv Hcj Hck.
      * done.
      * symmetry. by apply (Huniq k i ck _ Hk Ei).
      * by apply (Huniq j i cj _ Hj Ei).
      * by apply (Huniq j k cj ck).
    + intros e' [[=]|Hc]%insert_elem_inv. by apply Hok.
    + intros e' x [[=]|Hc]%insert_elem_inv. by apply (Herr e' x).
    + rewrite length_app. simpl. specialize (Hcre i e n Ei). lia.
    + intros j e' n' [[_ [=]]|[Hne Hj]]%insert_lookup_inv.
      destruct Hne. by apply (Huniq j i _ _ Hj Ei).
    + intros ev [Hev'|Hx]%elem_of_app; [by apply Hev|].
      by apply list_elem_of_singleton in Hx as ->.
  - (* Answered *)
    destruct (Hfl i _ Ei eq_refl) as (e0 & n0 & Hc0 & Hm0 & Hp0).
    assert (n0 = n) as -> by (destruct Hc0 as [[=]|[? [=]]]; done).
    assert (Hnone : ∀ j c, j ≠ i → cs !! j = Some c → inFlight c = true → False).
    { intros j c Hne Hj Hc. apply Hne. by apply (Huniq j i c _ Hj Ei). }
    assert (Hnook : ∀ e', Returned e' None ∈ cs → False).
    { intros e' Hc. destruct (Hok e' Hc) as (n' & Hn' & Hr).
      rewrite Hm0 in Hn'. injection Hn' as <-. congruence. }
    unfold nodesOk in Hmap. rewrite Hm0 in Hmap.
    destruct Hmap as (Hlen & _ & Hbelow).
    assert (Hnlt : (n < length (heap w))%nat) by lia.
    destruct err as [x|].
    + unfold Inv. cbn [fst snd].
      rewrite nodesOf_setNodes, heap_setNodes, calls_setNodes, HD, lookup_delete_eq.
      cbn [heap setHeap calls]. split_and!.
      * intros c [->|Hc]%insert_elem_inv; [done | by apply Hdom].
      * unfold nodesOk.
        rewrite nodesOf_setNodes, heap_setNodes, lookup_delete_eq.
        cbn [heap setHeap].
        intros k st Hk. destruct (decide (k = n)) as [->|Hne].
        -- rewrite list_lookup_insert_eq in Hk by done. by injection Hk as <-.
        -- rewrite list_lookup_insert_ne in Hk by done.
           apply (Hbelow k); [|done]. apply lookup_lt_Some in Hk. lia.
      * intros j c [[_ ->]|[Hne Hj]]%insert_lookup_inv Hc; [done|].
        by destruct (Hnone j c).
      * intros j k cj ck [[-> ->]|[Hne Hj]]%insert_lookup_inv
          [[-> ->]|[Hne' Hk]]%insert_lookup_inv Hcj Hck; try done.
        by destruct (Hnone j cj).
      * intros e' [[=]|Hc]%insert_elem_inv. by destruct (Hnook e').
      * intros e' x' _. apply (list_elem_of_lookup_2 _ n).
        by apply list_lookup_insert_eq.
      * by rewrite length_insert.
      * intros j e' n' [[_ [=]]|[Hne Hj]]%insert_lookup_inv.
        by destruct (Hnone j _ Hne Hj).
      * done.
    + unfold Inv. cbn [fst snd heap setHeap calls].
      assert (Hn : nodesOf sd (setHeap w (<[n := NReady (IP e)]> (heap w)))
                   = nodesOf sd w) by (by destruct sd).
      rewrite Hn, Hm0. split_and!.
      * intros c [->|Hc]%insert_elem_inv; [done | by apply Hdom].
      * unfold nodesOk. rewrite Hn, Hm0. cbn [heap setHeap]. split_and!.
        -- by rewrite length_insert.
        -- right. eexists. by apply list_lookup_insert_eq.
        -- intros k st Hk. rewrite list_lookup_insert_ne by lia. by apply Hbelow.
      * intros j c [[_ ->]|[Hne Hj]]%insert_lookup_inv Hc; [done|].
        by destruct (Hnone j c).
      * intros j k cj ck [[-> ->]|[Hne Hj]]%insert_lookup_inv
          [[-> ->]|[Hne' Hk]]%insert_lookup_inv Hcj Hck; try done.
        by destruct (Hnone j cj).
      * intros e' [[= -> ]|Hc]%insert_elem_inv; [|by destruct (Hnook e')].
        exists n. split; [done|]. by apply list_lookup_insert_eq.
      * intros e' x' [[=]|Hc]%insert_elem_inv.
        destruct (list_elem_of_lookup_1 _ _ (Herr e' x' Hc)) as [k Hk].
        apply (list_elem_of_lookup_2 _ k).
        rewrite list_lookup_insert_ne; [done|]. intros ->. congruence.
      * by rewrite length_insert.
      * intros j e' n' [[_ [=]]|[Hne Hj]]%insert_lookup_inv.
        by destruct (Hnone j _ Hne Hj).
      * done.
  - (* Waiting *)
    destruct (heap w !! n) as [[|text|]|] eqn:En; try done.
    + apply (Inv_quiet D w cs i (Waiting e n)); try done.
      intros e' [= <-]. cbn [IP setIP]. unfold nodesOk in Hmap.
      destruct (nodesOf sd w !! D) as [n'|].
      * destruct Hmap as (Hlen & _ & Hbelow). exists n'. split; [done|].
        pose proof (lookup_lt_Some _ _ _ En) as Hlt.
        destruct (decide (n = n')) as [->|Hne]; [done|].
        assert (NReady text = NFailed) by (apply (Hbelow n); [lia | done]).
        done.
      * by specialize (Hmap n _ En).
    + apply (Inv_quiet D w cs i (Waiting e n)); try done.
      intros e' x _. by apply (list_elem_of_lookup_2 _ n).
  - done.
Qed.

Lemma Inv_run D schedule cf : inv D cf → inv D (runS schedule cf).
Proof.
  revert cf. induction schedule as [|i schedule IH]; intros cf Hcf; [done|].
  apply IH. by apply Inv_step.
Qed.

Lemma failed_below (h : list NodeState) n :
  (∀ k st, (k < n)%nat → h !! k = Some st → st = NFailed) →
  (n ≤ length h)%nat →
  (n ≤ length (filter (fun st => st = NFailed) h))%nat.
Proof.
  revert n. induction h as [|x h IH]; intros n Hall Hn; simpl in Hn.
  - lia.
  - destruct n as [|m]; [lia|].
    assert (x = NFailed) as -> by (apply (Hall 0); [lia | done]).
    rewrite filter_cons_True by done. simpl.
    apply le_n_S, IH; [|lia].
    intros k st Hk Hst. apply (Hall (S k)); [lia | done].
Qed.

Lemma nodesOk_count D w :
  nodesOk sd D w → (length (heap w) ≤ S (failures w))%nat.
Proof.
  unfold nodesOk, failures. destruct (nodesOf sd w !! D) as [n|].
  - intros (Hlen & _ & Hbelow). rewrite <- Hlen.
    apply le_n_S, failed_below; [done | lia].
  - intros Hall. apply Nat.le_le_succ_r, failed_below; [|done].
    intros k st _. apply Hall.
Qed.

(** C5, as the code and the cache have it.  Callers of one path, all for
    the domain [D], called when the cache has no node at all, and moving in
    any order.  At most one of them is in flight at any time, and only a
    caller in flight asks the resolver (or the relay), so the resolver is
    never asked while a resolution for [D] is in flight; every call made is
    the call for [D], and there is at most one call more than resolutions
    have failed (one call at most when none fails).  The callers that
    return without an error all return the same IP.  A caller returns an
    error only when a resolution failed; then the errors need not agree:
    the creator returns the error of its resolution, a waiter the failure
    of the node. *)
Theorem callers_single_flight D es schedule :
  Forall (fun e => Domain e = D) es →
  (∀ i j ci cj,
     (run sd Name DNSResolver SendQueryReq ParseIP schedule (start es)).2 !! i
       = Some ci →
     (run sd Name DNSResolver SendQueryReq ParseIP schedule (start es)).2 !! j
       = Some cj →
     inFlight ci = true → inFlight cj = true → i = j) ∧
  (∀ ev,
     ev ∈ calls (run sd Name DNSResolver SendQueryReq ParseIP schedule
                     (start es)).1 →
     ev = theCall sd Name D) ∧
  (length (calls (run sd Name DNSResolver SendQueryReq ParseIP schedule
                      (start es)).1)
   ≤ S (failures (run sd Name DNSResolver SendQueryReq ParseIP schedule
                      (start es)).1))%nat ∧
  (∀ e1 e2,
     Returned e1 None
       ∈ (run sd Name DNSResolver SendQueryReq ParseIP schedule (start es)).2 →
     Returned e2 None
       ∈ (run sd Name DNSResolver SendQueryReq ParseIP schedule (start es)).2 →
     IP e1 = IP e2) ∧
  (∀ e x,
     Returned e (Some x)
       ∈ (run sd Name DNSResolver SendQueryReq ParseIP schedule (start es)).2 →
     (0 < failures (run sd Name DNSResolver SendQueryReq ParseIP schedule
                        (start es)).1)%nat).
Proof.
  intros Hes.
  destruct (Inv_run D schedule _ (Inv_start D es Hes))
    as (Hdom & Hmap & Hfl & Huniq & Hok & Herr & Hcalls & Hcre & Hev).
  split_and!.
  - exact Huniq.
  - exact Hev.
  - etrans; [exact Hcalls | by apply (nodesOk_count D)].
  - intros e1 e2 H1 H2.
    destruct (Hok e1 H1) as (n1 & Hn1 & Hr1).
    destruct (Hok e2 H2) as (n2 & Hn2 & Hr2).
    rewrite Hn1 in Hn2. injection Hn2 as <-. congruence.
  - intros e x Hc. specialize (Herr e x Hc). unfold failures.
    assert (NFailed ∈ filter (fun st => st = NFailed)
              (heap (runS schedule (start es)).1)) as Hin
      by by apply list_elem_of_filter.
    destruct (filter _ _); [by apply elem_of_nil in Hin | simpl; lia].
Qed.

(** One caller alone does what the function of the path does from the
    initial state: the same NetArg, the same error, the same calls. *)
Lemma lone_caller e :
  ∃ e' err s',
    match sd with
    | Local => resolvDNSByLocal DNSResolver e initState
    | Remote => resolvDNSByProxy Name SendQueryReq ParseIP e initState
    end = Some ((e', err), s') ∧
    (runS [0; 0; 0] (start [e])).2 = [Returned e' err] ∧
    calls (runS [0; 0; 0] (start [e])).1 = history s'.
Proof.
  unfold run, start, step, stepCaller, resolveAlone.
  cbn [fold_left map fst snd lookup list_lookup].
  destruct sd; cbn [nodesOf emptyWorld remoteNodes localNodes];
    rewrite lookup_empty.
  - rewrite (resolvDNSByProxy_miss Name SendQueryReq ParseIP e initState)
      by done. cbv zeta.
    unfold _resolvDNSByProxy, bind, sendQuery, replyErr, ret. simpl.
    destruct (SendQueryReq [] (Name +:+ " " +:+ Domain e)) as [reply qerr].
    simpl. destruct (ParseIP reply); simpl; by eexists _, _, _.
  - rewrite (resolvDNSByLocal_miss DNSResolver e initState) by done.
    unfold _resolvDNSByLocal, bind, callDNSResolver, ret. simpl.
    destruct (DNSResolver [] (Domain e)) as [ip [err|]]; simpl;
      by eexists _, _, _.
Qed.

End SingleFlight.

(** ** Strings *)

Section Strings.

Implicit Types (s t u : string) (c sep : ascii).

#[local] Arguments String.append !_ _ / : simpl nomatch.

Lemma append_assoc s t u : (s +:+ t) +:+ u = s +:+ (t +:+ u).
Proof. induction s as [|c s IH]; simpl; [done | by rewrite IH]. Qed.

Lemma append_empty_r s : s +:+ "" = s.
Proof. induction s as [|c s IH]; simpl; [done | by rewrite IH]. Qed.

Lemma bytes_append s t : bytes (s +:+ t) = bytes s ++ bytes t.
Proof. induction s as [|c s IH]; simpl; [done | by rewrite IH]. Qed.

Lemma bytes_inj s t : bytes s = bytes t → s = t.
Proof.
  revert t. induction s as [|c s IH]; intros [|d t]; simpl; try done.
  intros [= -> H]. by rewrite (IH _ H).
Qed.

Lemma eqb_false c d : c ≠ d → Ascii.eqb c d = false.
Proof. intros H. by destruct (Ascii.eqb_spec c d). Qed.

(** *** [Split] *)

Lemma Split_nonempty sep s : ∃ p ps, Split sep s = p :: ps.
Proof.
  induction s as [|c s (p & ps & IH)]; simpl; [by eexists _, _|].
  destruct (Ascii.eqb c sep); [by eexists _, _|].
  rewrite IH. by eexists _, _.
Qed.

Lemma Split_length sep s : (1 ≤ length (Split sep s))%nat.
Proof. destruct (Split_nonempty sep s) as (p & ps & ->). simpl. lia. Qed.

(** A separator after a piece without separators ends the first piece. *)
Lemma Split_append_sep sep s t :
  sep ∉ bytes s → Split sep (s +:+ String sep t) = s :: Split sep t.
Proof.
  induction s as [|c s IH]; simpl; intros Hs.
  - by rewrite Ascii.eqb_refl.
  - rewrite eqb_false by set_solver. rewrite IH by set_solver. done.
Qed.

Lemma Split_no_sep sep s : sep ∉ bytes s → Split sep s = [s].
Proof.
  induction s as [|c s IH]; simpl; intros Hs; [done|].
  rewrite eqb_false by set_solver. by rewrite IH by set_solver.
Qed.

(** The pieces hold no separator, and only bytes of the string. *)
Lemma Split_pieces sep s p :
  p ∈ Split sep s → (sep ∉ bytes p) ∧ bytes p ⊆ bytes s.
Proof.
  revert p. induction s as [|c s IH]; simpl; intros p Hp.
  - apply list_elem_of_singleton in Hp as ->. set_solver.
  - destruct (Ascii.eqb_spec c sep) as [->|Hne].
    + apply elem_of_cons in Hp as [->|Hp]; [set_solver|].
      destruct (IH _ Hp). set_solver.
    + destruct (Split_nonempty sep s) as (q & qs & E). rewrite E in *.
      apply elem_of_cons in Hp as [->|Hp].
      * destruct (IH q) as [H1 H2]; [set_solver|]. simpl. set_solver.
      * destruct (IH p) as [H1 H2]; [set_solver|]. set_solver.
Qed.

(** Joining the pieces with the separator gives the string back. *)
Lemma joinFrom_append sep s t items :
  joinFrom sep (s +:+ t) items = s +:+ joinFrom sep t items.
Proof.
  revert t. induction items as [|i items IH]; intros t; simpl; [done|].
  rewrite <- IH. by rewrite append_assoc.
Qed.

Lemma joinFrom_Split sep s p ps :
  Split sep s = p :: ps → joinFrom sep p ps = s.
Proof.
  revert p ps. induction s as [|c s IH]; simpl; intros p ps E.
  - by injection E as <- <-.
  - destruct (Ascii.eqb_spec c sep) as [->|Hne].
    + injection E as <- <-.
      destruct (Split_nonempty sep s) as (q & qs & Eq). rewrite Eq.
      simpl. change (String sep q) with (String sep "" +:+ q).
      rewrite joinFrom_append. simpl. f_equal. by apply IH.
    + destruct (Split_nonempty sep s) as (q & qs & Eq). rewrite Eq in E.
      injection E as <- <-.
      change (String c q) with (String c "" +:+ q).
      rewrite joinFrom_append. simpl. f_equal. by apply IH.
Qed.

(** *** [TrimSpace] *)

(** A byte below 0x80 is in no encoding of two or three bytes. *)
Lemma isByte_low n c :
  (nat_of_ascii c < 128)%nat → (128 ≤ n)%nat → isByte n c = false.
Proof. intros Hc Hn. unfold isByte. apply Nat.eqb_neq. lia. Qed.

Lemma space2_low_l c1 c2 : (nat_of_ascii c1 < 128)%nat → space2 c1 c2 = false.
Proof. intros H. unfold space2. by rewrite (isByte_low 194 c1) by lia. Qed.

Lemma space2_low_r c1 c2 : (nat_of_ascii c2 < 128)%nat → space2 c1 c2 = false.
Proof.
  intros H. unfold space2.
  rewrite (isByte_low 133 c2), (isByte_low 160 c2) by lia.
  by rewrite andb_false_r.
Qed.

Lemma space3_low_1 c1 c2 c3 :
  (nat_of_ascii c1 < 128)%nat → space3 c1 c2 c3 = false.
Proof.
  intros H. unfold space3.
  by rewrite (isByte_low 225 c1), (isByte_low 226 c1), (isByte_low 227 c1)
    by lia.
Qed.

Lemma space3_low_2 c1 c2 c3 :
  (nat_of_ascii c2 < 128)%nat → space3 c1 c2 c3 = false.
Proof.
  intros H. unfold space3.
  rewrite (isByte_low 154 c2), (isByte_low 128 c2), (isByte_low 129 c2)
    by lia.
  cbn [andb orb]. by rewrite !andb_false_r.
Qed.

Lemma space3_low_3 c1 c2 c3 :
  (nat_of_ascii c3 < 128)%nat → space3 c1 c2 c3 = false.
Proof.
  intros H. unfold space3.
  rewrite (isByte_low 128 c3), (isByte_low 159 c3), (isByte_low 168 c3),
    (isByte_low 169 c3), (isByte_low 175 c3) by lia.
  assert (Nat.leb 128 (nat_of_ascii c3) = false) as -> by (apply Nat.leb_gt; lia).
  cbn [andb orb]. by rewrite !andb_false_r.
Qed.

Lemma isSpace_low c : isSpace c = true → (nat_of_ascii c < 128)%nat.
Proof.
  unfold isSpace. intros [[H1 H2]%andb_prop|H]%orb_prop.
  - apply Nat.leb_le in H2. lia.
  - apply Nat.eqb_eq in H. lia.
Qed.

Lemma isSpace_space2 c1 c2 : isSpace c1 = true → space2 c1 c2 = false.
Proof. intros H%isSpace_low. by apply space2_low_l. Qed.

Lemma isSpace_space3 c1 c2 c3 : isSpace c1 = true → space3 c1 c2 c3 = false.
Proof. intros H%isSpace_low. by apply space3_low_1. Qed.

(** [TrimLeft] follows its recursion: by the length of the string. *)
Lemma string_length_ind (P : string → Prop) :
  (∀ s, (∀ t, (String.length t < String.length s)%nat → P t) → P s) →
  ∀ s, P s.
Proof.
  intros H s. induction s as [s IH] using (induction_ltof1 _ String.length).
  apply H. intros t Ht. by apply IH.
Qed.

Lemma isSpaceCode_length p :
  isSpaceCode p = true → (0 < String.length p)%nat.
Proof. destruct p; [done | simpl; lia]. Qed.

Lemma String_length_append s t :
  String.length (s +:+ t) = (String.length s + String.length t)%nat.
Proof. induction s as [|c s IH]; simpl; [done | by rewrite IH]. Qed.

(** [TrimLeft] drops one white-space code point after the other. *)
Lemma TrimLeft_code p t :
  isSpaceCode p = true → TrimLeft (p +:+ t) = TrimLeft t.
Proof.
  destruct p as [|c1 [|c2 [|c3 [|c4 r]]]]; cbn [isSpaceCode]; try done;
    intros E; simpl.
  - by rewrite E.
  - destruct (isSpace c1) eqn:E1; [|by rewrite E].
    by rewrite (isSpace_space2 _ c2 E1) in E.
  - destruct (isSpace c1) eqn:E1.
    { by rewrite (isSpace_space3 _ c2 c3 E1) in E. }
    destruct (space2 c1 c2) eqn:E2; [|by rewrite E].
    exfalso. unfold space2 in E2. unfold space3 in E.
    apply andb_prop in E2 as [H1 _]. apply Nat.eqb_eq in H1.
    unfold isByte in E. rewrite H1 in E. done.
Qed.

Lemma TrimLeft_cases s :
  (startsSpace s = false ∧ TrimLeft s = s) ∨
  (∃ p t, s = p +:+ t ∧ isSpaceCode p = true ∧ startsSpace s = true ∧
          TrimLeft s = TrimLeft t).
Proof.
  destruct s as [|c1 r1]; [by left|].
  destruct (isSpace c1) eqn:E1.
  { right. exists (String c1 ""), r1. cbn [TrimLeft startsSpace].
    by rewrite E1. }
  destruct r1 as [|c2 r2].
  { left. cbn [TrimLeft startsSpace]. by rewrite E1. }
  destruct (space2 c1 c2) eqn:E2.
  { right. exists (String c1 (String c2 "")), r2. cbn [TrimLeft startsSpace].
    by rewrite E1, E2. }
  destruct r2 as [|c3 r3].
  { left. cbn [TrimLeft startsSpace]. by rewrite E1, E2. }
  destruct (space3 c1 c2 c3) eqn:E3.
  - right. exists (String c1 (String c2 (String c3 ""))), r3.
    cbn [TrimLeft startsSpace]. by rewrite E1, E2, E3.
  - left. cbn [TrimLeft startsSpace]. by rewrite E1, E2, E3.
Qed.

Lemma TrimLeft_length s : (String.length (TrimLeft s) ≤ String.length s)%nat.
Proof.
  induction s as [s IH] using string_length_ind.
  destruct (TrimLeft_cases s) as [[_ ->]|(p & t & -> & Hp & _ & ->)]; [done|].
  apply isSpaceCode_length in Hp. rewrite String_length_append.
  etrans; [apply IH; rewrite String_length_append|]; lia.
Qed.

Lemma TrimLeft_fixed s : startsSpace s = false → TrimLeft s = s.
Proof.
  intros Hs.
  destruct (TrimLeft_cases s) as [[_ ->]|(p & t & _ & _ & E & _)];
    [done | congruence].
Qed.

Lemma TrimLeft_starts s : startsSpace (TrimLeft s) = false.
Proof.
  induction s as [s IH] using string_length_ind.
  destruct (TrimLeft_cases s) as [[E ->]|(p & t & -> & Hp & _ & ->)]; [done|].
  apply IH. apply isSpaceCode_length in Hp. rewrite String_length_append. lia.
Qed.

Lemma TrimLeft_shorter s :
  startsSpace s = true → (String.length (TrimLeft s) < String.length s)%nat.
Proof.
  intros Hs.
  destruct (TrimLeft_cases s) as [[E _]|(p & t & -> & Hp & _ & ->)];
    [congruence|].
  apply isSpaceCode_length in Hp. rewrite String_length_append.
  pose proof (TrimLeft_length t). lia.
Qed.

Lemma TrimLeft_bytes s : bytes (TrimLeft s) ⊆ bytes s.
Proof.
  induction s as [s IH] using string_length_ind.
  destruct (TrimLeft_cases s) as [[_ ->]|(p & t & -> & Hp & _ & ->)]; [done|].
  apply isSpaceCode_length in Hp. rewrite bytes_append.
  etrans; [apply IH; rewrite String_length_append; lia | set_solver].
Qed.

Lemma TrimRight_cons c r :
  TrimRight (String c r)
    = if isSpaceCode (String c (TrimRight r)) then ""
      else String c (TrimRight r).
Proof. done. Qed.

Lemma TrimRight_bytes s : bytes (TrimRight s) ⊆ bytes s.
Proof.
  induction s as [|c s IH]; [done|]. rewrite TrimRight_cons.
  destruct (isSpaceCode _); simpl; set_solver.
Qed.

Lemma TrimRight_length s : (String.length (TrimRight s) ≤ String.length s)%nat.
Proof.
  induction s as [|c s IH]; [done|]. rewrite TrimRight_cons.
  destruct (isSpaceCode _); simpl; lia.
Qed.

Lemma TrimSpace_bytes s : bytes (TrimSpace s) ⊆ bytes s.
Proof.
  unfold TrimSpace. etrans; [apply TrimRight_bytes | apply TrimLeft_bytes].
Qed.

Lemma TrimRight_idem s : TrimRight (TrimRight s) = TrimRight s.
Proof.
  induction s as [|c s IH]; [done|]. rewrite TrimRight_cons.
  destruct (isSpaceCode (String c (TrimRight s))) eqn:E; [done|].
  by rewrite TrimRight_cons, IH, E.
Qed.

(** What [TrimRight] returns is a prefix of the string. *)
Lemma TrimRight_prefix s : ∃ q, s = TrimRight s +:+ q.
Proof.
  induction s as [|c s [q IH]]; [by exists ""|]. rewrite TrimRight_cons.
  destruct (isSpaceCode _).
  - by eexists.
  - exists q. simpl. by rewrite <- IH.
Qed.

Lemma startsSpace_append s q :
  startsSpace s = true → startsSpace (s +:+ q) = true.
Proof.
  destruct s as [|c1 [|c2 [|c3 r3]]]; cbn [startsSpace]; [done|..].
  - rewrite orb_false_r. intros E. simpl. by rewrite E.
  - rewrite orb_false_r. intros [E|E]%orb_prop; simpl; rewrite E; [done|].
    destruct q; by rewrite orb_true_r.
  - intros E. simpl. exact E.
Qed.

Lemma TrimRight_starts s :
  startsSpace s = false → startsSpace (TrimRight s) = false.
Proof.
  intros Hs. destruct (TrimRight_prefix s) as [q Hq].
  destruct (startsSpace (TrimRight s)) eqn:E; [|done].
  apply (startsSpace_append _ q) in E. congruence.
Qed.

Lemma TrimSpace_idem s : TrimSpace (TrimSpace s) = TrimSpace s.
Proof.
  unfold TrimSpace.
  rewrite (TrimLeft_fixed (TrimRight (TrimLeft s))).
  - apply TrimRight_idem.
  - apply TrimRight_starts, TrimLeft_starts.
Qed.

(** A string [TrimSpace] leaves as it is starts with no white space, and
    [TrimRight] leaves it as it is. *)
Lemma TrimSpace_fixed s :
  TrimSpace s = s → startsSpace s = false ∧ TrimRight s = s.
Proof.
  unfold TrimSpace. intros Hs.
  assert (H : startsSpace s = false).
  { destruct (startsSpace s) eqn:E; [|done].
    pose proof (TrimLeft_shorter s E).
    pose proof (TrimRight_length (TrimLeft s)). rewrite Hs in *. lia. }
  split; [done|]. by rewrite (TrimLeft_fixed s H) in Hs.
Qed.

Lemma TrimRight_append_space s : TrimRight (s +:+ " ") = TrimRight s.
Proof.
  induction s as [|c s IH]; [done|].
  change (String c s +:+ " ") with (String c (s +:+ " ")).
  by rewrite !TrimRight_cons, IH.
Qed.

Lemma startsSpace_append_space s :
  s ≠ "" → startsSpace s = false → startsSpace (s +:+ " ") = false.
Proof.
  assert (Hl : (nat_of_ascii " " < 128)%nat) by (vm_compute; lia).
  destruct s as [|c1 [|c2 [|c3 r3]]]; cbn [startsSpace]; [done|..]; intros _.
  - rewrite orb_false_r. intros E. simpl.
    by rewrite E, (space2_low_r c1 " " Hl).
  - intros [E1 [E2 _]%orb_false_elim]%orb_false_elim. simpl.
    by rewrite E1, E2, (space3_low_3 c1 c2 " " Hl).
  - intros E. simpl. exact E.
Qed.

(** A trimmed string followed by a space, or following one, trims to
    itself. *)
Lemma TrimSpace_append_space s :
  TrimSpace s = s → TrimSpace (s +:+ " ") = s.
Proof.
  intros [Hst Hr]%TrimSpace_fixed. destruct (decide (s = "")) as [->|Hne];
    [done|].
  unfold TrimSpace.
  rewrite (TrimLeft_fixed _ (startsSpace_append_space s Hne Hst)).
  by rewrite TrimRight_append_space.
Qed.

Lemma TrimSpace_cons_space s : TrimSpace (String " " s) = TrimSpace s.
Proof. done. Qed.

(** *** A function of bytes under [TrimSpace]

    A function that keeps the bytes from 0x80 on, keeps the bytes below
    below, and keeps white space white space and the rest the rest, goes
    through [TrimSpace]. *)
Section MapBytes.

Variable f : ascii → ascii.
Hypothesis f_space : ∀ c, isSpace (f c) = isSpace c.
Hypothesis f_high : ∀ c, (128 ≤ nat_of_ascii c)%nat → f c = c.
Hypothesis f_low : ∀ c, (nat_of_ascii c < 128)%nat → (nat_of_ascii (f c) < 128)%nat.

Lemma space2_map c1 c2 : space2 (f c1) (f c2) = space2 c1 c2.
Proof.
  destruct (Nat.lt_ge_cases (nat_of_ascii c1) 128) as [H1|H1].
  { by rewrite !space2_low_l by auto. }
  destruct (Nat.lt_ge_cases (nat_of_ascii c2) 128) as [H2|H2].
  { by rewrite !space2_low_r by auto. }
  by rewrite !f_high.
Qed.

Lemma space3_map c1 c2 c3 : space3 (f c1) (f c2) (f c3) = space3 c1 c2 c3.
Proof.
  destruct (Nat.lt_ge_cases (nat_of_ascii c1) 128) as [H1|H1].
  { by rewrite !space3_low_1 by auto. }
  destruct (Nat.lt_ge_cases (nat_of_ascii c2) 128) as [H2|H2].
  { by rewrite !space3_low_2 by auto. }
  destruct (Nat.lt_ge_cases (nat_of_ascii c3) 128) as [H3|H3].
  { by rewrite !space3_low_3 by auto. }
  by rewrite !f_high.
Qed.

Lemma isSpaceCode_map s : isSpaceCode (mapBytes f s) = isSpaceCode s.
Proof.
  destruct s as [|c1 [|c2 [|c3 [|c4 r]]]]; cbn [mapBytes isSpaceCode];
    auto using space2_map, space3_map.
Qed.

Lemma mapBytes_append s t :
  mapBytes f (s +:+ t) = mapBytes f s +:+ mapBytes f t.
Proof. induction s as [|c s IH]; simpl; [done | by rewrite IH]. Qed.

Lemma startsSpace_map s : startsSpace (mapBytes f s) = startsSpace s.
Proof.
  destruct s as [|c1 [|c2 [|c3 r3]]]; cbn [mapBytes startsSpace];
    by rewrite ?f_space, ?space2_map, ?space3_map.
Qed.

Lemma TrimLeft_map s : TrimLeft (mapBytes f s) = mapBytes f (TrimLeft s).
Proof.
  induction s as [s IH] using string_length_ind.
  destruct (TrimLeft_cases s) as [[E ->]|(p & t & -> & Hp & _ & ->)].
  - apply TrimLeft_fixed. by rewrite startsSpace_map.
  - rewrite mapBytes_append, TrimLeft_code by by rewrite isSpaceCode_map.
    apply IH. apply isSpaceCode_length in Hp.
    rewrite String_length_append. lia.
Qed.

Lemma TrimRight_map s : TrimRight (mapBytes f s) = mapBytes f (TrimRight s).
Proof.
  induction s as [|c s IH]; [done|]. cbn [mapBytes].
  rewrite !TrimRight_cons, IH.
  change (String (f c) (mapBytes f (TrimRight s)))
    with (mapBytes f (String c (TrimRight s))).
  rewrite isSpaceCode_map. by destruct (isSpaceCode _).
Qed.

Lemma TrimSpace_map s : TrimSpace (mapBytes f s) = mapBytes f (TrimSpace s).
Proof. unfold TrimSpace. by rewrite TrimLeft_map, TrimRight_map. Qed.

End MapBytes.

(** *** Words of bytes below 0x80 *)

Lemma TrimSpace_word s :
  s ≠ "" →
  Forall (fun c => isSpace c = false ∧ (nat_of_ascii c < 128)%nat) (bytes s) →
  TrimSpace s = s.
Proof.
  intros Hne Hall. unfold TrimSpace.
  assert (Hst : startsSpace s = false).
  { destruct s as [|c1 r1]; [done|]. cbn [bytes] in Hall.
    apply Forall_cons in Hall as [[H1 Hl] _]. cbn [startsSpace]. rewrite H1.
    destruct r1 as [|c2 [|c3 r3]]; [done|..];
      by rewrite ?(space2_low_l c1 c2 Hl), ?(space3_low_1 c1 c2 c3 Hl). }
  rewrite (TrimLeft_fixed s Hst). clear Hne Hst.
  induction s as [|c s IH]; [done|]. cbn [bytes] in Hall.
  apply Forall_cons in Hall as [[H1 Hl] Hall].
  rewrite TrimRight_cons, (IH Hall).
  destruct s as [|c2 [|c3 [|c4 r]]]; cbn [isSpaceCode];
    by rewrite ?H1, ?(space2_low_l c c2 Hl), ?(space3_low_1 c c2 c3 Hl).
Qed.

End Strings.

(** ** [getKeyValues] and [exportKeyValues] *)

Section KeyValues.

Import Controler.

Implicit Types (m : gmap string string) (keys lines : list string).

Lemma getKeyValues_loop_eq lines m keys :
  getKeyValues_loop lines m keys
    = (fold_left store lines m, keys ++ omap keyOf lines).
Proof.
  revert m keys. induction lines as [|line lines IH]; intros m keys; simpl.
  - by rewrite app_nil_r.
  - unfold store at 2, keyOf at 1, parseLine.
    destruct (length (Split "=" line)) as [|[|n]]; simpl; try apply IH.
    rewrite IH. by rewrite <- app_assoc.
Qed.

Lemma joinValue_cons p q qs : joinValue (p :: q :: qs) = joinFrom "=" q qs.
Proof. done. Qed.

Lemma joinFrom_cons sep p q qs :
  joinFrom sep p (q :: qs) = p +:+ String sep "" +:+ joinFrom sep q qs.
Proof.
  change (joinFrom sep p (q :: qs))
    with (joinFrom sep (p +:+ String sep "" +:+ q) qs).
  by rewrite <- append_assoc, !joinFrom_append, append_assoc.
Qed.

Lemma joinValue_bytes line :
  (2 ≤ length (Split "=" line))%nat →
  bytes (joinValue (Split "=" line)) ⊆ bytes line.
Proof.
  intros Hlen.
  destruct (Split "=" line) as [|p [|q qs]] eqn:E; simpl in Hlen; try lia.
  pose proof (joinFrom_Split _ _ _ _ E) as Hj.
  rewrite joinValue_cons. rewrite <- Hj, joinFrom_cons, !bytes_append.
  set_solver.
Qed.

Lemma parseLine_good line key value :
  LF ∉ bytes line →
  parseLine line = Some (key, value) →
  goodKey key ∧ goodValue value.
Proof.
  unfold parseLine. intros Hlf.
  destruct (Nat.leb_spec 2 (length (Split "=" line))) as [Hlen|]; [|done].
  intros [= <- <-].
  destruct (Split_nonempty "=" line) as (p & ps & E).
  assert (Hp : ("="%char ∉ bytes p) ∧ bytes p ⊆ bytes line).
  { apply Split_pieces. rewrite E. set_solver. }
  pose proof (joinValue_bytes line Hlen) as Hv.
  rewrite E in *. simpl.
  pose proof (TrimSpace_bytes p).
  pose proof (TrimSpace_bytes (joinValue (p :: ps))).
  unfold goodKey, goodValue.
  split_and!; try apply TrimSpace_idem; set_solver.
Qed.

(** The line written for a good key and a good value is read back as that
    key and that value. *)
Lemma parseLine_export key value :
  goodKey key → goodValue value →
  parseLine (key +:+ " = " +:+ value) = Some (key, value).
Proof.
  intros (Hk & Heq & _) (Hv & _).
  assert (E : Split "=" (key +:+ " = " +:+ value)
              = (key +:+ " ") :: Split "=" (String " " value)).
  { change (" = " +:+ value) with (" " +:+ String "=" (String " " value)).
    rewrite <- append_assoc. apply Split_append_sep.
    rewrite bytes_append. simpl.
    assert (" "%char ≠ "="%char) by done. set_solver. }
  unfold parseLine. rewrite E.
  destruct (Split_nonempty "=" (String " " value)) as (q & qs & Eq).
  rewrite Eq. simpl. f_equal. f_equal.
  - by apply TrimSpace_append_space.
  - rewrite joinValue_cons. by rewrite (joinFrom_Split _ _ _ _ Eq).
Qed.

(** *** The text [exportKeyValues] writes and its lines *)

Lemma exportKeyValues_eq m keys :
  exportKeyValues m keys
    = fold_right (fun key text => exportLine m key +:+ CRLF +:+ text) "" keys.
Proof.
  unfold exportKeyValues.
  assert (H : ∀ acc,
    fold_left (fun result key =>
                 result +:+ key +:+ " = " +:+ mapGet m key +:+ CRLF) keys acc
    = acc +:+ fold_right
                (fun key text => exportLine m key +:+ CRLF +:+ text) "" keys).
  { induction keys as [|k keys IH]; intros acc; simpl.
    - by rewrite append_empty_r.
    - rewrite IH. unfold exportLine. by rewrite !append_assoc. }
  by rewrite H.
Qed.

Lemma dropCR_append_CR s : dropCR (s +:+ String CR "") = s.
Proof.
  induction s as [|c s IH]; [done|].
  change (String c s +:+ String CR "") with (String c (s +:+ String CR "")).
  destruct s as [|d s]; [done|].
  change (dropCR (String c (String d s +:+ String CR "")))
    with (String c (dropCR (String d s +:+ String CR ""))).
  by rewrite IH.
Qed.

Lemma dropLastEmpty_cons p q qs :
  dropLastEmpty (p :: q :: qs) = p :: dropLastEmpty (q :: qs).
Proof. done. Qed.

Lemma linesOf_line s text :
  LF ∉ bytes s → linesOf (s +:+ CRLF +:+ text) = s :: linesOf text.
Proof.
  intros Hs. unfold linesOf.
  replace (s +:+ CRLF +:+ text)
    with ((s +:+ String CR "") +:+ String LF text)
    by (by rewrite append_assoc).
  rewrite Split_append_sep.
  - destruct (Split_nonempty LF text) as (q & qs & ->).
    rewrite dropLastEmpty_cons. simpl map. by rewrite dropCR_append_CR.
  - rewrite bytes_append. simpl.
    assert (LF ≠ CR) by done. set_solver.
Qed.

Lemma exportLine_no_LF m key :
  LF ∉ bytes key → LF ∉ bytes (mapGet m key) → LF ∉ bytes (exportLine m key).
Proof.
  intros Hk Hv. unfold exportLine. rewrite !bytes_append. simpl.
  assert (LF ≠ " "%char) by done. assert (LF ≠ "="%char) by done.
  set_solver.
Qed.

Lemma linesOf_export m keys :
  Forall (fun key => (LF ∉ bytes key) ∧ LF ∉ bytes (mapGet m key)) keys →
  linesOf (exportKeyValues m keys) = map (exportLine m) keys.
Proof.
  intros Hkeys. rewrite exportKeyValues_eq.
  induction Hkeys as [|k keys [Hk Hv] _ IH]; simpl; [done|].
  rewrite linesOf_line by by apply exportLine_no_LF. by rewrite IH.
Qed.

(** *** The first parse *)

Lemma store_good m line :
  LF ∉ bytes line → map_Forall goodEntry m → map_Forall goodEntry (store m line).
Proof.
  intros Hlf Hm. unfold store.
  destruct (parseLine line) as [[key value]|] eqn:E; [|done].
  apply map_Forall_insert_2; [|done]. by apply (parseLine_good line).
Qed.

Lemma fold_store_good lines m :
  Forall (fun line => LF ∉ bytes line) lines →
  map_Forall goodEntry m → map_Forall goodEntry (fold_left store lines m).
Proof.
  intros Hlines. revert m.
  induction Hlines as [|line lines Hlf _ IH]; intros m Hm; simpl; [done|].
  apply IH. by apply store_good.
Qed.

Lemma store_lookup m line k :
  is_Some (store m line !! k) ↔ is_Some (m !! k) ∨ keyOf line = Some k.
Proof.
  unfold store, keyOf.
  destruct (parseLine line) as [[key value]|]; simpl.
  - rewrite lookup_insert_is_Some. split.
    + intros [->|[_ H]]; [by right | by left].
    + intros [H|[= ->]]; [|by left].
      destruct (decide (key = k)); [by left | by right].
  - split; [by left | by intros [H|H]].
Qed.

Lemma fold_store_lookup lines m k :
  is_Some (fold_left store lines m !! k)
  ↔ is_Some (m !! k) ∨ k ∈ omap keyOf lines.
Proof.
  revert m. induction lines as [|line lines IH]; intros m; simpl.
  - set_solver.
  - rewrite IH, store_lookup.
    destruct (keyOf line) as [k'|] eqn:E; [|naive_solver].
    rewrite elem_of_cons. naive_solver.
Qed.

(** *** The second parse *)

Lemma store_exportLine m acc key :
  goodKey key → goodValue (mapGet m key) →
  store acc (exportLine m key) = <[key := mapGet m key]> acc ∧
  keyOf (exportLine m key) = Some key.
Proof.
  intros Hk Hv. unfold store, keyOf, exportLine.
  by rewrite (parseLine_export _ _ Hk Hv).
Qed.

Lemma fold_insert_lookup (f : string → string) keys
    (acc : gmap string string) k :
  fold_left (fun acc key => <[key := f key]> acc) keys acc !! k
    = if decide (k ∈ keys) then Some (f k) else acc !! k.
Proof.
  revert acc. induction keys as [|key keys IH]; intros acc; simpl.
  - done.
  - rewrite IH. destruct (decide (k ∈ keys)) as [Hin|Hnin].
    + by rewrite decide_True by set_solver.
    + destruct (decide (key = k)) as [->|Hne].
      * rewrite decide_True by set_solver. by rewrite lookup_insert_eq.
      * rewrite decide_False by set_solver. by rewrite lookup_insert_ne.
Qed.

Lemma reparse_exported m keys (acc : gmap string string) keys0 :
  Forall (fun key => goodKey key ∧ goodValue (mapGet m key)) keys →
  getKeyValues_loop (map (exportLine m) keys) acc keys0
    = (fold_left (fun acc key => <[key := mapGet m key]> acc) keys acc,
       keys0 ++ keys).
Proof.
  intros Hkeys. rewrite getKeyValues_loop_eq. revert acc keys0.
  induction Hkeys as [|key keys [Hk Hv] _ IH]; intros acc keys0; simpl.
  - done.
  - destruct (store_exportLine m acc key Hk Hv) as [-> ->].
    specialize (IH (<[key := mapGet m key]> acc) (keys0 ++ [key])).
    rewrite <- !app_assoc in IH. exact IH.
Qed.

(** C8.  For configuration lines (strings without a line feed): parse them
    with [getKeyValues], write the keys and the map with
    [exportKeyValues], cut the text into its lines and parse those; the
    second parse gives the map of the first, for every key, and the same
    list of keys. *)
Theorem getKeyValues_export_roundtrip lines :
  Forall (fun line => LF ∉ bytes line) lines →
  getKeyValues
    (linesOf (exportKeyValues (getKeyValues lines).1 (getKeyValues lines).2))
    = getKeyValues lines.
Proof.
  intros Hlines. unfold getKeyValues at 2 3 4.
  rewrite getKeyValues_loop_eq. simpl fst. simpl snd.
  set (m := fold_left store lines ∅). set (keys := omap keyOf lines).
  assert (Hm : map_Forall goodEntry m).
  { apply fold_store_good; [done | apply map_Forall_empty]. }
  assert (Hin : ∀ k, k ∈ keys ↔ is_Some (m !! k)).
  { intros k. unfold m. rewrite fold_store_lookup, lookup_empty.
    split; [by right | intros [[? [=]]|H]; done]. }
  assert (Hkeys : Forall (fun key => goodKey key ∧ goodValue (mapGet m key))
                         keys).
  { apply Forall_forall. intros k Hk. apply Hin in Hk as [v Hv].
    unfold mapGet. rewrite Hv. by apply (Hm k v). }
  rewrite linesOf_export.
  2:{ eapply Forall_impl; [exact Hkeys|]. simpl.
      intros k [(_ & _ & Hk) (_ & Hv)]. done. }
  unfold getKeyValues. rewrite (reparse_exported m keys ∅ [] Hkeys).
  f_equal. apply map_eq. intros k.
  rewrite fold_insert_lookup. destruct (decide (k ∈ keys)) as [Hk|Hk].
  - apply Hin in Hk as [v Hv]. unfold mapGet. by rewrite Hv.
  - rewrite lookup_empty. symmetry. apply eq_None_not_Some.
    by rewrite <- Hin.
Qed.

End KeyValues.

(** ** [readLines] and [readHosts] *)

Section Hosts.

Import Controler.

Implicit Types (s t : string) (c : ascii) (m : gmap string string).

#[local] Arguments String.append !_ _ / : simpl nomatch.

(** *** Letters *)

Lemma isUpper_lowerByte c : isUpper (lowerByte c) = false.
Proof. by destruct c as [[] [] [] [] [] [] [] []]. Qed.

Lemma isSpace_lowerByte c : isSpace (lowerByte c) = isSpace c.
Proof. by destruct c as [[] [] [] [] [] [] [] []]. Qed.

Lemma lowerByte_hash c : Ascii.eqb (lowerByte c) "#" = Ascii.eqb c "#".
Proof. by destruct c as [[] [] [] [] [] [] [] []]. Qed.

Lemma lowerByte_tab c : Ascii.eqb (lowerByte c) TAB = Ascii.eqb c TAB.
Proof. by destruct c as [[] [] [] [] [] [] [] []]. Qed.

Lemma lowerByte_high c : (128 ≤ nat_of_ascii c)%nat → lowerByte c = c.
Proof.
  intros H. unfold lowerByte.
  destruct (Nat.leb_spec (nat_of_ascii c) 90); [lia|].
  by rewrite andb_false_r.
Qed.

Lemma lowerByte_low c :
  (nat_of_ascii c < 128)%nat → (nat_of_ascii (lowerByte c) < 128)%nat.
Proof.
  intros H. unfold lowerByte.
  destruct (Nat.leb_spec 65 (nat_of_ascii c)) as [H1|]; [|done].
  destruct (Nat.leb_spec (nat_of_ascii c) 90) as [H2|]; [|done].
  cbn [andb]. rewrite nat_ascii_embedding; lia.
Qed.

Lemma hasUpper_lowerBytes s : hasUpper (lowerBytes s) = false.
Proof.
  unfold hasUpper. induction s as [|c s IH]; simpl; [done|].
  by rewrite isUpper_lowerByte, IH.
Qed.

Lemma lowerBytes_id s : hasUpper s = false → lowerBytes s = s.
Proof.
  unfold hasUpper. induction s as [|c s IH]; simpl; [done|].
  intros [Hc Hs]%orb_false_elim. rewrite (IH Hs). f_equal.
  unfold lowerByte. unfold isUpper in Hc. by rewrite Hc.
Qed.

Lemma lowerBytes_bytes s c :
  c ∈ bytes (lowerBytes s) → ∃ c0, c0 ∈ bytes s ∧ c = lowerByte c0.
Proof.
  induction s as [|d s IH]; simpl; [set_solver|].
  intros [->|Hin]%elem_of_cons.
  - exists d. split; [set_solver | done].
  - destruct (IH Hin) as (c0 & H0 & ->). exists c0. split; [set_solver | done].
Qed.

Lemma lowerBytes_empty s : lowerBytes s = "" → s = "".
Proof. by destruct s. Qed.

Lemma isASCII_lowerBytes s : isASCII s = true → isASCII (lowerBytes s) = true.
Proof.
  unfold isASCII. induction s as [|c s IH]; simpl; [done|].
  intros [Hc Hs]%andb_prop. rewrite (IH Hs), andb_true_r.
  apply Nat.ltb_lt, lowerByte_low. by apply Nat.ltb_lt.
Qed.

Lemma lowerBytes_mapBytes s : lowerBytes s = mapBytes lowerByte s.
Proof. induction s as [|c s IH]; simpl; [done | by rewrite IH]. Qed.

(** [strings.ToLower] on a string of ASCII *)
Lemma ToLower_ascii MapToLower s :
  isASCII s = true → ToLower MapToLower s = lowerBytes s.
Proof.
  intros H. unfold ToLower. rewrite H.
  destruct (hasUpper s) eqn:E; [done | by rewrite lowerBytes_id].
Qed.

(** A string without upper-case letters that [MapToLower] maps to itself
    is one [strings.ToLower] returns as it is. *)
Lemma ToLower_fixed MapToLower s :
  hasUpper s = false →
  (isASCII s = false → MapToLower s = s) →
  ToLower MapToLower s = s.
Proof.
  intros Hup Hmap. unfold ToLower. rewrite Hup.
  destruct (isASCII s); [done | by apply Hmap].
Qed.

Lemma TrimSpace_lowerBytes s :
  TrimSpace (lowerBytes s) = lowerBytes (TrimSpace s).
Proof.
  rewrite !lowerBytes_mapBytes.
  apply TrimSpace_map;
    auto using isSpace_lowerByte, lowerByte_high, lowerByte_low.
Qed.

(** *** Tabs *)

Lemma isSpace_tab_space c :
  isSpace (if Ascii.eqb c TAB then " "%char else c) = isSpace c.
Proof. by destruct (Ascii.eqb_spec c TAB) as [->|]. Qed.

Lemma Replace_mapBytes (old new : ascii) s :
  Replace old new s
    = mapBytes (fun c => if Ascii.eqb c old then new else c) s.
Proof. induction s as [|c s IH]; simpl; [done | by rewrite IH]. Qed.

Lemma TrimSpace_Replace s :
  TrimSpace (Replace TAB " " s) = Replace TAB " " (TrimSpace s).
Proof.
  rewrite !Replace_mapBytes. apply TrimSpace_map.
  - apply isSpace_tab_space.
  - intros c Hc. destruct (Ascii.eqb_spec c TAB) as [->|]; [|done].
    vm_compute in Hc. lia.
  - intros c Hc. destruct (Ascii.eqb_spec c TAB) as [->|]; [|done].
    vm_compute. lia.
Qed.

Lemma Replace_bytes s c :
  c ∈ bytes (Replace TAB " " s) → c ≠ TAB ∧ (c ∈ bytes s ∨ c = " "%char).
Proof.
  induction s as [|d s IH]; simpl; [set_solver|].
  intros [->|Hin]%elem_of_cons.
  - destruct (Ascii.eqb_spec d TAB) as [->|Hne]; [by split; [|right]|].
    split; [done | left; set_solver].
  - destruct (IH Hin) as [H1 [H2|H2]]; split; try done;
      [left; set_solver | by right].
Qed.

Lemma Replace_empty (a b : ascii) s : Replace a b s = "" → s = "".
Proof. by destruct s. Qed.

Lemma Replace_id (old new : ascii) s : old ∉ bytes s → Replace old new s = s.
Proof.
  induction s as [|c s IH]; simpl; [done|]. intros Hs.
  rewrite eqb_false by set_solver. by rewrite IH by set_solver.
Qed.

(** *** Words *)

Lemma isWord_inv s :
  isWord s = true → s ≠ "" ∧ (" "%char ∉ bytes s) ∧ TrimSpace s = s.
Proof.
  unfold isWord. intros [[Hne Hall]%andb_prop Htrim]%andb_prop. split_and!.
  - intros ->. done.
  - intros Hc. rewrite forallb_forall in Hall.
    specialize (Hall _ (proj1 (list_elem_of_In _ _) Hc)). done.
  - by apply String.eqb_eq.
Qed.

(** *** The lines of a file *)

Lemma readLines_loop_eq MapToLower texts lines :
  readLines_loop MapToLower texts lines
    = lines ++ omap (readLine MapToLower) texts.
Proof.
  revert lines. induction texts as [|text texts IH]; intros lines; simpl.
  - by rewrite app_nil_r.
  - destruct (readLine MapToLower text); rewrite IH;
      [by rewrite <- app_assoc | done].
Qed.

(** *** One line of the overlay *)

Lemma addHost_is_Some m host k :
  is_Some (m !! k) → is_Some (addHost m host !! k).
Proof.
  intros Hk. unfold addHost.
  destruct (Nat.leb 2 (length (Split " " host))); [|done].
  destruct (negb _ && negb _); [|done].
  rewrite lookup_insert_is_Some.
  destruct (decide (TrimSpace (nth 0 (Split " " host) "") = k));
    [by left | by right].
Qed.

Lemma addHost_listed m domain ip :
  isWord domain = true → isWord ip = true →
  addHost m (domain +:+ " " +:+ ip) = <[domain := ip]> m.
Proof.
  intros (Hd & Hds & Hdt)%isWord_inv (Hi & His & Hit)%isWord_inv.
  unfold addHost.
  change (" " +:+ ip) with (String " " ip).
  rewrite Split_append_sep by done.
  rewrite Split_no_sep by done.
  simpl. rewrite Hdt, Hit.
  destruct (String.eqb_spec domain ""); [done|].
  by destruct (String.eqb_spec ip "").
Qed.

Lemma fold_addHost_is_Some hosts m k :
  is_Some (m !! k) → is_Some (fold_left addHost hosts m !! k).
Proof.
  revert m. induction hosts as [|host hosts IH]; intros m Hk; simpl; [done|].
  apply IH. by apply addHost_is_Some.
Qed.

Lemma readHosts_eq MapToLower ReadDir fileAt configDir hostsCache :
  readHosts MapToLower ReadDir fileAt configDir hostsCache
    = fold_left addHost (hostLines MapToLower ReadDir fileAt configDir)
                hostsCache.
Proof. done. Qed.

Lemma Demo_listed :
  listed Demo.readDir Demo.fileAt "/etc/et" "Ads.Example" "::".
Proof.
  exists [mkDirEntry "ads" false; mkDirEntry "old" true],
         (mkDirEntry "ads" false), " "%char.
  cbv zeta. split_and!; [reflexivity | set_solver | reflexivity | by left
                         | reflexivity | reflexivity | vm_compute; set_solver].
Qed.

(** C7, as the specification has it, fails: a readable hosts file lists
    [Ads.Example ::]; the overlay read from it answers [ads.example], and
    does not answer [Ads.Example], the domain as the file has it. *)
Lemma look4Hosts_not_caseInsensitive :
  ¬ caseInsensitive Demo.mapToLower Demo.readDir Demo.fileAt "/etc/et".
Proof.
  intros H. destruct (H "Ads.Example" "::" Demo_listed) as [stored Hv].
  destruct (Hv "Ads.Example" eq_refl) as [err Hl].
  vm_compute in Hl. discriminate.
Qed.

(** C7 at that input: the loader stores the key in lower case, the lookup
    takes the domain as it is given. *)
Theorem look4Hosts_case_divergence :
  readLine Demo.mapToLower "Ads.Example ::" = Some "ads.example ::" ∧
  look4Hosts Demo.overlay "ads.example" = ("::", true, Some ErrADHostsFound) ∧
  look4Hosts Demo.overlay "Ads.Example" = ("", false, None).
Proof. split_and!; reflexivity. Qed.

End Hosts.

(** ** The claims, run in the small world *)

Section Runs.

Import Controler.

Lemma Send_smart_uncertain_witness :
  ∃ ip1 err1 s1,
    resolvDNSByLocal Demo.resolver (Demo.uncertain "example.org") initState
      = Some ((setIP (Demo.uncertain "example.org") ip1, err1), s1) ∧
    localPath Demo.resolver initState "example.org" ip1 err1 s1 ∧
    (history s1 = [] ∨ history s1 = [] ++ [CallDNSResolver "example.org"]) ∧
    let loc := Demo.location (history s1) ip1 in
    let s2 := record s1 (CallLocation ip1) in
    if Demo.needsProxy loc then
      ∃ ip2 err2 s3,
        resolvDNSByProxy "DNS" Demo.relay Demo.parseIP
                         (newNetArg "example.org") s2
          = Some ((setIP (newNetArg "example.org") ip2, err2), s3) ∧
        remotePath "DNS" Demo.relay Demo.parseIP s2 "example.org" ip2 err2
                   s3 ∧
        (history s3 = history s1 ++ [CallLocation ip1] ∨
         history s3 = history s1 ++ [CallLocation ip1]
                        ++ [CallSendQueryReq ("DNS" +:+ " " +:+ "example.org")]) ∧
        Demo.send ProxySMART (Demo.uncertain "example.org") initState
          = Some ((setIP (setLocation
                            (setIP (Demo.uncertain "example.org") ip1) loc)
                         ip2, err2), s3)
    else
      Demo.send ProxySMART (Demo.uncertain "example.org") initState
        = Some ((setLocation (setIP (Demo.uncertain "example.org") ip1) loc,
                 None), s2).
Proof.
  apply (Send_smart_uncertain Demo.hosts "DNS" Demo.resolver Demo.relay
           Demo.parseIP Demo.location Demo.needsProxy
           (Demo.uncertain "example.org") initState);
    [reflexivity | discriminate | discriminate | apply settledState_init].
Defined.

Lemma Send_hosts_precedence_witness :
  Demo.send ProxyENABLE (Demo.uncertain "intra.example") initState
    = Some ((setIP (Demo.uncertain "intra.example") "10.0.0.7", None),
            initState).
Proof.
  apply (Send_hosts_precedence Demo.hosts ProxyENABLE "DNS" Demo.resolver
           Demo.relay Demo.parseIP Demo.location Demo.needsProxy
           (Demo.uncertain "intra.example") initState "10.0.0.7");
    [reflexivity | discriminate].
Defined.

Lemma Send_ErrADHostsFound_iff_sentinel_witness :
  ∃ e' err,
    Demo.send ProxySMART (Demo.uncertain "ads.example") initState
      = Some ((e', err), initState) ∧
    (err = Some ErrADHostsFound ↔ "::" = "::").
Proof.
  apply (Send_ErrADHostsFound_iff_sentinel Demo.hosts ProxySMART "DNS"
           Demo.resolver Demo.relay Demo.parseIP Demo.location
           Demo.needsProxy (Demo.uncertain "ads.example") initState "::");
    reflexivity.
Defined.

Lemma Send_ad_blocked_frame_witness :
  ∃ e',
    Demo.send ProxyENABLE (Demo.uncertain "ads.example") initState
      = Some ((e', Some ErrADHostsFound), initState) ∧
    e' = Demo.uncertain "ads.example" ∧
    IP e' = IP (Demo.uncertain "ads.example").
Proof.
  apply (Send_ad_blocked_frame Demo.hosts ProxyENABLE "DNS" Demo.resolver
           Demo.relay Demo.parseIP Demo.location Demo.needsProxy
           (Demo.uncertain "ads.example") initState);
    reflexivity.
Defined.

Lemma resolvDNSByProxy_invalid_reply_witness :
  ∃ node s0 s1,
    getCacheNodeOfRemote "bad.example" initState = Some ((node, false), s0) ∧
    cacheOrNew Remote s0 !! "bad.example" = Some Pending ∧
    resolvDNSByProxy "DNS" Demo.relay Demo.parseIP
                     (newNetArg "bad.example") initState
      = Some ((setIP (newNetArg "bad.example")
                     (Demo.relay [] ("DNS" +:+ " " +:+ "bad.example")).1,
               Some ErrInvalidReply), s1) ∧
    history s1 = [] ++ [CallSendQueryReq ("DNS" +:+ " " +:+ "bad.example")] ∧
    cacheOrNew Remote s1 = cacheOrNew Remote initState ∧
    cacheOrNew Remote s1 !! "bad.example" = None ∧
    dnsLocalCache s1 = None ∧
    ∀ e2, Domain e2 = "bad.example" →
      ∃ r s2,
        resolvDNSByProxy "DNS" Demo.relay Demo.parseIP e2 s1 = Some (r, s2) ∧
        history s2
          = history s1 ++ [CallSendQueryReq ("DNS" +:+ " " +:+ "bad.example")].
Proof.
  apply (resolvDNSByProxy_invalid_reply "DNS" Demo.relay Demo.parseIP
           (newNetArg "bad.example") initState);
    reflexivity.
Defined.

Lemma Handle_local_only_witness :
  Demo.handle "DNS" initState = Some (Some ErrReqTooShort, initState) ∧
  ∃ ip err s1,
    resolvDNSByLocal Demo.resolver
        (newNetArg (nth 1 (Split " " "DNS example.org") "")) initState
      = Some ((setIP (newNetArg (nth 1 (Split " " "DNS example.org") "")) ip,
               err), s1) ∧
    localPath Demo.resolver initState
              (nth 1 (Split " " "DNS example.org") "") ip err s1 ∧
    dnsRemoteCache s1 = None ∧
    (history s1 = [] ∨
     history s1
       = [] ++ [CallDNSResolver (nth 1 (Split " " "DNS example.org") "")]) ∧
    Demo.handle "DNS example.org" initState =
      match err with
      | Some _ => Some (err, s1)
      | None => Some (Demo.write (history s1) ip,
                      record s1 (CallWriteLeftStr ip))
      end.
Proof.
  split.
  - apply (proj1 (Handle_local_only Demo.resolver Demo.write "DNS" initState)).
    vm_compute. lia.
  - apply (proj2 (Handle_local_only Demo.resolver Demo.write
                    "DNS example.org" initState));
      [vm_compute; lia | apply settledState_init].
Defined.


Lemma callers_single_flight_witness :
  (∀ i j ci cj,
     (Callers.run Local "DNS" Demo.resolver Demo.relay Demo.parseIP
        [0; 1; 0; 0; 1]
        (Callers.start [Demo.uncertain "example.org";
                        Sample.direct "example.org"])).2 !! i = Some ci →
     (Callers.run Local "DNS" Demo.resolver Demo.relay Demo.parseIP
        [0; 1; 0; 0; 1]
        (Callers.start [Demo.uncertain "example.org";
                        Sample.direct "example.org"])).2 !! j = Some cj →
     Callers.inFlight ci = true → Callers.inFlight cj = true → i = j) ∧
  (∀ ev,
     ev ∈ Callers.calls
            (Callers.run Local "DNS" Demo.resolver Demo.relay Demo.parseIP
               [0; 1; 0; 0; 1]
               (Callers.start [Demo.uncertain "example.org";
                               Sample.direct "example.org"])).1 →
     ev = Callers.theCall Local "DNS" "example.org") ∧
  (length (Callers.calls
             (Callers.run Local "DNS" Demo.resolver Demo.relay Demo.parseIP
                [0; 1; 0; 0; 1]
                (Callers.start [Demo.uncertain "example.org";
                                Sample.direct "example.org"])).1)
   ≤ S (Callers.failures
          (Callers.run Local "DNS" Demo.resolver Demo.relay Demo.parseIP
             [0; 1; 0; 0; 1]
             (Callers.start [Demo.uncertain "example.org";
                             Sample.direct "example.org"])).1))%nat ∧
  (∀ e1 e2,
     Callers.Returned e1 None
       ∈ (Callers.run Local "DNS" Demo.resolver Demo.relay Demo.parseIP
            [0; 1; 0; 0; 1]
            (Callers.start [Demo.uncertain "example.org";
                            Sample.direct "example.org"])).2 →
     Callers.Returned e2 None
       ∈ (Callers.run Local "DNS" Demo.resolver Demo.relay Demo.parseIP
            [0; 1; 0; 0; 1]
            (Callers.start [Demo.uncertain "example.org";
                            Sample.direct "example.org"])).2 →
     IP e1 = IP e2) ∧
  (∀ e x,
     Callers.Returned e (Some x)
       ∈ (Callers.run Local "DNS" Demo.resolver Demo.relay Demo.parseIP
            [0; 1; 0; 0; 1]
            (Callers.start [Demo.uncertain "example.org";
                            Sample.direct "example.org"])).2 →
     (0 < Callers.failures
            (Callers.run Local "DNS" Demo.resolver Demo.relay Demo.parseIP
               [0; 1; 0; 0; 1]
               (Callers.start [Demo.uncertain "example.org";
                               Sample.direct "example.org"])).1)%nat).
Proof.
  apply (callers_single_flight Local "DNS" Demo.resolver Demo.relay
           Demo.parseIP "example.org"
           [Demo.uncertain "example.org"; Sample.direct "example.org"]
           [0; 1; 0; 0; 1]).
  by repeat constructor.
Defined.

(** C5, as the specification has it, fails: two callers of the remote
    path for one domain, the second called while the first is in flight,
    and a reply that is no address.  There is one query; the creator
    returns the invalid-reply error and the waiter the failure of the
    node. *)
Lemma callers_not_sameResult :
  ¬ Callers.singleFlight Remote "DNS" Demo.resolver Demo.relay Demo.parseIP
      [newNetArg "bad.example"; newNetArg "bad.example"].
Proof.
  intros H. destruct (H [0; 1; 0; 0; 1]) as [_ Hs].
  assert (E : (Callers.run Remote "DNS" Demo.resolver Demo.relay Demo.parseIP
                 [0; 1; 0; 0; 1]
                 (Callers.start [newNetArg "bad.example";
                                 newNetArg "bad.example"])).2
              = [Callers.Returned (setIP (newNetArg "bad.example") "not found")
                                  (Some ErrInvalidReply);
                 Callers.Returned (setIP (newNetArg "bad.example") "")
                                  (Some ErrNodeFailed)])
    by (vm_compute; reflexivity).
  rewrite E in Hs.
  destruct (Hs (setIP (newNetArg "bad.example") "not found")
               (Some ErrInvalidReply)
               (setIP (newNetArg "bad.example") "") (Some ErrNodeFailed))
    as [[=] _]; set_solver.
Qed.


Lemma getKeyValues_export_roundtrip_witness :
  getKeyValues
    (linesOf (exportKeyValues (getKeyValues Demo.configLines).1
                              (getKeyValues Demo.configLines).2))
    = getKeyValues Demo.configLines.
Proof.
  apply (getKeyValues_export_roundtrip Demo.configLines).
  unfold Demo.configLines. repeat constructor; vm_compute; set_solver.
Defined.

End Runs.

(** * Further properties *)

(** ** More about [dns.go] *)

Section MoreDNS.

Variable HostsCache : gmap string string.
Variable ProxyStatus : ProxyStatusT.
Variable Name : string.
Variable DNSResolver : list event → string → string * option error.
Variable SendQueryReq : list event → string → string * option error.
Variable ParseIP : string → bool.
Variable location_of : list event → string → string.
Variable checkProxyByLocation : string → bool.
Variable WriteLeftStr : list event → string → option error.

Local Abbreviation send status :=
  (Send HostsCache status Name DNSResolver SendQueryReq ParseIP
        location_of checkProxyByLocation).
Local Abbreviation byLocal := (resolvDNSByLocal DNSResolver).
Local Abbreviation byProxy := (resolvDNSByProxy Name SendQueryReq ParseIP).
Local Abbreviation byLocation :=
  (resolvDNSByLocation Name DNSResolver SendQueryReq ParseIP
                       location_of checkProxyByLocation).
Local Abbreviation query e := (CallSendQueryReq (Name +:+ " " +:+ Domain e)).

(** What a call of the local path that returns has done. *)
Lemma resolvDNSByLocal_inv e s e' err s' :
  byLocal e s = Some ((e', err), s') →
  ∃ ip,
    e' = setIP e ip ∧
    dnsRemoteCache s' = dnsRemoteCache s ∧
    (history s' = history s ∨
     history s' = history s ++ [CallDNSResolver (Domain e)]).
Proof.
  intros Hr. destruct (cacheOrNew Local s !! Domain e) as [[|text]|] eqn:E.
  - by rewrite (resolvDNSByLocal_pending _ _ _ E) in Hr.
  - rewrite (resolvDNSByLocal_hit _ _ _ _ E) in Hr. injection Hr as <- <- <-.
    exists text. split_and!; [done | done | by left].
  - rewrite (resolvDNSByLocal_miss _ _ _ E) in Hr.
    destruct (DNSResolver (history s) (Domain e)) as [ip err0].
    injection Hr as <- <- <-. exists ip. split_and!; [done | done | by right].
Qed.

(** What a call of the remote path that returns has done. *)
Lemma resolvDNSByProxy_inv e s e' err s' :
  byProxy e s = Some ((e', err), s') →
  ∃ ip,
    e' = setIP e ip ∧
    dnsLocalCache s' = dnsLocalCache s ∧
    (err = None ∨ err = Some ErrInvalidReply) ∧
    (err = None → ParseIP ip = true ∨
                  cacheOrNew Remote s !! Domain e = Some (Ready ip)) ∧
    (history s' = history s ∨ history s' = history s ++ [query e]).
Proof.
  intros Hr. destruct (cacheOrNew Remote s !! Domain e) as [[|text]|] eqn:E.
  - unfold resolvDNSByProxy, bind, getCacheNodeOfRemote, getCacheNode,
      Cache.Get in Hr. rewrite E in Hr. unfold Wait in Hr. simpl in Hr.
    change (cacheOrNew Remote (setRemote s ?c)) with c in Hr.
    by rewrite E in Hr.
  - rewrite (resolvDNSByProxy_hit _ _ _ _ _ _ E) in Hr.
    injection Hr as <- <- <-.
    exists text. split_and!; [done | done | by left | by right | by left].
  - rewrite (resolvDNSByProxy_miss _ _ _ _ _ E) in Hr. cbv zeta in Hr.
    injection Hr as <- <- <-. eexists. split_and!; [done | done | | | by right].
    + unfold replyErr. destruct (ParseIP _); [by left | by right].
    + unfold replyErr. destruct (ParseIP _) eqn:Ep; [by left | done].
Qed.

(** X1.  Forced-proxy mode, a domain the hosts overlay does not list, no
    resolution in flight: [Send] resolves by the remote path whatever the
    domain type is.  The IP it hands back is the one the remote cache holds
    for the domain or, when it holds none, the text of the relay's reply to
    one query, and the error is the invalid-reply error exactly when
    [net.ParseIP] rejects that text ([remotePath]); the local cache is
    untouched and the only call that may leave the process is one query to
    the relay. *)
Theorem Send_enable_remote_only e s :
  HostsCache !! Domain e = None →
  settledState s →
  ∃ ip err s1,
    send ProxyENABLE e s = Some ((setIP e ip, err), s1) ∧
    remotePath Name SendQueryReq ParseIP s (Domain e) ip err s1 ∧
    dnsLocalCache s1 = dnsLocalCache s ∧
    (history s1 = history s ∨ history s1 = history s ++ [query e]).
Proof.
  intros Hhosts Hs. unfold Send, look4Hosts. rewrite Hhosts. simpl.
  unfold proxySend.
  destruct (resolvDNSByProxy_path Name SendQueryReq ParseIP e s Hs)
    as (ip & err & s1 & Hr & _ & Hpath).
  exists ip, err, s1. split_and!; [done | done | by destruct Hpath |].
  by apply (remotePath_history _ _ _ _ _ _ _ _ Hpath).
Qed.

(** A proxy status that is neither SMART nor ENABLE, a domain the hosts
    overlay does not list: [Send] fails with [ErrInvalidProxyStatus] and
    changes neither the NetArg nor the state. *)
Lemma Send_invalid_status e s code :
  HostsCache !! Domain e = None →
  send (ProxyOtherStatus code) e s = Some ((e, Some ErrInvalidProxyStatus), s).
Proof. intros Hhosts. unfold Send, look4Hosts. by rewrite Hhosts. Qed.

(** X2.  Smart mode, a DIRECT domain the hosts overlay does not list, no
    resolution in flight: [Send] resolves by the local path only.  The IP
    it hands back is the one the local cache holds for the domain or, when
    it holds none, the answer of the local resolver, asked once, and the
    error is the resolver's ([localPath]); the remote cache is untouched,
    and neither the relay nor the location service is asked. *)
Theorem Send_smart_direct e s :
  HostsCache !! Domain e = None →
  DomainType e = DirectDomain →
  settledState s →
  ∃ ip err s1,
    send ProxySMART e s = Some ((setIP e ip, err), s1) ∧
    localPath DNSResolver s (Domain e) ip err s1 ∧
    dnsRemoteCache s1 = dnsRemoteCache s ∧
    (history s1 = history s ∨
     history s1 = history s ++ [CallDNSResolver (Domain e)]).
Proof.
  intros Hhosts Hd Hs. unfold Send, look4Hosts. rewrite Hhosts. simpl.
  unfold smartSend. rewrite Hd.
  destruct (resolvDNSByLocal_path DNSResolver e s Hs)
    as (ip & err & s1 & Hr & _ & Hpath).
  exists ip, err, s1. split_and!; [done | done | by destruct Hpath |].
  by apply (localPath_history _ _ _ _ _ _ Hpath).
Qed.

(** X3.  Smart mode, a PROXY domain the hosts overlay does not list, no
    resolution in flight: [Send] resolves by the remote path only.  The IP
    it hands back is the one the remote cache holds for the domain or, when
    it holds none, the text of the relay's reply to one query, and the
    error is the invalid-reply error exactly when [net.ParseIP] rejects
    that text ([remotePath]); the local cache is untouched, and neither the
    local resolver nor the location service is asked. *)
Theorem Send_smart_proxy e s :
  HostsCache !! Domain e = None →
  DomainType e = ProxyDomain →
  settledState s →
  ∃ ip err s1,
    send ProxySMART e s = Some ((setIP e ip, err), s1) ∧
    remotePath Name SendQueryReq ParseIP s (Domain e) ip err s1 ∧
    dnsLocalCache s1 = dnsLocalCache s ∧
    (history s1 = history s ∨ history s1 = history s ++ [query e]).
Proof.
  intros Hhosts Hd Hs. unfold Send, look4Hosts. rewrite Hhosts. simpl.
  unfold smartSend. rewrite Hd.
  destruct (resolvDNSByProxy_path Name SendQueryReq ParseIP e s Hs)
    as (ip & err & s1 & Hr & _ & Hpath).
  exists ip, err, s1. split_and!; [done | done | by destruct Hpath |].
  by apply (remotePath_history _ _ _ _ _ _ _ _ Hpath).
Qed.

(** X4.  A domain the remote path resolved is answered from the remote
    cache the next time: the relay is not asked again and the IP is the
    same. *)
Theorem resolvDNSByProxy_again e e2 s e1 s1 :
  byProxy e s = Some ((e1, None), s1) →
  Domain e2 = Domain e →
  ∃ s2,
    byProxy e2 s1 = Some ((setIP e2 (IP e1), None), s2) ∧
    history s2 = history s1.
Proof.
  intros Hr He2.
  assert (Hc : cacheOrNew Remote s1 !! Domain e2 = Some (Ready (IP e1))).
  { rewrite He2. destruct (cacheOrNew Remote s !! Domain e) as [[|text]|] eqn:E.
    - destruct (resolvDNSByProxy_inv _ _ _ _ _ Hr) as (ip & _ & _ & _ & _ & _).
      unfold resolvDNSByProxy, bind, getCacheNodeOfRemote, getCacheNode,
        Cache.Get in Hr. rewrite E in Hr. unfold Wait in Hr. simpl in Hr.
      change (cacheOrNew Remote (setRemote s ?c)) with c in Hr.
      by rewrite E in Hr.
    - rewrite (resolvDNSByProxy_hit _ _ _ _ _ _ E) in Hr.
      injection Hr as <- <-. by rewrite cacheOrNew_setCache.
    - rewrite (resolvDNSByProxy_miss _ _ _ _ _ E) in Hr. cbv zeta in Hr.
      injection Hr as <- Herr <-.
      rewrite cacheOrNew_record, cacheOrNew_setCache, Herr. simpl.
      by rewrite lookup_insert_eq. }
  rewrite (resolvDNSByProxy_hit _ _ _ _ _ _ Hc). eexists. split; [done|].
  by rewrite history_setCache.
Qed.

(** X5.  A failure of the local path is not cached.  When the local cache
    has no node for the domain and the resolver fails, [resolvDNSByLocal]
    returns the resolver's error, the local cache is what it was, and the
    next resolution of that domain asks the resolver again. *)
Theorem resolvDNSByLocal_failure_not_cached e s ip err :
  cacheOrNew Local s !! Domain e = None →
  DNSResolver (history s) (Domain e) = (ip, Some err) →
  ∃ s1,
    byLocal e s = Some ((setIP e ip, Some err), s1) ∧
    cacheOrNew Local s1 = cacheOrNew Local s ∧
    history s1 = history s ++ [CallDNSResolver (Domain e)] ∧
    ∀ e2, Domain e2 = Domain e →
      ∃ r s2,
        byLocal e2 s1 = Some (r, s2) ∧
        history s2 = history s1 ++ [CallDNSResolver (Domain e)].
Proof.
  intros Hmiss Hres.
  rewrite (resolvDNSByLocal_miss _ _ _ Hmiss), Hres. simpl cacheAfter.
  eexists. split; [reflexivity|].
  assert (Hc : cacheOrNew Local
                 (record (setCache Local s (cacheOrNew Local s))
                         (CallDNSResolver (Domain e)))
               = cacheOrNew Local s) by done.
  split_and!; [by rewrite Hc | done |].
  intros e2 He2.
  rewrite resolvDNSByLocal_miss by (by rewrite He2, Hc).
  rewrite He2. clear Hres.
  destruct (DNSResolver (history (record _ _)) (Domain e)) as [ip2 err2].
  by eexists _, _.
Qed.

(** *** What every [Send] keeps *)

Lemma resolvDNSByLocation_inv e s e' err s' :
  byLocation e s = Some ((e', err), s') →
  ∃ ip1 err1 s1,
    byLocal e s = Some ((setIP e ip1, err1), s1) ∧
    ((checkProxyByLocation (location_of (history s1) ip1) = false ∧
      err = None ∧
      e' = setLocation (setIP e ip1) (location_of (history s1) ip1) ∧
      s' = record s1 (CallLocation ip1)) ∨
     (checkProxyByLocation (location_of (history s1) ip1) = true ∧
      ∃ ip2,
        byProxy (newNetArg (Domain e)) (record s1 (CallLocation ip1))
          = Some ((setIP (newNetArg (Domain e)) ip2, err), s') ∧
        e' = setIP (setLocation (setIP e ip1)
                                (location_of (history s1) ip1)) ip2)).
Proof.
  unfold resolvDNSByLocation, bind. intros Hr.
  destruct (byLocal e s) as [[[e1 err1] s1]|] eqn:Hl; [|done].
  destruct (resolvDNSByLocal_inv _ _ _ _ _ Hl) as (ip1 & -> & _).
  exists ip1, err1, s1. split; [done|].
  unfold LocationSend in Hr. simpl in Hr.
  destruct (checkProxyByLocation (location_of (history s1) ip1)); simpl in Hr.
  - right. split; [done|].
    destruct (byProxy (newNetArg (Domain e)) (record s1 (CallLocation ip1)))
      as [[[ne err2] s3]|] eqn:Hp; [|done].
    destruct (resolvDNSByProxy_inv _ _ _ _ _ Hp) as (ip2 & -> & _).
    injection Hr as <- <- <-. by exists ip2.
  - left. by injection Hr as <- <- <-.
Qed.

(** The ways [Send] can return. *)
Lemma Send_cases status e s e' err s' :
  send status e s = Some ((e', err), s') →
  (s' = s ∧ (e' = e ∨ ∃ ip, e' = setIP e ip)) ∨
  byLocal e s = Some ((e', err), s') ∨
  byProxy e s = Some ((e', err), s') ∨
  byLocation e s = Some ((e', err), s').
Proof.
  unfold Send. destruct (look4Hosts HostsCache (Domain e)) as [[ip ok] [herr|]].
  - intros [= <- <- <-]. left. split; [done | by left].
  - destruct ok.
    + intros [= <- <- <-]. left. split; [done | right; by exists ip].
    + destruct status; unfold smartSend, proxySend.
      * destruct (DomainType e); auto.
      * auto.
      * intros [= <- <- <-]. left. split; [done | by left].
Qed.

(** X6.  [Send] writes the IP and the location of the NetArg and nothing
    else: whenever it returns, the domain, the port and the domain type are
    the ones it was given. *)
Theorem Send_frame status e s e' err s' :
  send status e s = Some ((e', err), s') →
  Domain e' = Domain e ∧ Port e' = Port e ∧ DomainType e' = DomainType e.
Proof.
  intros Hr. destruct (Send_cases _ _ _ _ _ _ Hr) as [[_ H]|[H|[H|H]]].
  - by destruct H as [->|[ip ->]].
  - by destruct (resolvDNSByLocal_inv _ _ _ _ _ H) as (ip & -> & _).
  - by destruct (resolvDNSByProxy_inv _ _ _ _ _ H) as (ip & -> & _).
  - destruct (resolvDNSByLocation_inv _ _ _ _ _ H)
      as (ip1 & err1 & s1 & _ & [(_ & _ & -> & _)|(_ & ip2 & _ & ->)]); done.
Qed.

(** X7.  Whenever [Send] returns it has only added to the history, and what
    it added is a part of: one call of the local resolver, one location
    query, one query to the relay, in this order.  No service is asked
    twice. *)
Theorem Send_history status e s e' err s' :
  send status e s = Some ((e', err), s') →
  ∃ evs ip,
    history s' = history s ++ evs ∧
    evs `sublist_of`
      [CallDNSResolver (Domain e); CallLocation ip; query e].
Proof.
  intros Hr. destruct (Send_cases _ _ _ _ _ _ Hr) as [[-> _]|[H|[H|H]]].
  - exists [], "". split; [by rewrite app_nil_r | apply sublist_nil_l].
  - destruct (resolvDNSByLocal_inv _ _ _ _ _ H) as (ip & _ & _ & [Hh|Hh]).
    + exists [], "". split; [by rewrite app_nil_r | apply sublist_nil_l].
    + exists [CallDNSResolver (Domain e)], "". split; [done|].
      apply sublist_skip, sublist_nil_l.
  - destruct (resolvDNSByProxy_inv _ _ _ _ _ H) as (ip & _ & _ & _ & _ & [Hh|Hh]).
    + exists [], "". split; [by rewrite app_nil_r | apply sublist_nil_l].
    + exists [query e], "". split; [done|].
      do 2 apply sublist_cons. apply sublist_skip, sublist_nil_l.
  - destruct (resolvDNSByLocation_inv _ _ _ _ _ H)
      as (ip1 & err1 & s1 & Hl & Hcase).
    destruct (resolvDNSByLocal_inv _ _ _ _ _ Hl) as (ip & _ & _ & Hh1).
    destruct Hcase as [(_ & _ & _ & ->)|(_ & ip2 & Hp & _)].
    + simpl. destruct Hh1 as [-> | ->].
      * exists [CallLocation ip1], ip1. split; [done|].
        apply sublist_cons, sublist_skip, sublist_nil_l.
      * exists [CallDNSResolver (Domain e); CallLocation ip1], ip1.
        split; [by rewrite <- app_assoc|].
        do 2 apply sublist_skip. apply sublist_nil_l.
    + destruct (resolvDNSByProxy_inv _ _ _ _ _ Hp)
        as (ip3 & _ & _ & _ & _ & Hh3).
      simpl in Hh3.
      destruct Hh1 as [Hh1|Hh1], Hh3 as [Hh3|Hh3]; rewrite Hh3, Hh1.
      * exists [CallLocation ip1], ip1. split; [done|].
        apply sublist_cons, sublist_skip, sublist_nil_l.
      * exists [CallLocation ip1; query e], ip1.
        split; [by rewrite <- app_assoc|].
        apply sublist_cons. do 2 apply sublist_skip. apply sublist_nil_l.
      * exists [CallDNSResolver (Domain e); CallLocation ip1], ip1.
        split; [by rewrite <- app_assoc|].
        do 2 apply sublist_skip. apply sublist_nil_l.
      * exists [CallDNSResolver (Domain e); CallLocation ip1; query e], ip1.
        split; [by rewrite <- !app_assoc | done].
Qed.

(** *** Only addresses in the remote cache *)

Lemma remoteParsed_local s s' :
  dnsRemoteCache s' = dnsRemoteCache s →
  remoteParsed ParseIP s → remoteParsed ParseIP s'.
Proof. intros E H c k text Hc. rewrite E in Hc. by apply H. Qed.

Lemma byProxy_parsed e s e' err s' :
  remoteParsed ParseIP s →
  byProxy e s = Some ((e', err), s') →
  remoteParsed ParseIP s' ∧ (err = None → ParseIP (IP e') = true).
Proof.
  intros Hinv Hr.
  assert (Hc : ∀ k text, cacheOrNew Remote s !! k = Some (Ready text) →
                         ParseIP text = true).
  { intros k text. unfold cacheOrNew. simpl.
    destruct (dnsRemoteCache s) as [c|] eqn:E; [by apply Hinv|].
    by rewrite lookup_empty. }
  destruct (cacheOrNew Remote s !! Domain e) as [[|text]|] eqn:E.
  - destruct (resolvDNSByProxy_inv _ _ _ _ _ Hr)
      as (ip & _ & _ & _ & _ & _).
    unfold resolvDNSByProxy, bind, getCacheNodeOfRemote, getCacheNode,
      Cache.Get in Hr. rewrite E in Hr. unfold Wait in Hr. simpl in Hr.
    change (cacheOrNew Remote (setRemote s ?c)) with c in Hr.
    by rewrite E in Hr.
  - rewrite (resolvDNSByProxy_hit _ _ _ _ _ _ E) in Hr.
    injection Hr as <- <- <-. split.
    + intros c k t [= <-]. apply Hc.
    + intros _. simpl. by apply (Hc (Domain e)).
  - rewrite (resolvDNSByProxy_miss _ _ _ _ _ E) in Hr. cbv zeta in Hr.
    injection Hr as <- <- <-. unfold replyErr.
    destruct (ParseIP _) eqn:Ep; simpl; (split; [|done]).
    + intros c k t [= <-].
      destruct (decide (Domain e = k)) as [<-|Hne].
      * rewrite lookup_insert_eq. by intros [= <-].
      * rewrite lookup_insert_ne by done. apply Hc.
    + intros c k t [= <-]. apply Hc.
Qed.

(** X8.  The remote cache holds parsed addresses only, and the remote path
    keeps it so: when every value of the remote cache is one [net.ParseIP]
    accepts, the same holds after [resolvDNSByProxy], and an IP it returns
    without error is one [net.ParseIP] accepts, also when it comes from the
    cache. *)
Theorem resolvDNSByProxy_parsed e s e' err s' :
  remoteParsed ParseIP s →
  byProxy e s = Some ((e', err), s') →
  remoteParsed ParseIP s' ∧ (err = None → ParseIP (IP e') = true).
Proof. apply byProxy_parsed. Qed.

(** X9.  [Send] keeps the remote cache to parsed addresses, in every mode
    and for every domain type. *)
Theorem Send_remoteParsed status e s e' err s' :
  remoteParsed ParseIP s →
  send status e s = Some ((e', err), s') →
  remoteParsed ParseIP s'.
Proof.
  intros Hinv Hr. destruct (Send_cases _ _ _ _ _ _ Hr) as [[-> _]|[H|[H|H]]].
  - done.
  - destruct (resolvDNSByLocal_inv _ _ _ _ _ H) as (ip & _ & Hrem & _).
    by apply (remoteParsed_local s).
  - by destruct (byProxy_parsed _ _ _ _ _ Hinv H).
  - destruct (resolvDNSByLocation_inv _ _ _ _ _ H)
      as (ip1 & err1 & s1 & Hl & Hcase).
    destruct (resolvDNSByLocal_inv _ _ _ _ _ Hl) as (ip & _ & Hrem & _).
    pose proof (remoteParsed_local s s1 Hrem Hinv) as H1.
    destruct Hcase as [(_ & _ & _ & ->)|(_ & ip2 & Hp & _)].
    + by apply (remoteParsed_local s1).
    + assert (H2 : remoteParsed ParseIP (record s1 (CallLocation ip1)))
        by by apply (remoteParsed_local s1).
      by destruct (byProxy_parsed _ _ _ _ _ H2 Hp).
Qed.

(** [resolvDNSByProxy] never hands on the error of the query: when it
    returns, its error is nil or the invalid-reply error, which depends on
    the text of the reply alone. *)
Lemma resolvDNSByProxy_errors e s e' err s' :
  byProxy e s = Some ((e', err), s') →
  err = None ∨ err = Some ErrInvalidReply.
Proof.
  intros Hr. by destruct (resolvDNSByProxy_inv _ _ _ _ _ Hr) as (ip & _ & _ & H & _).
Qed.

(** X10.  [resolvDNSByProxy] looks at the text of the reply only.  When
    the remote cache has no node for the domain and the text of the reply
    is an address, the resolution succeeds and the address is cached, also
    when the query returned an error along with it. *)
Theorem resolvDNSByProxy_ignores_query_error e s reply qerr :
  cacheOrNew Remote s !! Domain e = None →
  SendQueryReq (history s) (Name +:+ " " +:+ Domain e) = (reply, qerr) →
  ParseIP reply = true →
  ∃ s1,
    byProxy e s = Some ((setIP e reply, None), s1) ∧
    cacheOrNew Remote s1 !! Domain e = Some (Ready reply).
Proof.
  intros Hmiss Hq Hp.
  rewrite (resolvDNSByProxy_miss _ _ _ _ _ Hmiss). cbv zeta.
  rewrite Hq. cbn [fst]. unfold replyErr. rewrite Hp.
  eexists. split; [reflexivity|].
  rewrite cacheOrNew_record, cacheOrNew_setCache. simpl.
  by rewrite lookup_insert_eq.
Qed.

(** X11.  [Handle] resolves the second field of the request and ignores
    what follows it: a request with more fields behaves as the request cut
    after its second field. *)
Theorem Handle_extra_fields cmd domain rest s :
  " "%char ∉ bytes cmd → " "%char ∉ bytes domain →
  Handle DNSResolver WriteLeftStr
         (cmd +:+ String " " (domain +:+ String " " rest)) s
    = Handle DNSResolver WriteLeftStr (cmd +:+ String " " domain) s.
Proof.
  intros Hc Hd. unfold Handle.
  rewrite !Split_append_sep by done. rewrite (Split_no_sep _ _ Hd).
  destruct (Split_nonempty " " rest) as (p & ps & ->). done.
Qed.

(** X12.  Sequential calls never leave a resolution in flight: from a
    state where every cache node holds a value, [Send] and [Handle] return,
    and every node holds a value afterwards. *)
Theorem Send_Handle_settled status e req s :
  settledState s →
  (∃ r s', send status e s = Some (r, s') ∧ settledState s') ∧
  (∃ r s', Handle DNSResolver WriteLeftStr req s = Some (r, s') ∧
           settledState s').
Proof.
  intros Hs. split.
  - unfold Send.
    destruct (look4Hosts HostsCache (Domain e)) as [[ip ok] [err|]];
      [by eexists _, _ | ].
    destruct ok; [by eexists _, _ | ].
    pose proof (resolvDNSByLocal_returns DNSResolver e s Hs)
      as (ip1 & err1 & s1 & Hloc & Hs1 & _).
    pose proof (resolvDNSByProxy_returns Name SendQueryReq ParseIP e s Hs)
      as (ip2 & err2 & s2 & Hprx & Hs2 & _).
    assert (Hbl : ∃ r s', byLocation e s = Some (r, s') ∧ settledState s').
    { unfold resolvDNSByLocation, bind. rewrite Hloc.
      unfold LocationSend. simpl.
      destruct (checkProxyByLocation _); simpl;
        [|by eexists _, _; split; [|apply settledState_record]].
      destruct (resolvDNSByProxy_returns Name SendQueryReq ParseIP
                  (newNetArg (Domain e)) (record s1 (CallLocation ip1))
                  (settledState_record _ _ Hs1))
        as (ip3 & err3 & s3 & Hprx3 & Hs3 & _).
      rewrite Hprx3. by eexists _, _. }
    destruct status; unfold proxySend, smartSend.
    + destruct (DomainType e); eauto.
    + eauto.
    + by eexists _, _.
  - unfold Handle. destruct (Nat.ltb _ 2); [by eexists _, _|].
    destruct (resolvDNSByLocal_returns DNSResolver
                (newNetArg (nth 1 (Split " " req) "")) s Hs)
      as (ip & err & s1 & Hloc & Hs1 & _).
    unfold bind. rewrite Hloc. destruct err.
    + by eexists _, _.
    + unfold writeLeftStr. eexists _, _. split; [done|].
      by apply settledState_record.
Qed.

(** X13.  A DIRECT domain that [Send] resolved in smart mode is answered
    from the local cache the next time: the same IP, and no call leaves the
    process. *)
Theorem Send_direct_again e s e1 s1 :
  HostsCache !! Domain e = None →
  DomainType e = DirectDomain →
  send ProxySMART e s = Some ((e1, None), s1) →
  ∃ s2,
    send ProxySMART e s1 = Some ((setIP e (IP e1), None), s2) ∧
    history s2 = history s1.
Proof.
  intros Hhosts Hd. unfold Send, look4Hosts. rewrite Hhosts. simpl.
  unfold smartSend. rewrite Hd. intros Hr.
  destruct (resolvDNSByLocal_inv _ _ _ _ _ Hr) as (ip & -> & _).
  by apply (resolvDNSByLocal_again DNSResolver e e s ip s1).
Qed.

End MoreDNS.

(** ** [SetListen], [SetRelayer] and [Init] *)

Section MoreConfig.

Import Controler Config.

Variable EagleUser : Type.
Variable userID : EagleUser → string.
Variable ParseEagleUser : string → option EagleUser * option error.
Variable MapToLower : string → string.
Variable Dir : string → string.
Variable ReadDir : string → option (list DirEntry).
Variable fileAt : string → File.

Implicit Types (g : Globals EagleUser).

Local Abbreviation init :=
  (Init EagleUser userID ParseEagleUser MapToLower Dir ReadDir fileAt).
Local Abbreviation keyValuesAt filePath :=
  (getKeyValues (readLines MapToLower (fileAt filePath)).1).1.

(** *** Addresses *)

Lemma SetListen_eq localIpe g :
  ∃ addr port, SetListen EagleUser localIpe g = setLocal EagleUser g addr port.
Proof.
  unfold SetListen. destruct (Nat.leb 2 _); by eexists _, _.
Qed.

Lemma SetRelayer_eq remoteIpe g :
  ∃ addr port,
    SetRelayer EagleUser remoteIpe g = setRemote EagleUser g addr port.
Proof.
  unfold SetRelayer. destruct (Nat.leb 2 _); by eexists _, _.
Qed.

Lemma Split_two sep a b :
  sep ∉ bytes a → sep ∉ bytes b → Split sep (a +:+ String sep b) = [a; b].
Proof.
  intros Ha Hb. rewrite Split_append_sep by done. by rewrite Split_no_sep.
Qed.

(** X14.  [SetListen] on [addr:port], neither with a colon in it, stores
    the two as they are (nothing is trimmed); on an address without a colon
    it stores the address and the port 8080; on the empty string it stores
    0.0.0.0 and 8080. *)
Theorem SetListen_address addr port g :
  ":"%char ∉ bytes addr → ":"%char ∉ bytes port →
  SetListen EagleUser (addr +:+ String ":" port) g
    = setLocal EagleUser g addr port ∧
  (addr ≠ "" →
   SetListen EagleUser addr g = setLocal EagleUser g addr "8080") ∧
  SetListen EagleUser "" g = setLocal EagleUser g "0.0.0.0" "8080".
Proof.
  intros Ha Hp. split_and!.
  - unfold SetListen.
    destruct (String.eqb_spec (addr +:+ String ":" port) "") as [E|_].
    { by destruct addr. }
    by rewrite Split_two.
  - intros Hne. unfold SetListen.
    destruct (String.eqb_spec addr "") as [E|_]; [done|].
    by rewrite Split_no_sep.
  - done.
Qed.

(** X15.  Whatever [SetListen] is given, neither the address nor the port
    it stores has a colon in it: an IPv6 address cannot be listened on. *)
Theorem SetListen_no_colon localIpe g :
  (":"%char ∉ bytes (LocalAddr EagleUser (SetListen EagleUser localIpe g))) ∧
  ":"%char ∉ bytes (LocalPort EagleUser (SetListen EagleUser localIpe g)).
Proof.
  unfold SetListen.
  set (l := if String.eqb localIpe "" then "0.0.0.0:8080" else localIpe).
  destruct (Split_nonempty ":" l) as (p & ps & E).
  assert (Hall : ∀ q, q ∈ p :: ps → ":"%char ∉ bytes q).
  { intros q Hq. rewrite <- E in Hq. by apply Split_pieces in Hq as [? _]. }
  rewrite E. destruct g, ps as [|q qs]; simpl.
  - split; [apply Hall; set_solver | set_solver].
  - split; apply Hall; set_solver.
Qed.

(** X16.  [SetRelayer] on [addr:port], neither with a colon in it, stores
    the two with the white space around them removed; on an address
    without a colon it stores the trimmed address and the port 8080. *)
Theorem SetRelayer_address addr port g :
  ":"%char ∉ bytes addr → ":"%char ∉ bytes port →
  SetRelayer EagleUser (addr +:+ String ":" port) g
    = setRemote EagleUser g (TrimSpace addr) (TrimSpace port) ∧
  SetRelayer EagleUser addr g
    = setRemote EagleUser g (TrimSpace addr) "8080".
Proof.
  intros Ha Hp. unfold SetRelayer. split.
  - by rewrite Split_two.
  - by rewrite Split_no_sep.
Qed.

(** *** [importUsers] *)

Lemma importUsers_loop_eq userLines g g' err :
  importUsers_loop EagleUser userID ParseEagleUser userLines g
    = Returns (g', err) →
  g' = setUsers EagleUser g (Users EagleUser g').
Proof.
  revert g. induction userLines as [|line rest IH]; intros g; simpl.
  - intros [= <- _]. by destruct g.
  - destruct (ParseEagleUser line) as [[user|] [e|]]; try done.
    + intros [= <- _]. by destruct g.
    + intros H. apply IH in H. rewrite H at 1. by destruct g.
    + intros [= <- _]. by destruct g.
Qed.

Lemma importUsers_eq usersPath g g' err :
  importUsers EagleUser userID ParseEagleUser MapToLower fileAt usersPath g
    = Returns (g', err) →
  g' = setUsers EagleUser g (Users EagleUser g').
Proof.
  unfold importUsers. destruct (readLines MapToLower (fileAt usersPath)) as [ls [e|]].
  - intros [= <- _]. by destruct g.
  - intros H. apply importUsers_loop_eq in H. rewrite H at 1. by destruct g.
Qed.

(** X17.  [importUsers] stops at the first line [ParseEagleUser] rejects:
    the lines after it are never looked at, so the outcome (the users
    stored so far and the error, or the panic) is the same whatever
    follows, and it is never a return without an error. *)
Theorem importUsers_loop_stops pre bad rest o e g :
  ParseEagleUser bad = (o, Some e) →
  importUsers_loop EagleUser userID ParseEagleUser (pre ++ bad :: rest) g
    = importUsers_loop EagleUser userID ParseEagleUser (pre ++ [bad]) g ∧
  ∀ g', importUsers_loop EagleUser userID ParseEagleUser
          (pre ++ bad :: rest) g ≠ Returns (g', None).
Proof.
  intros Hbad. revert g. induction pre as [|line pre IH]; intros g; simpl.
  - rewrite Hbad. by destruct o.
  - destruct (ParseEagleUser line) as [[user|] [e'|]] eqn:El; done.
Qed.

(** *** [Init] *)

(** [Init] up to the data key: [g1] holds the variables as they are then,
    [err1] is the error [Init] holds then. *)
Lemma Init_first filePath g g' err :
  init filePath g = Returns (g', err) →
  ∃ g1 err1,
    match keyValuesAt filePath !! "data-key" with
    | Some k =>
        match ParseUint_16_8 k with
        | (_, Some nerr) => g' = g1 ∧ err = Some (ErrNum nerr)
        | (v, None) =>
            (g', err) = Init_rest EagleUser MapToLower ReadDir fileAt
                          (keyValuesAt filePath) None
                          (setEncryptKey EagleUser g1 v)
        end
    | None =>
        (g', err) = Init_rest EagleUser MapToLower ReadDir fileAt
                      (keyValuesAt filePath) err1 g1
    end ∧
    restUntouched EagleUser g g1 ∧
    EncryptKey EagleUser g1 = 34 ∧
    (err1 = None ∨ ∃ e, err1 = Some (ErrOf e)).
Proof.
  unfold Init. destruct g. cbn [ConfigPath setConfigPath].
  destruct (readLines MapToLower (fileAt filePath)) as [allConfLines e0]. cbn [fst].
  generalize ((getKeyValues allConfLines).1). intros kv Hr.
  assert (He : ∀ x : option error, errOf x = None ∨ ∃ e, errOf x = Some (ErrOf e)).
  { intros [x|]; [right; by eexists | by left]. }
  destruct (kv !! "config-dir") as [dir|];
    destruct (kv !! "user-check") as [uc|];
    try destruct (String.eqb uc "on");
    cbn [EnableUserCheck setEnableUserCheck setConfigDir setConfigPath
         ConfigDir] in Hr;
    try (destruct (importUsers _ _ _ _ _ _ _) as [[g2 uerr]|] eqn:Ei;
         [apply importUsers_eq in Ei; rewrite Ei in Hr; clear Ei
         |discriminate Hr]);
    destruct (kv !! "user") as [user|];
    try destruct (ParseEagleUser user) as [localUser luerr];
    lazymatch type of Hr with
    | context [Returns (Init_rest _ _ _ _ _ ?E ?G)] => exists G, E
    end;
    (split;
     [destruct (kv !! "data-key") as [k|];
        [destruct (ParseUint_16_8 k) as [v [nerr|]]|];
        injection Hr as <- <-; try split; reflexivity
     |split_and!; [repeat split | reflexivity | apply He]]).
Qed.

(** What the steps of [Init] after the data key do not write, and what
    they make of the proxy status. *)
Lemma Init_listen_keeps kv g :
  ∃ addr port, Init_listen EagleUser kv g = setLocal EagleUser g addr port.
Proof. apply SetListen_eq. Qed.

Lemma Init_protocols_keeps kv g :
  ∃ socks http et,
    Init_protocols EagleUser kv g
      = setEnableET EagleUser
          (setEnableHTTP EagleUser (setEnableSOCKS5 EagleUser g socks) http) et.
Proof.
  destruct g. unfold Init_protocols.
  destruct (kv !! "socks"), (kv !! "http"), (kv !! "et"); by eexists _, _, _.
Qed.

Lemma Init_relayer_keeps kv g :
  ∃ addr port, Init_relayer EagleUser kv g = setRemote EagleUser g addr port.
Proof.
  unfold Init_relayer.
  destruct (_ || _); [destruct (kv !! "relayer")|];
    first [apply SetRelayer_eq | destruct g; by eexists _, _].
Qed.

Lemma Init_proxyStatus_eq kv g :
  Init_proxyStatus EagleUser kv g
    = setProxyStatus EagleUser g
        (if bool_decide (kv !! "proxy-status" = Some "smart")
         then ProxySMART else ProxyENABLE).
Proof.
  destruct g. unfold Init_proxyStatus.
  destruct (kv !! "proxy-status") as [status|]; [|done].
  destruct (String.eqb_spec status "enable") as [->|_]; [done|].
  destruct (String.eqb_spec status "smart") as [->|Hne]; [done|].
  rewrite bool_decide_eq_false_2; [done | congruence].
Qed.

Lemma Init_rest_keeps kv err g :
  (Init_rest EagleUser MapToLower ReadDir fileAt kv err g).2 = err ∧
  ConfigKeyValues EagleUser (Init_rest EagleUser MapToLower ReadDir fileAt kv err g).1
    = ConfigKeyValues EagleUser g ∧
  EncryptKey EagleUser (Init_rest EagleUser MapToLower ReadDir fileAt kv err g).1
    = EncryptKey EagleUser g ∧
  ProxyStatus EagleUser (Init_rest EagleUser MapToLower ReadDir fileAt kv err g).1
    = (if bool_decide (kv !! "proxy-status" = Some "smart")
       then ProxySMART else ProxyENABLE).
Proof.
  unfold Init_rest. cbv zeta. cbn [fst snd].
  rewrite Init_proxyStatus_eq.
  destruct (Init_relayer_keeps kv
              (Init_protocols EagleUser kv (Init_listen EagleUser kv g)))
    as (ra & rp & ->).
  destruct (Init_protocols_keeps kv (Init_listen EagleUser kv g))
    as (so & ht & et & ->).
  destruct (Init_listen_keeps kv g) as (la & lp & ->).
  unfold Init_files. by destruct g.
Qed.

(** X18.  [Init] never assigns the package variable [ConfigKeyValues]: the
    map of the key values is held in a variable of the function, so after
    any call that returns the package variable is what it was. *)
Theorem Init_keeps_ConfigKeyValues filePath g g' err :
  init filePath g = Returns (g', err) →
  ConfigKeyValues EagleUser g' = ConfigKeyValues EagleUser g.
Proof.
  intros Hr.
  destruct (Init_first _ _ _ _ Hr) as (g1 & err1 & Hm & (Hk & _) & _ & _).
  destruct (keyValuesAt filePath !! "data-key") as [k|].
  - destruct (ParseUint_16_8 k) as [v [nerr|]].
    + destruct Hm as [-> _]. done.
    + apply (f_equal fst) in Hm. cbn [fst] in Hm. rewrite Hm.
      destruct (Init_rest_keeps (keyValuesAt filePath) None
                  (setEncryptKey EagleUser g1 v)) as (_ & -> & _).
      rewrite <- Hk. by destruct g1.
  - apply (f_equal fst) in Hm. cbn [fst] in Hm. rewrite Hm.
    by destruct (Init_rest_keeps (keyValuesAt filePath) err1 g1)
      as (_ & -> & _).
Qed.

(** X19.  A data key that [strconv.ParseUint] rejects stops [Init]: it
    returns the number error, the key is the default 0x22, and nothing that
    comes after the data key has been set: the listen and relayer
    addresses, the three protocol switches, the proxy status, the
    whitelist and the hosts overlay are what they were. *)
Theorem Init_bad_data_key filePath g g' err k v nerr :
  keyValuesAt filePath !! "data-key" = Some k →
  ParseUint_16_8 k = (v, Some nerr) →
  init filePath g = Returns (g', err) →
  err = Some (ErrNum nerr) ∧
  EncryptKey EagleUser g' = 34 ∧
  restUntouched EagleUser g g'.
Proof.
  intros Hk Hp Hr.
  destruct (Init_first _ _ _ _ Hr) as (g1 & err1 & Hm & Hrest & Hkey & _).
  rewrite Hk, Hp in Hm. by destruct Hm as [-> ->].
Qed.

(** X20.  With a data key in the configuration the errors met before it are
    lost: an error of reading the configuration, of loading the users or
    of parsing the local user is returned by [Init] only when there is no
    data key. *)
Theorem Init_error_masked filePath g g' e :
  init filePath g = Returns (g', Some (ErrOf e)) →
  keyValuesAt filePath !! "data-key" = None.
Proof.
  intros Hr.
  destruct (Init_first _ _ _ _ Hr) as (g1 & err1 & Hm & _).
  destruct (keyValuesAt filePath !! "data-key") as [k|]; [|done].
  destruct (ParseUint_16_8 k) as [v [nerr|]].
  - by destruct Hm as [_ [=]].
  - apply (f_equal snd) in Hm. cbn [snd] in Hm.
    by destruct (Init_rest_keeps (keyValuesAt filePath) None
                   (setEncryptKey EagleUser g1 v)) as (Hs & _);
      rewrite Hs in Hm.
Qed.

(** X21.  When [Init] gets past the data key, the proxy status is SMART
    exactly when the configuration says [proxy-status = smart]; any other
    value, or none, gives ENABLE. *)
Theorem Init_proxy_status filePath g g' err :
  init filePath g = Returns (g', err) →
  (∀ nerr, err ≠ Some (ErrNum nerr)) →
  ProxyStatus EagleUser g'
    = (if bool_decide (keyValuesAt filePath !! "proxy-status" = Some "smart")
       then ProxySMART else ProxyENABLE).
Proof.
  intros Hr Herr.
  destruct (Init_first _ _ _ _ Hr) as (g1 & err1 & Hm & _).
  destruct (keyValuesAt filePath !! "data-key") as [k|].
  - destruct (ParseUint_16_8 k) as [v [nerr|]].
    + destruct Hm as [_ ->]. by destruct (Herr nerr).
    + apply (f_equal fst) in Hm. cbn [fst] in Hm. rewrite Hm.
      by destruct (Init_rest_keeps (keyValuesAt filePath) None
                     (setEncryptKey EagleUser g1 v)) as (_ & _ & _ & ->).
  - apply (f_equal fst) in Hm. cbn [fst] in Hm. rewrite Hm.
    by destruct (Init_rest_keeps (keyValuesAt filePath) err1 g1)
      as (_ & _ & _ & ->).
Qed.

(** The value [ParseUint] returns without an error fits in a byte. *)
Lemma parseUintLoop_bound s0 cs n v :
  parseUintLoop 16 255 s0 cs n = (v, None) → (n ≤ 255)%nat → (v ≤ 255)%nat.
Proof.
  revert n. induction cs as [|c cs IH]; intros n; cbn [parseUintLoop].
  - by intros [= <-].
  - destruct (digitVal c) as [d|]; [|done].
    destruct (Nat.leb 16 d); [done|].
    destruct (Nat.ltb_spec 255 (n * 16 + d)) as [|Hle]; [done|].
    intros Hv _. apply (IH _ Hv). lia.
Qed.

(** X22.  After any [Init] that returns, the obfuscation key is a byte,
    and it is decided by the data key alone: without a data key it is the
    default 0x22; with a data key [strconv.ParseUint] accepts it is the
    value of the data key; with a data key [strconv.ParseUint] rejects it
    is the default 0x22, and [Init] returns the number error. *)
Theorem Init_EncryptKey filePath g g' err :
  init filePath g = Returns (g', err) →
  (EncryptKey EagleUser g' ≤ 255)%nat ∧
  match keyValuesAt filePath !! "data-key" with
  | None => EncryptKey EagleUser g' = 34
  | Some k =>
      match ParseUint_16_8 k with
      | (v, None) => EncryptKey EagleUser g' = v
      | (_, Some nerr) =>
          EncryptKey EagleUser g' = 34 ∧ err = Some (ErrNum nerr)
      end
  end.
Proof.
  intros Hr.
  destruct (Init_first _ _ _ _ Hr) as (g1 & err1 & Hm & _ & Hkey & _).
  destruct (keyValuesAt filePath !! "data-key") as [k|].
  - destruct (ParseUint_16_8 k) as [v [nerr|]] eqn:Ep.
    + destruct Hm as [-> ->]. rewrite Hkey. split_and!; [lia | done | done].
    + apply (f_equal fst) in Hm. cbn [fst] in Hm. rewrite Hm.
      destruct (Init_rest_keeps (keyValuesAt filePath) None
                  (setEncryptKey EagleUser g1 v)) as (_ & _ & -> & _).
      assert (Hv : EncryptKey EagleUser (setEncryptKey EagleUser g1 v) = v)
        by by destruct g1.
      rewrite Hv. split; [|done].
      unfold ParseUint_16_8 in Ep. destruct (String.eqb k ""); [done|].
      apply (parseUintLoop_bound _ _ _ _ Ep). lia.
  - apply (f_equal fst) in Hm. cbn [fst] in Hm. rewrite Hm.
    destruct (Init_rest_keeps (keyValuesAt filePath) err1 g1)
      as (_ & _ & -> & _).
    rewrite Hkey. split; [lia | done].
Qed.

(** X23.  A configuration file that cannot be opened does not stop
    [Init]: it goes on with an empty configuration, so the directory is the
    one of the path, the user check is off, the key is 0x22, the listen
    address is 0.0.0.0:8080 and the proxy status ENABLE, while the protocol
    switches, the users and the relayer keep their values; the error of the
    file is what it returns at the end. *)
Theorem Init_unreadable_config filePath g e :
  openErr (fileAt filePath) = Some e →
  ∃ g',
    init filePath g = Returns (g', Some (ErrOf e)) ∧
    ConfigPath EagleUser g' = filePath ∧
    ConfigDir EagleUser g' = Dir filePath ∧
    EnableUserCheck EagleUser g' = false ∧
    EncryptKey EagleUser g' = 34 ∧
    LocalAddr EagleUser g' = "0.0.0.0" ∧
    LocalPort EagleUser g' = "8080" ∧
    ProxyStatus EagleUser g' = ProxyENABLE ∧
    EnableSOCKS5 EagleUser g' = EnableSOCKS5 EagleUser g ∧
    EnableHTTP EagleUser g' = EnableHTTP EagleUser g ∧
    EnableET EagleUser g' = EnableET EagleUser g ∧
    Users EagleUser g' = Users EagleUser g ∧
    LocalUser EagleUser g' = LocalUser EagleUser g ∧
    RemoteAddr EagleUser g' = RemoteAddr EagleUser g ∧
    RemotePort EagleUser g' = RemotePort EagleUser g.
Proof.
  intros Hopen. unfold Init. destruct g. cbn [ConfigPath setConfigPath].
  unfold readLines at 1. rewrite Hopen.
  change (getKeyValues []).1 with (∅ : gmap string string).
  rewrite !lookup_empty.
  cbn [EnableUserCheck setEnableUserCheck setConfigDir setEncryptKey errOf
       fmap option_fmap option_map].
  unfold Init_rest, Init_listen, Init_protocols, Init_relayer,
    Init_proxyStatus, Init_files.
  rewrite !lookup_empty. cbv zeta.
  eexists. split; [reflexivity|].
  cbn [SetListen]. unfold SetListen.
  cbn [EnableSOCKS5 EnableHTTP setLocal setProxyStatus]. simpl.
  by destruct (_ || _).
Qed.

End MoreConfig.

(** ** More about [readLines], [getKeyValues] and [readHosts] *)

Section MoreControler.

Import Controler.

Implicit Types (s t : string) (c : ascii) (m : gmap string string).

#[local] Arguments String.append !_ _ / : simpl nomatch.

(** *** The lines [readLines] returns *)

(** The ASCII letters as they are lowered satisfy what is assumed of
    [strings.Map(unicode.ToLower, ·)]. *)
Lemma lowerLaws_lowerBytes : lowerLaws lowerBytes.
Proof.
  intros s _. split_and!.
  - intros Hne H%lowerBytes_empty. done.
  - apply hasUpper_lowerBytes.
  - intros c (c0 & H0 & ->)%lowerBytes_bytes [Hc|Hc].
    + pose proof (lowerByte_hash c0) as Hh. rewrite Hc in Hh.
      symmetry in Hh. apply Ascii.eqb_eq in Hh. by subst c0.
    + pose proof (lowerByte_tab c0) as Hh. rewrite Hc in Hh.
      symmetry in Hh. apply Ascii.eqb_eq in Hh. by subst c0.
  - intros H. by rewrite TrimSpace_lowerBytes, H.
  - intros _. apply lowerBytes_id, hasUpper_lowerBytes.
Qed.

Lemma readLine_output_form MapToLower text line :
  lowerLaws MapToLower →
  readLine MapToLower text = Some line →
  line ≠ "" ∧ TrimSpace line = line ∧
  ("#"%char ∉ bytes line) ∧ (TAB ∉ bytes line) ∧ hasUpper line = false ∧
  ToLower MapToLower line = line.
Proof.
  intros Laws. unfold readLine.
  destruct (Split_nonempty "#" text) as (p & ps & E). rewrite E. cbn [nth].
  assert (Hp : "#"%char ∉ bytes p).
  { apply (Split_pieces "#" text). rewrite E. set_solver. }
  destruct (String.eqb_spec (TrimSpace p) "") as [|Hne]; [done|].
  set (r := Replace TAB " " (TrimSpace p)).
  assert (Hr0 : r ≠ "") by (by intros H%Replace_empty).
  assert (Hr1 : TrimSpace r = r).
  { unfold r. by rewrite TrimSpace_Replace, TrimSpace_idem. }
  assert (Hr2 : "#"%char ∉ bytes r).
  { intros [_ [H|H]]%Replace_bytes; [|done].
    apply Hp. by apply (TrimSpace_bytes p). }
  assert (Hr3 : TAB ∉ bytes r) by (by intros [H _]%Replace_bytes).
  intros [= <-]. destruct (isASCII r) eqn:Ea.
  - rewrite (ToLower_ascii MapToLower r Ea). split_and!.
    + by intros H%lowerBytes_empty.
    + by rewrite TrimSpace_lowerBytes, Hr1.
    + intros (c0 & H0 & Hc)%lowerBytes_bytes.
      pose proof (lowerByte_hash c0) as Hh. rewrite <- Hc in Hh.
      symmetry in Hh. apply Ascii.eqb_eq in Hh. by subst c0.
    + intros (c0 & H0 & Hc)%lowerBytes_bytes.
      pose proof (lowerByte_tab c0) as Hh. rewrite <- Hc in Hh.
      symmetry in Hh. apply Ascii.eqb_eq in Hh. by subst c0.
    + apply hasUpper_lowerBytes.
    + rewrite ToLower_ascii by by apply isASCII_lowerBytes.
      apply lowerBytes_id, hasUpper_lowerBytes.
  - destruct (Laws r Ea) as (L1 & L2 & L3 & L4 & L5).
    assert (ToLower MapToLower r = MapToLower r) as ->.
    { unfold ToLower. by rewrite Ea. }
    split_and!.
    + by apply L1.
    + by apply L4.
    + intros H. apply Hr2, (L3 _ H). by left.
    + intros H. apply Hr3, (L3 _ H). by right.
    + done.
    + by apply ToLower_fixed.
Qed.

(** X24.  Every line [readLines] hands on is in a normal form: it is not
    empty, has no white space at either end, and has no comment sign, no
    tab and no upper-case letter in it.  ([strings.ToLower] is the code's
    for a line of ASCII; for any other line it is
    [strings.Map(unicode.ToLower, ·)], of which [lowerLaws] is assumed.) *)
Theorem readLine_normal MapToLower text line :
  lowerLaws MapToLower →
  readLine MapToLower text = Some line →
  line ≠ "" ∧ TrimSpace line = line ∧
  ("#"%char ∉ bytes line) ∧ (TAB ∉ bytes line) ∧ hasUpper line = false.
Proof.
  intros Laws H.
  destruct (readLine_output_form _ _ _ Laws H) as (?&?&?&?&?&_). done.
Qed.

(** X25.  [readLines] changes nothing in a line it has already handed on:
    reading its own output gives the same lines.  ([lowerLaws] is assumed
    of [strings.Map(unicode.ToLower, ·)], which lowers the lines that are
    not ASCII.) *)
Theorem readLine_idempotent MapToLower text line :
  lowerLaws MapToLower →
  readLine MapToLower text = Some line →
  readLine MapToLower line = Some line.
Proof.
  intros Laws H.
  destruct (readLine_output_form _ _ _ Laws H)
    as (Hne & Htrim & Hhash & Htab & Hup & Hlow).
  unfold readLine. rewrite Split_no_sep by done. cbn [nth].
  rewrite Htrim. destruct (String.eqb_spec line ""); [done|].
  by rewrite Replace_id, Hlow.
Qed.

(** A comment does not count: what follows the first [#] of a line
    changes nothing in what [readLines] makes of the line. *)
Lemma readLine_comment MapToLower pre rest :
  "#"%char ∉ bytes pre →
  readLine MapToLower (pre +:+ String "#" rest) = readLine MapToLower pre.
Proof.
  intros Hp. unfold readLine.
  by rewrite (Split_append_sep "#" pre rest Hp), (Split_no_sep "#" pre Hp).
Qed.

(** *** The keys and the values *)

Lemma parseLine_cut key value :
  "="%char ∉ bytes key →
  parseLine (key +:+ String "=" value) = Some (TrimSpace key, TrimSpace value).
Proof.
  intros Hk. unfold parseLine.
  rewrite (Split_append_sep "=" key value Hk).
  destruct (Split_nonempty "=" value) as (q & qs & E). rewrite E.
  cbn [length Nat.leb nth].
  by rewrite joinValue_cons, (joinFrom_Split _ _ _ _ E).
Qed.

(** [getKeyValues] cuts a line at its first [=]: the key is the
    trimmed text before it, the value the trimmed text after it, further
    [=] included. *)
Lemma parseLine_first_eq key value :
  "="%char ∉ bytes key →
  getKeyValues [key +:+ String "=" value]
    = ({[TrimSpace key := TrimSpace value]}, [TrimSpace key]).
Proof.
  intros Hk. unfold getKeyValues. rewrite getKeyValues_loop_eq.
  cbn [fold_left omap list_omap app]. unfold store, keyOf.
  by rewrite (parseLine_cut _ _ Hk).
Qed.

Lemma getKeyValues_app lines1 lines2 :
  getKeyValues (lines1 ++ lines2)
    = (fold_left store lines2 (getKeyValues lines1).1,
       (getKeyValues lines1).2 ++ omap keyOf lines2).
Proof.
  unfold getKeyValues. rewrite !getKeyValues_loop_eq. cbn [fst snd app].
  by rewrite fold_left_app, omap_app.
Qed.

(** X26.  The last line of a key wins: after the lines read so far, a line
    [key=value] (cut at its first [=]) sets the trimmed key to the trimmed
    value, whatever the key held before, leaves every other key alone, and
    adds the key at the end of the list of keys. *)
Theorem getKeyValues_last_wins lines key value :
  "="%char ∉ bytes key →
  getKeyValues (lines ++ [key +:+ String "=" value])
    = (<[TrimSpace key := TrimSpace value]> (getKeyValues lines).1,
       (getKeyValues lines).2 ++ [TrimSpace key]).
Proof.
  intros Hk. rewrite getKeyValues_app. cbn [fold_left omap list_omap].
  unfold store, keyOf. by rewrite (parseLine_cut _ _ Hk).
Qed.

(** X27.  The list of keys and the map go together: a key is in the list
    exactly when the map has a value for it. *)
Theorem getKeyValues_keys_dom lines k :
  k ∈ (getKeyValues lines).2 ↔ is_Some ((getKeyValues lines).1 !! k).
Proof.
  unfold getKeyValues. rewrite getKeyValues_loop_eq. cbn [fst snd app].
  rewrite fold_store_lookup, lookup_empty.
  split; [by right | intros [[? [=]]|H]; done].
Qed.

(** A line without [=] is ignored: taking it out of the lines changes
    neither the map nor the list of keys. *)
Lemma getKeyValues_ignores lines1 line lines2 :
  "="%char ∉ bytes line →
  getKeyValues (lines1 ++ line :: lines2) = getKeyValues (lines1 ++ lines2).
Proof.
  intros Hl. rewrite !getKeyValues_app. cbn [fold_left omap list_omap].
  assert (Hp : parseLine line = None).
  { unfold parseLine. by rewrite (Split_no_sep "=" line Hl). }
  unfold store at 2, keyOf at 1. by rewrite Hp.
Qed.

(** *** The hosts *)

(** X28.  A hosts line with two spaces between the domain and the IP is
    dropped: the second field is empty, and [readHosts] stores nothing for
    the line. *)
Theorem addHost_two_spaces m domain rest :
  " "%char ∉ bytes domain →
  addHost m (domain +:+ String " " (String " " rest)) = m.
Proof.
  intros Hd. unfold addHost.
  rewrite (Split_append_sep " " domain (String " " rest) Hd).
  change (Split " " (String " " rest)) with ("" :: Split " " rest).
  destruct (Split_nonempty " " rest) as (p & ps & ->). cbn [length Nat.leb nth].
  change (TrimSpace "") with "". cbn [String.eqb negb andb].
  by rewrite andb_false_r.
Qed.

(** X29.  The last line of a domain wins: after the lines read so far, a
    line [domain ip] of two words (neither is empty, has a space in it,
    or has white space of Unicode at either end) stores the IP for the
    domain, whatever the overlay held for it, and leaves every other
    domain alone. *)
Theorem addHost_last_wins hosts m domain ip :
  isWord domain = true → isWord ip = true →
  fold_left addHost (hosts ++ [domain +:+ " " +:+ ip]) m
    = <[domain := ip]> (fold_left addHost hosts m).
Proof.
  intros Hd Hi. rewrite fold_left_app. cbn [fold_left].
  by apply addHost_listed.
Qed.

(** [readHosts] only adds to the overlay or overwrites: a domain that
    had an entry has one afterwards; and when the hosts directory cannot be
    read the overlay is what it was. *)
Lemma readHosts_keeps MapToLower ReadDir fileAt configDir m :
  (∀ k, is_Some (m !! k) →
        is_Some (readHosts MapToLower ReadDir fileAt configDir m !! k)) ∧
  (ReadDir (configDir +:+ "/hosts") = None →
   readHosts MapToLower ReadDir fileAt configDir m = m).
Proof.
  split.
  - intros k Hk. rewrite readHosts_eq. by apply fold_addHost_is_Some.
  - intros Hdir. unfold readHosts, hostLines, getHostsList. by rewrite Hdir.
Qed.

(** The hosts files are the entries of the hosts directory that are
    not directories, in the order of the directory. *)
Lemma getHostsList_files ReadDir dir entries :
  ReadDir dir = Some entries →
  getHostsList ReadDir dir
    = map entryName (filter (fun e => entryIsDir e = false) entries).
Proof.
  intros Hdir. unfold getHostsList. rewrite Hdir.
  assert (H : ∀ acc,
    fold_left (fun hosts file =>
                 if negb (entryIsDir file) then hosts ++ [entryName file]
                 else hosts) entries acc
    = acc ++ map entryName (filter (fun e => entryIsDir e = false) entries)).
  { clear Hdir. induction entries as [|e entries IH]; intros acc; cbn [fold_left].
    - by rewrite app_nil_r.
    - rewrite IH. destruct (entryIsDir e) eqn:Ee; cbn [negb].
      + by rewrite filter_cons_False by (by rewrite Ee).
      + rewrite filter_cons_True by done. cbn [map].
        by rewrite <- app_assoc. }
  apply (H []).
Qed.

End MoreControler.

(** ** [main.go] *)

Section MoreMain.

Import Main.

Variable ImportArgs : list act → list string → option string.
Variable ImportConfig : list act → option string.
Variable serve : list act → Run.

(** X30.  The [check] sub-command needs a target.  With nothing after
    [check] the program panics ([args[2:]] of a slice of one element)
    before anything is imported.  With a target, the arguments after the
    target are imported first (the target itself is not), and
    [mycmd.Check] is called, on the target, exactly when both imports
    returned nil. *)
Theorem main_check target rest h :
  main ImportArgs ImportConfig serve ["check"] h = Panic h ∧
  ∃ evs,
    main ImportArgs ImportConfig serve ("check" :: target :: rest) h
      = Done (h ++ CallImportArgs rest :: evs) ∧
    (CallCheck target ∈ evs ↔
       ImportArgs h rest = None ∧
       ImportConfig (h ++ [CallImportArgs rest]) = None) ∧
    ∀ t, CallCheck t ∈ evs → t = target.
Proof.
  split; [done|].
  unfold main, check, Init. cbn [length Nat.eqb Nat.ltb Nat.leb nth drop].
  change (String.eqb "check" "check") with true. cbn iota. rewrite drop_0.
  destruct (ImportArgs h rest) as [msg|] eqn:Ea.
  - exists [LogError msg]. split_and!.
    + by rewrite <- app_assoc.
    + split; [intros H; set_solver | by intros [[=] _]].
    + intros t Ht. set_solver.
  - destruct (ImportConfig (h ++ [CallImportArgs rest])) as [msg|] eqn:Ec.
    + exists [CallImportConfig; LogError msg]. split_and!.
      * by rewrite <- !app_assoc.
      * split; [intros H; set_solver | by intros [_ [=]]].
      * intros t Ht. set_solver.
    + exists [CallImportConfig; CallCheck target]. split_and!.
      * by rewrite <- !app_assoc.
      * split; [done | intros _; set_solver].
      * intros t Ht. set_solver.
Qed.

End MoreMain.

(** ** The further properties, run in the small world *)

Section MoreRuns.

Import Controler Config.

Local Abbreviation org := (Demo.uncertain "example.org").
Local Abbreviation resolved :=
  (setIP (setLocation (setIP org "93.0.0.1") "US") "151.101.1.1").
Local Abbreviation keyValuesAt filePath :=
  (getKeyValues (readLines Demo.mapToLower (Sample.fileAt filePath)).1).1.

Lemma remoteParsed_init ParseIP : remoteParsed ParseIP initState.
Proof. by intros c k text [=]. Qed.

Lemma Send_enable_remote_only_witness :
  ∃ ip err s1,
    Demo.send ProxyENABLE org initState = Some ((setIP org ip, err), s1) ∧
    remotePath "DNS" Demo.relay Demo.parseIP initState "example.org" ip err
               s1 ∧
    dnsLocalCache s1 = None ∧
    (history s1 = [] ∨
     history s1 = [] ++ [CallSendQueryReq ("DNS" +:+ " " +:+ "example.org")]).
Proof.
  apply (Send_enable_remote_only Demo.hosts "DNS" Demo.resolver Demo.relay
           Demo.parseIP Demo.location Demo.needsProxy org initState);
    [reflexivity | apply settledState_init].
Defined.

Lemma Send_smart_direct_witness :
  ∃ ip err s1,
    Demo.send ProxySMART (Sample.direct "example.cn") initState
      = Some ((setIP (Sample.direct "example.cn") ip, err), s1) ∧
    localPath Demo.resolver initState "example.cn" ip err s1 ∧
    dnsRemoteCache s1 = None ∧
    (history s1 = [] ∨ history s1 = [] ++ [CallDNSResolver "example.cn"]).
Proof.
  apply (Send_smart_direct Demo.hosts "DNS" Demo.resolver Demo.relay
           Demo.parseIP Demo.location Demo.needsProxy
           (Sample.direct "example.cn") initState);
    [reflexivity | reflexivity | apply settledState_init].
Defined.

Lemma Send_smart_proxy_witness :
  ∃ ip err s1,
    Demo.send ProxySMART (Sample.proxied "example.org") initState
      = Some ((setIP (Sample.proxied "example.org") ip, err), s1) ∧
    remotePath "DNS" Demo.relay Demo.parseIP initState "example.org" ip err
               s1 ∧
    dnsLocalCache s1 = None ∧
    (history s1 = [] ∨
     history s1 = [] ++ [CallSendQueryReq ("DNS" +:+ " " +:+ "example.org")]).
Proof.
  apply (Send_smart_proxy Demo.hosts "DNS" Demo.resolver Demo.relay
           Demo.parseIP Demo.location Demo.needsProxy
           (Sample.proxied "example.org") initState);
    [reflexivity | reflexivity | apply settledState_init].
Defined.

Lemma resolvDNSByProxy_again_witness :
  ∃ s2,
    resolvDNSByProxy "DNS" Demo.relay Demo.parseIP
                     (Sample.proxied "example.org") Sample.afterProxy
      = Some ((setIP (Sample.proxied "example.org") "151.101.1.1", None), s2) ∧
    history s2 = history Sample.afterProxy.
Proof.
  apply (resolvDNSByProxy_again "DNS" Demo.relay Demo.parseIP
           (newNetArg "example.org") (Sample.proxied "example.org") initState
           (setIP (newNetArg "example.org") "151.101.1.1") Sample.afterProxy);
    reflexivity.
Defined.

Lemma resolvDNSByLocal_failure_not_cached_witness :
  ∃ s1,
    resolvDNSByLocal Demo.resolver (newNetArg "down.example") initState
      = Some ((setIP (newNetArg "down.example") "", Some Demo.noHost), s1) ∧
    cacheOrNew Local s1 = cacheOrNew Local initState ∧
    history s1 = [] ++ [CallDNSResolver "down.example"] ∧
    ∀ e2, Domain e2 = "down.example" →
      ∃ r s2,
        resolvDNSByLocal Demo.resolver e2 s1 = Some (r, s2) ∧
        history s2 = history s1 ++ [CallDNSResolver "down.example"].
Proof.
  apply (resolvDNSByLocal_failure_not_cached Demo.resolver
           (newNetArg "down.example") initState "" Demo.noHost);
    reflexivity.
Defined.

Lemma Send_frame_witness :
  Domain resolved = "example.org" ∧ Port resolved = "" ∧
  DomainType resolved = UncertainDomain.
Proof.
  apply (Send_frame Demo.hosts "DNS" Demo.resolver Demo.relay Demo.parseIP
           Demo.location Demo.needsProxy ProxySMART org initState resolved
           None Sample.afterSmart).
  reflexivity.
Defined.

Lemma Send_history_witness :
  ∃ evs ip,
    history Sample.afterSmart = [] ++ evs ∧
    evs `sublist_of`
      [CallDNSResolver "example.org"; CallLocation ip;
       CallSendQueryReq ("DNS" +:+ " " +:+ "example.org")].
Proof.
  apply (Send_history Demo.hosts "DNS" Demo.resolver Demo.relay Demo.parseIP
           Demo.location Demo.needsProxy ProxySMART org initState resolved
           None Sample.afterSmart).
  reflexivity.
Defined.

Lemma resolvDNSByProxy_parsed_witness :
  remoteParsed Demo.parseIP Sample.afterProxy ∧
  ((None : option error) = None →
   Demo.parseIP (IP (setIP (newNetArg "example.org") "151.101.1.1")) = true).
Proof.
  apply (resolvDNSByProxy_parsed "DNS" Demo.relay Demo.parseIP
           (newNetArg "example.org") initState
           (setIP (newNetArg "example.org") "151.101.1.1") None
           Sample.afterProxy);
    [apply remoteParsed_init | reflexivity].
Defined.

Lemma Send_remoteParsed_witness :
  remoteParsed Demo.parseIP Sample.afterSmart.
Proof.
  apply (Send_remoteParsed Demo.hosts "DNS" Demo.resolver Demo.relay
           Demo.parseIP Demo.location Demo.needsProxy ProxySMART org
           initState resolved None Sample.afterSmart);
    [apply remoteParsed_init | reflexivity].
Defined.

Lemma resolvDNSByProxy_ignores_query_error_witness :
  ∃ s1,
    resolvDNSByProxy "DNS" Sample.flakyRelay Demo.parseIP
                     (newNetArg "example.org") initState
      = Some ((setIP (newNetArg "example.org") "151.101.1.1", None), s1) ∧
    cacheOrNew Remote s1 !! "example.org" = Some (Ready "151.101.1.1").
Proof.
  apply (resolvDNSByProxy_ignores_query_error "DNS" Sample.flakyRelay
           Demo.parseIP (newNetArg "example.org") initState "151.101.1.1"
           (Some (ErrExternal "connection reset")));
    reflexivity.
Defined.

Lemma Handle_extra_fields_witness :
  Demo.handle ("DNS" +:+ String " " ("example.org" +:+ String " " "AAAA"))
              initState
    = Demo.handle ("DNS" +:+ String " " "example.org") initState.
Proof.
  apply (Handle_extra_fields Demo.resolver Demo.write "DNS" "example.org"
           "AAAA" initState);
    vm_compute; set_solver.
Defined.

Lemma Send_Handle_settled_witness :
  (∃ r s', Demo.send ProxySMART org initState = Some (r, s') ∧
           settledState s') ∧
  (∃ r s', Demo.handle "DNS example.org" initState = Some (r, s') ∧
           settledState s').
Proof.
  apply (Send_Handle_settled Demo.hosts "DNS" Demo.resolver Demo.relay
           Demo.parseIP Demo.location Demo.needsProxy Demo.write ProxySMART
           org "DNS example.org" initState).
  apply settledState_init.
Defined.

Lemma Send_direct_again_witness :
  ∃ s2,
    Demo.send ProxySMART (Sample.direct "example.cn") Sample.afterDirect
      = Some ((setIP (Sample.direct "example.cn") "36.0.0.1", None), s2) ∧
    history s2 = history Sample.afterDirect.
Proof.
  apply (Send_direct_again Demo.hosts "DNS" Demo.resolver Demo.relay
           Demo.parseIP Demo.location Demo.needsProxy
           (Sample.direct "example.cn") initState
           (setIP (Sample.direct "example.cn") "36.0.0.1")
           Sample.afterDirect);
    reflexivity.
Defined.

Lemma SetListen_address_witness :
  SetListen Sample.User ("127.0.0.1" +:+ String ":" "8081") Sample.globals
    = setLocal Sample.User Sample.globals "127.0.0.1" "8081" ∧
  ("127.0.0.1" ≠ "" →
   SetListen Sample.User "127.0.0.1" Sample.globals
     = setLocal Sample.User Sample.globals "127.0.0.1" "8080") ∧
  SetListen Sample.User "" Sample.globals
    = setLocal Sample.User Sample.globals "0.0.0.0" "8080".
Proof.
  apply (SetListen_address Sample.User "127.0.0.1" "8081" Sample.globals);
    vm_compute; set_solver.
Defined.

Lemma SetRelayer_address_witness :
  SetRelayer Sample.User (" 1.2.3.4" +:+ String ":" "8080 ") Sample.globals
    = setRemote Sample.User Sample.globals (TrimSpace " 1.2.3.4")
                (TrimSpace "8080 ") ∧
  SetRelayer Sample.User " 1.2.3.4" Sample.globals
    = setRemote Sample.User Sample.globals (TrimSpace " 1.2.3.4") "8080".
Proof.
  apply (SetRelayer_address Sample.User " 1.2.3.4" "8080 " Sample.globals);
    vm_compute; set_solver.
Defined.

Lemma importUsers_loop_stops_witness :
  importUsers_loop Sample.User Sample.userID Sample.parseUser
      (["ann:pw1"] ++ "broken" :: ["bob:pw2"]) Sample.globals
    = importUsers_loop Sample.User Sample.userID Sample.parseUser
        (["ann:pw1"] ++ ["broken"]) Sample.globals ∧
  ∀ g', importUsers_loop Sample.User Sample.userID Sample.parseUser
          (["ann:pw1"] ++ "broken" :: ["bob:pw2"]) Sample.globals
        ≠ Returns (g', None).
Proof.
  apply (importUsers_loop_stops Sample.User Sample.userID Sample.parseUser
           ["ann:pw1"] "broken" ["bob:pw2"] None
           (ErrExternal "invalid user text") Sample.globals).
  reflexivity.
Defined.

Lemma Init_keeps_ConfigKeyValues_witness :
  ConfigKeyValues Sample.User Sample.started
    = ConfigKeyValues Sample.User Sample.globals.
Proof.
  apply (Init_keeps_ConfigKeyValues Sample.User Sample.userID
           Sample.parseUser Demo.mapToLower Sample.dir Demo.readDir Sample.fileAt
           "/etc/et/client.conf" Sample.globals Sample.started None).
  vm_compute. reflexivity.
Defined.

Lemma Init_bad_data_key_witness :
  Some (ErrNum (ErrSyntax "zz")) = Some (ErrNum (ErrSyntax "zz")) ∧
  EncryptKey Sample.User Sample.stopped = 34 ∧
  restUntouched Sample.User Sample.globals Sample.stopped.
Proof.
  apply (Init_bad_data_key Sample.User Sample.userID Sample.parseUser Demo.mapToLower
           Sample.dir Demo.readDir Sample.fileAt "/etc/et/bad.conf"
           Sample.globals Sample.stopped (Some (ErrNum (ErrSyntax "zz")))
           "zz" 0 (ErrSyntax "zz"));
    vm_compute; reflexivity.
Defined.

Lemma Init_error_masked_witness :
  keyValuesAt "/nowhere/et.conf" !! "data-key" = None.
Proof.
  apply (Init_error_masked Sample.User Sample.userID Sample.parseUser Demo.mapToLower
           Sample.dir Demo.readDir Sample.fileAt "/nowhere/et.conf"
           Sample.globals Sample.unread (ErrExternal "no such file")).
  vm_compute. reflexivity.
Defined.

Lemma Init_proxy_status_witness :
  ProxyStatus Sample.User Sample.started
    = (if bool_decide
            (keyValuesAt "/etc/et/client.conf" !! "proxy-status"
               = Some "smart")
       then ProxySMART else ProxyENABLE).
Proof.
  apply (Init_proxy_status Sample.User Sample.userID Sample.parseUser Demo.mapToLower
           Sample.dir Demo.readDir Sample.fileAt "/etc/et/client.conf"
           Sample.globals Sample.started None);
    [vm_compute; reflexivity | discriminate].
Defined.

Lemma Init_EncryptKey_witness :
  (EncryptKey Sample.User Sample.started ≤ 255)%nat ∧
  match keyValuesAt "/etc/et/client.conf" !! "data-key" with
  | None => EncryptKey Sample.User Sample.started = 34
  | Some k =>
      match ParseUint_16_8 k with
      | (v, None) => EncryptKey Sample.User Sample.started = v
      | (_, Some nerr) =>
          EncryptKey Sample.User Sample.started = 34 ∧
          (None : option initError) = Some (ErrNum nerr)
      end
  end.
Proof.
  apply (Init_EncryptKey Sample.User Sample.userID Sample.parseUser Demo.mapToLower
           Sample.dir Demo.readDir Sample.fileAt "/etc/et/client.conf"
           Sample.globals Sample.started None).
  vm_compute. reflexivity.
Defined.

Lemma Init_unreadable_config_witness :
  ∃ g',
    Sample.init "/nowhere/et.conf" Sample.globals
      = Returns (g', Some (ErrOf (ErrExternal "no such file"))) ∧
    ConfigPath Sample.User g' = "/nowhere/et.conf" ∧
    ConfigDir Sample.User g' = Sample.dir "/nowhere/et.conf" ∧
    EnableUserCheck Sample.User g' = false ∧
    EncryptKey Sample.User g' = 34 ∧
    LocalAddr Sample.User g' = "0.0.0.0" ∧
    LocalPort Sample.User g' = "8080" ∧
    ProxyStatus Sample.User g' = ProxyENABLE ∧
    EnableSOCKS5 Sample.User g' = EnableSOCKS5 Sample.User Sample.globals ∧
    EnableHTTP Sample.User g' = EnableHTTP Sample.User Sample.globals ∧
    EnableET Sample.User g' = EnableET Sample.User Sample.globals ∧
    Users Sample.User g' = Users Sample.User Sample.globals ∧
    LocalUser Sample.User g' = LocalUser Sample.User Sample.globals ∧
    RemoteAddr Sample.User g' = RemoteAddr Sample.User Sample.globals ∧
    RemotePort Sample.User g' = RemotePort Sample.User Sample.globals.
Proof.
  apply (Init_unreadable_config Sample.User Sample.userID Sample.parseUser Demo.mapToLower
           Sample.dir Demo.readDir Sample.fileAt "/nowhere/et.conf"
           Sample.globals (ErrExternal "no such file")).
  reflexivity.
Defined.

Lemma readLine_normal_witness :
  "listen = 0.0.0.0:8080" ≠ "" ∧
  TrimSpace "listen = 0.0.0.0:8080" = "listen = 0.0.0.0:8080" ∧
  ("#"%char ∉ bytes "listen = 0.0.0.0:8080") ∧
  (TAB ∉ bytes "listen = 0.0.0.0:8080") ∧
  hasUpper "listen = 0.0.0.0:8080" = false.
Proof.
  apply (readLine_normal Demo.mapToLower "  Listen = 0.0.0.0:8080 # local"
                         "listen = 0.0.0.0:8080").
  - apply lowerLaws_lowerBytes.
  - reflexivity.
Defined.

Lemma readLine_idempotent_witness :
  readLine Demo.mapToLower "listen = 0.0.0.0:8080"
    = Some "listen = 0.0.0.0:8080".
Proof.
  apply (readLine_idempotent Demo.mapToLower
           "  Listen = 0.0.0.0:8080 # local" "listen = 0.0.0.0:8080").
  - apply lowerLaws_lowerBytes.
  - reflexivity.
Defined.

Lemma getKeyValues_last_wins_witness :
  getKeyValues (Demo.configLines ++ ["listen " +:+ String "=" " 10.0.0.1:9"])
    = (<[TrimSpace "listen " := TrimSpace " 10.0.0.1:9"]>
         (getKeyValues Demo.configLines).1,
       (getKeyValues Demo.configLines).2 ++ [TrimSpace "listen "]).
Proof.
  apply (getKeyValues_last_wins Demo.configLines "listen " " 10.0.0.1:9").
  vm_compute. set_solver.
Defined.

Lemma addHost_two_spaces_witness :
  addHost ∅ ("example.com" +:+ String " " (String " " "1.2.3.4")) = ∅.
Proof.
  apply (addHost_two_spaces ∅ "example.com" "1.2.3.4").
  vm_compute. set_solver.
Defined.

Lemma addHost_last_wins_witness :
  fold_left addHost
      (["example.com 1.2.3.4"] ++ ["example.com" +:+ " " +:+ "5.6.7.8"]) ∅
    = <["example.com" := "5.6.7.8"]>
        (fold_left addHost ["example.com 1.2.3.4"] ∅).
Proof.
  apply (addHost_last_wins ["example.com 1.2.3.4"] ∅ "example.com" "5.6.7.8");
    reflexivity.
Defined.

End MoreRuns.
